(** * Dominate: the tag tree, its scoped-construction contexts, its renderer
      and the escaping helpers, embedded in Rocq.

    Sources: [dominate/util.py] and [dominate/dom_tag.py].

    Modelling conventions.
    - A Python [str] is a [string]: a sequence of character codes, one
      [ascii] per character, so the model covers the strings whose code
      points are below 256.  Comparison of strings is lexicographic on the
      codes, as in Python.
    - Python objects that are mutated and shared (tags, context frames) live
      in an explicit store and are referred to by their address.
    - A call that can raise returns an [outcome]; the store it leaves behind
      is returned next to it, because an exception does not undo the
      mutations made before it. *)

From Equations Require Import Equations.
From stdpp Require Import gmap strings list.
From stdpp Require Import sorting.
From Stdlib Require Import ZArith Lia Ascii HexString DecimalString.

Local Open Scope char_scope.
Local Open Scope stdpp_scope.

#[local] Arguments String.append !_ _ / : simpl nomatch.

(** ** Strings as Python uses them *)

Module Str.

(** [s * n] for a string [s] and a count [n]. *)
Fixpoint repeat (s : string) (n : nat) : string :=
  match n with
  | O => ""
  | S k => s +:+ repeat s k
  end.

(** [''.join(parts)]. *)
Fixpoint join (parts : list string) : string :=
  match parts with
  | [] => ""
  | p :: rest => p +:+ join rest
  end.

(** [s.replace(old, new)] for a pattern [old] of one character; [count]
    is Python's optional third argument. *)
Fixpoint replace_count (old : ascii) (new : string) (count : option nat)
    (s : string) : string :=
  match s with
  | EmptyString => ""
  | String c rest =>
      match count with
      | Some O => s
      | _ =>
          if Ascii.eqb c old
          then new +:+ replace_count old new (pred <$> count) rest
          else String c (replace_count old new count rest)
      end
  end.

Definition replace (old : ascii) (new : string) (s : string) : string :=
  replace_count old new None s.

(** [s.startswith(p)]. *)
Definition startswith (s p : string) : bool := String.prefix p s.

(** [s.split(sep)[0]]: the text before the first [sep]. *)
Fixpoint split_head (sep : ascii) (s : string) : string :=
  match s with
  | EmptyString => ""
  | String c rest => if Ascii.eqb c sep then "" else String c (split_head sep rest)
  end.

(** The capital letters among the codes below 256: A-Z and the Latin-1
    capitals, codes 192 to 222 without the multiplication sign 215. *)
Definition is_upper (c : ascii) : bool :=
  let n := nat_of_ascii c in
  ((65 <=? n) && (n <=? 90) ||
   (192 <=? n) && (n <=? 214) ||
   (216 <=? n) && (n <=? 222))%nat.
Definition is_lower (c : ascii) : bool :=
  (97 <=? nat_of_ascii c)%nat && (nat_of_ascii c <=? 122)%nat.
Definition is_digit (c : ascii) : bool :=
  (48 <=? nat_of_ascii c)%nat && (nat_of_ascii c <=? 57)%nat.

(** [s.lower()], character by character: a capital letter becomes its
    small letter, 32 codes up; every other code below 256 is left as it
    is.  [upper_char] is the capital of a letter a-z, which is all the
    conversion [%X] asks of it. *)
Definition lower_char (c : ascii) : ascii :=
  if is_upper c then ascii_of_nat (nat_of_ascii c + 32) else c.
Definition upper_char (c : ascii) : ascii :=
  if is_lower c then ascii_of_nat (nat_of_ascii c - 32) else c.

Fixpoint map (f : ascii -> ascii) (s : string) : string :=
  match s with
  | EmptyString => ""
  | String c rest => String (f c) (map f rest)
  end.

Definition lower : string -> string := map lower_char.
Definition upper : string -> string := map upper_char.

(** [c in s]. *)
Fixpoint mem (c : ascii) (s : string) : bool :=
  match s with
  | EmptyString => false
  | String d rest => Ascii.eqb c d || mem c rest
  end.

(** [s.rjust(width)]: pad with spaces on the left. *)
Definition rjust (width : nat) (s : string) : string :=
  repeat " " (width - String.length s) +:+ s.

(** [all(f(c) for c in s)]. *)
Fixpoint all (f : ascii -> bool) (s : string) : bool :=
  match s with
  | EmptyString => true
  | String c rest => f c && all f rest
  end.

(** [s[-1]], when [s] is not empty. *)
Fixpoint last (s : string) : option ascii :=
  match s with
  | EmptyString => None
  | String c EmptyString => Some c
  | String _ rest => last rest
  end.

(** [s[:-1]]. *)
Fixpoint init (s : string) : string :=
  match s with
  | EmptyString => ""
  | String _ EmptyString => ""
  | String c rest => String c (init rest)
  end.

End Str.

(** ** [dominate/util.py]: the escaping helpers *)

Module Util.

(** [escape(data, quote=True)]. *)
Definition escape (data : string) (quote : bool) : string :=
  let data := Str.replace "&" "&amp;" data in
  let data := Str.replace "<" "&lt;" data in
  let data := Str.replace ">" "&gt;" data in
  if quote then Str.replace "034" "&quot;" data else data.

(** The table [_unescape]. *)
Definition _unescape : gmap string N :=
  <["yuml" := 255%N]> (<["nbsp" := 32%N]> (<["gt" := 62%N]>
    (<["lt" := 60%N]> (<["amp" := 38%N]> (<["quot" := 34%N]> ∅))))).

(** What the pattern [&(?:(?:#(\d+))|([^;]+));] captured: group 1 (a
    run of digits) or group 2 (a name). *)
Inductive entity :=
| Numeric (digits : string)
| Named (name : string).

(** The longest run of digits at the head of [s], and what follows. *)
Fixpoint span_digits (s : string) : string * string :=
  match s with
  | String c rest =>
      if Str.is_digit c
      then let '(ds, tl) := span_digits rest in (String c ds, tl)
      else ("", s)
  | EmptyString => ("", "")
  end.

(** The text before the first [;] of [s] and the text after it; [None]
    when [s] has no [;]. *)
Fixpoint span_name (s : string) : option (string * string) :=
  match s with
  | EmptyString => None
  | String c rest =>
      if Ascii.eqb c ";" then Some ("", rest)
      else match span_name rest with
           | Some (nm, tl) => Some (String c nm, tl)
           | None => None
           end
  end.

(** The pattern tried right after an ampersand.  The first alternative,
    [#(\d+);], needs a [#], at least one digit and a [;] after the whole
    run of digits (giving digits back cannot help: a digit would then
    face the [;]).  The second, [([^;]+);], needs at least one character
    before the first [;]. *)
Definition match_entity (s : string) : option (entity * string) :=
  let second :=
    match span_name s with
    | Some (String c nm, tl) => Some (Named (String c nm), tl)
    | _ => None
    end in
  match s with
  | String "#" rest =>
      match span_digits rest with
      | (String d ds, String ";" tl) => Some (Numeric (String d ds), tl)
      | _ => second
      end
  | _ => second
  end.

(** [cc.search(data)]: the leftmost match, as the text before it
    ([data[0:m.start()]]), the captured group and the text after it
    ([data[m.end():]]). *)
Fixpoint search (data : string) : option (string * entity * string) :=
  match data with
  | EmptyString => None
  | String c rest =>
      let later :=
        match search rest with
        | Some (pre, e, tl) => Some (String c pre, e, tl)
        | None => None
        end in
      if Ascii.eqb c "&"
      then match match_entity rest with
           | Some (e, tl) => Some ("", e, tl)
           | None => later
           end
      else later
  end.

(** The number a run of decimal digits writes. *)
Definition digits_value (ds : string) : N :=
  let fix go (acc : N) (s : string) : N :=
    match s with
    | EmptyString => acc
    | String c rest => go (10 * acc + (N_of_ascii c - 48))%N rest
    end in
  go 0%N ds.

(** [int(d_)] on a run of decimal digits.  CPython (from 3.11 on, and the
    security releases of the versions before it) refuses a run of more than
    4300 digits, leading zeros counted, with [ValueError]: [None]. *)
Definition int_of_digits (ds : string) : option N :=
  if (4300 <? N.of_nat (String.length ds))%N then None
  else Some (digits_value ds).

(** [unichr(d)]: [None] when the code is not one of the model's
    characters (Python returns that character up to 0x10FFFF and raises
    [ValueError] above). *)
Definition unichr (d : N) : option string :=
  if (d <? 256)%N then Some (String (ascii_of_N d) "") else None.

(** The code [d] of a match: [int(d_)] for group 1, which may raise, the
    entry of the table or the code of [?] for group 2. *)
Definition entity_code (e : entity) : option N :=
  match e with
  | Numeric ds => int_of_digits ds
  | Named nm => Some (default 63%N (_unescape !! nm))
  end.

Lemma search_shorter data pre e tl :
  search data = Some (pre, e, tl) ->
  (String.length tl < String.length data)%nat.
Proof.
  assert (Hname : forall s nm tl0, span_name s = Some (nm, tl0) ->
            (String.length tl0 < String.length s)%nat).
  { induction s as [|c s IH]; simpl; intros nm tl0 H; [done|].
    destruct (Ascii.eqb c ";"); [injection H as <- <-; lia|].
    destruct (span_name s) as [[nm' tl']|]; [|done].
    injection H as <- <-. specialize (IH _ _ eq_refl). lia. }
  assert (Hdig : forall s ds tl0, span_digits s = (ds, tl0) ->
            (String.length tl0 <= String.length s)%nat).
  { induction s as [|c s IH]; simpl; intros ds tl0 H.
    - injection H as <- <-. simpl. lia.
    - destruct (Str.is_digit c).
      + destruct (span_digits s) as [ds' tl'].
        injection H as <- <-. specialize (IH _ _ eq_refl). lia.
      + injection H as <- <-. simpl. lia. }
  assert (Hent : forall s e0 tl0, match_entity s = Some (e0, tl0) ->
            (String.length tl0 < String.length s)%nat).
  { intros s e0 tl0. unfold match_entity.
    assert (Hsecond : match span_name s with
                      | Some (String c nm, tl1) => Some (Named (String c nm), tl1)
                      | _ => None
                      end = Some (e0, tl0) ->
                      (String.length tl0 < String.length s)%nat).
    { destruct (span_name s) as [[[|c nm] tl1]|] eqn:E; try done.
      intros H. injection H as <- <-. eauto. }
    destruct s as [|c s]; [done|].
    destruct (Ascii.eqb_spec c "#") as [->|Hc].
    - destruct (span_digits s) as [[|d ds] tl1] eqn:E; [done|].
      destruct tl1 as [|c1 tl1]; [done|].
      destruct (Ascii.eqb_spec c1 ";") as [->|Hc1].
      + intros H. injection H as <- <-. apply Hdig in E. simpl in *. lia.
      + destruct c1 as [[] [] [] [] [] [] [] []]; try done.
    - destruct c as [[] [] [] [] [] [] [] []]; try done. }
  revert pre e tl. induction data as [|c data IH]; simpl; intros pre e tl H; [done|].
  assert (Hlater : match search data with
                   | Some (pre0, e0, tl0) => Some (String c pre0, e0, tl0)
                   | None => None
                   end = Some (pre, e, tl) ->
                   (String.length tl < S (String.length data))%nat).
  { destruct (search data) as [[[pre0 e0] tl0]|]; [|done].
    intros H'. injection H' as <- <- <-. specialize (IH _ _ _ eq_refl). lia. }
  destruct (Ascii.eqb c "&"); [|auto].
  destruct (match_entity data) as [[e0 tl0]|] eqn:E; [|auto].
  injection H as <- <- <-. apply Hent in E. lia.
Qed.

Definition inspect {A : Type} (a : A) : {b : A | a = b} := exist _ a eq_refl.

(** The loop of [unescape], with [result] the list of pieces collected
    so far; [None] when [int] refuses the digits or when a character
    reference is outside the model. *)
Equations? unescape_loop (result : list string) (data : string)
    : option (list string) by wf (String.length data) lt :=
  unescape_loop result data with inspect (search data) := {
    | exist _ (Some (pair (pair pre e) tl)) Hm =>
        match entity_code e ≫= unichr with
        | Some ch => unescape_loop (result ++ [pre; ch]) tl
        | None => None
        end
    | exist _ None Hm => Some (result ++ [data]) }.
Proof. eapply search_shorter; eassumption. Qed.

(** [unescape(data)]. *)
Definition unescape (data : string) : option string :=
  Str.join <$> unescape_loop [] data.

(** [_reserved]. *)
Definition _reserved : string := ";/?:@&=+$, ".

(** The conversion [%X]: the number in hexadecimal with capital
    letters. *)
Definition format_X (n : N) : string :=
  match n with
  | N0 => "0"
  | Npos p => Str.upper (HexString.Raw.of_pos p "")
  end.

(** ['%%%2X' % n]: a percent sign, then [n] in capital hexadecimal,
    padded with spaces on the left to two characters. *)
Definition format_percent_2X (n : N) : string :=
  "%" +:+ Str.rjust 2 (format_X n).

(** [_replace_map = dict((c, '%%%2X' % ord(c)) for c in _reserved)]. *)
Definition _replace_map : gmap ascii string :=
  let fix build (cs : string) (m : gmap ascii string) : gmap ascii string :=
    match cs with
    | EmptyString => m
    | String c rest => build rest (<[c := format_percent_2X (N_of_ascii c)]> m)
    end in
  build _reserved ∅.

(** [url_escape(data)]. *)
Fixpoint url_escape (data : string) : string :=
  match data with
  | EmptyString => ""
  | String c rest => default (String c "") (_replace_map !! c) +:+ url_escape rest
  end.

(** The class [[0-9a-fA-F]] and the value of one such digit. *)
Definition hex_value (c : ascii) : option N :=
  let n := N_of_ascii c in
  if Str.is_digit c then Some (n - 48)%N
  else if ((97 <=? n) && (n <=? 102))%N then Some (n - 87)%N
  else if ((65 <=? n) && (n <=? 70))%N then Some (n - 55)%N
  else None.

(** [url_unescape(data)]: [re.sub] goes through [data] from the left and
    replaces each match of [%([0-9a-fA-F]{2})] by the character whose
    code the two digits spell. *)
Fixpoint url_unescape (data : string) : string :=
  match data with
  | EmptyString => ""
  | String c rest =>
      let keep := String c (url_unescape rest) in
      if Ascii.eqb c "%" then
        match rest with
        | String h1 (String h2 rest') =>
            match hex_value h1, hex_value h2 with
            | Some v1, Some v2 =>
                String (ascii_of_N (16 * v1 + v2)) (url_unescape rest')
            | _, _ => keep
            end
        | _ => keep
        end
      else keep
  end.

(** *** What the two escapes do to one character *)

(** What [escape] makes of one character. *)
Definition escape_char (quote : bool) (c : ascii) : string :=
  if Ascii.eqb c "&" then "&amp;"
  else if Ascii.eqb c "<" then "&lt;"
  else if Ascii.eqb c ">" then "&gt;"
  else if quote && Ascii.eqb c "034" then "&quot;"
  else String c "".

(** The capital hexadecimal digit of value [d]. *)
Definition upper_hex_digit (d : N) : ascii :=
  default "?"%char (String.get (N.to_nat d) "0123456789ABCDEF").

(** A percent sign and the two capital hexadecimal digits of the code of
    [c]. *)
Definition percent_encoded (c : ascii) : string :=
  String "%" (String (upper_hex_digit (N_of_ascii c / 16))
               (String (upper_hex_digit (N_of_ascii c mod 16)) "")).

(** A character [escape] copies. *)
Definition plain_char (quote : bool) (c : ascii) : bool :=
  negb (Ascii.eqb c "&") && negb (Ascii.eqb c "<") && negb (Ascii.eqb c ">")
  && negb (quote && Ascii.eqb c "034").

End Util.

(** ** [dominate/dom_tag.py]: the tag tree *)

Module DomTag.

(** *** Values *)

(** The exceptions the code raises. *)
Inductive exn := TypeError | IndexError | KeyError | AttributeError | ValueError.

(** How a call ends: with a value, with an exception, by following an
    address that the store does not hold (no Python state does that), or
    by exhausting the recursion budget [fuel] (Python's recursion limit
    on a tree that contains itself). *)
Inductive outcome (A : Type) :=
| Ok (a : A)
| Raise (e : exn)
| Dangling
| OutOfFuel.
Arguments Ok {A} a.
Arguments Raise {A} e.
Arguments Dangling {A}.
Arguments OutOfFuel {A}.

(** A keyword argument or a value of an attribute bag:
    [Union[basestring, bool]]. *)
Inductive kw_value := KwStr (s : string) | KwBool (b : bool).

(** A stored attribute: [Union[basestring, Literal[False]]]. *)
Inductive attr_value := AttrStr (s : string) | AttrFalse.

(** An entry of [children]: [Union[dom_tag, basestring]], a tag by its
    address. *)
Inductive child := CTag (addr : nat) | CStr (s : string).

(** What [add] is given: an [int], a string, a tag (by its address), a
    mapping, another iterable, or a value of another type (one that is not
    callable: a class called with one function is a decorator, which is not
    part of this model). *)
#[warnings="-register-all"]
Inductive addable :=
| Num (n : Z)
| Text (s : string)
| Node (addr : nat)
| Dict (d : list (string * kw_value))
| Iter (l : list addable)
| Other.

(** A key of the indexing interface: an [int], a string, or a value of
    another type, of which only whether it is hashable matters. *)
Inductive key := KInt (i : Z) | KStr (s : string) | KOther (hashable : bool).

(** The value that goes with a key, after the two overloads of
    [set_attribute]. *)
Definition value_for (k : key) : Type :=
  match k with
  | KInt _ => child
  | KStr _ => attr_value
  | KOther _ => unit
  end.

(** A Python [dict] with string keys, in insertion order. *)
Definition dict (V : Type) : Type := list (string * V).

Fixpoint dict_get {V} (d : dict V) (k : string) : option V :=
  match d with
  | [] => None
  | (k', v) :: rest => if decide (k' = k) then Some v else dict_get rest k
  end.

(** [d[k] = v]: a present key keeps its place. *)
Fixpoint dict_set {V} (d : dict V) (k : string) (v : V) : dict V :=
  match d with
  | [] => [(k, v)]
  | (k', v') :: rest =>
      if decide (k' = k) then (k, v) :: rest else (k', v') :: dict_set rest k v
  end.

(** [del d[k]], for a key that is present. *)
Fixpoint dict_del {V} (d : dict V) (k : string) : dict V :=
  match d with
  | [] => []
  | (k', v') :: rest =>
      if decide (k' = k) then rest else (k', v') :: dict_del rest k
  end.

(** The class of a tag: its name, the class attribute [tagname] when the
    class defines one, and the three flags. *)
Record tag_class := {
  cls_name : string;
  cls_tagname : option string;
  cls_single : bool;
  cls_pretty : bool;
  cls_inline : bool
}.

(** An instance of [dom_tag].  [text] is set on the instances of
    [util.text], whose [_render] writes it. *)
Record dom_tag := {
  cls : tag_class;
  is_pretty : bool;
  is_inline : bool;
  attributes : dict attr_value;
  children : list child;
  parent : option nat;
  document : option nat;
  text : option string
}.

Definition with_attributes (n : dom_tag) (a : dict attr_value) : dom_tag :=
  {| cls := cls n; is_pretty := is_pretty n; is_inline := is_inline n;
     attributes := a; children := children n; parent := parent n;
     document := document n; text := text n |}.
Definition with_children (n : dom_tag) (c : list child) : dom_tag :=
  {| cls := cls n; is_pretty := is_pretty n; is_inline := is_inline n;
     attributes := attributes n; children := c; parent := parent n;
     document := document n; text := text n |}.
Definition with_parent (n : dom_tag) (p : option nat) : dom_tag :=
  {| cls := cls n; is_pretty := is_pretty n; is_inline := is_inline n;
     attributes := attributes n; children := children n; parent := p;
     document := document n; text := text n |}.
Definition with_document (n : dom_tag) (d : option nat) : dom_tag :=
  {| cls := cls n; is_pretty := is_pretty n; is_inline := is_inline n;
     attributes := attributes n; children := children n; parent := parent n;
     document := d; text := text n |}.
Definition with_text (n : dom_tag) (t : option string) : dom_tag :=
  {| cls := cls n; is_pretty := is_pretty n; is_inline := is_inline n;
     attributes := attributes n; children := children n; parent := parent n;
     document := document n; text := t |}.

(** [dom_tag.frame]: the tag of a [with] block, the tags created inside
    it and the ones already used. *)
Record frame := {
  tag : nat;
  items : list nat;
  used : gset nat
}.

(** The store: the tags, each at its address, and
    [dom_tag._with_contexts], the stacks of frames by the value of
    [_get_thread_context()].  The top of a stack is its last element. *)
Record state := {
  heap : list dom_tag;
  _with_contexts : gmap Z (list frame)
}.

Definition with_heap (st : state) (h : list dom_tag) : state :=
  {| heap := h; _with_contexts := _with_contexts st |}.
Definition with_contexts (st : state) (c : gmap Z (list frame)) : state :=
  {| heap := heap st; _with_contexts := c |}.

(** *** Calls that mutate the store and may raise *)

Definition M (A : Type) : Type := state -> outcome A * state.

#[export] Instance M_ret : MRet M := fun A a st => (Ok a, st).
#[export] Instance M_bind : MBind M := fun A B f m st =>
  match m st with
  | (Ok a, st') => f a st'
  | (Raise e, st') => (Raise e, st')
  | (Dangling, st') => (Dangling, st')
  | (OutOfFuel, st') => (OutOfFuel, st')
  end.

Definition raise {A} (e : exn) : M A := fun st => (Raise e, st).
Definition dangling {A} : M A := fun st => (Dangling, st).
Definition out_of_fuel {A} : M A := fun st => (OutOfFuel, st).

(** Read the tag at an address; write one back. *)
Definition get_tag (a : nat) : M dom_tag := fun st =>
  match heap st !! a with
  | Some n => (Ok n, st)
  | None => (Dangling, st)
  end.
Definition put_tag (a : nat) (n : dom_tag) : M unit := fun st =>
  (Ok tt, with_heap st (<[a := n]> (heap st))).
Definition update_tag (a : nat) (f : dom_tag -> dom_tag) : M unit :=
  n ← get_tag a; put_tag a (f n).

(** Read [dom_tag._with_contexts]; write it. *)
Definition get_contexts : M (gmap Z (list frame)) := fun st =>
  (Ok (_with_contexts st), st).
Definition set_contexts (c : gmap Z (list frame)) : M unit := fun st =>
  (Ok tt, with_contexts st c).

(** [for x in l: body(x)]. *)
Definition for_each {A} (l : list A) (body : A -> M unit) : M unit :=
  (fix each (l : list A) : M unit :=
     match l with
     | [] => mret tt
     | x :: rest => body x ;; each rest
     end) l.

(** *** Python lists *)

(** The position [l[i]] names in a list of length [len]. *)
Definition list_index (len : nat) (i : Z) : option nat :=
  let n := Z.of_nat len in
  if ((0 <=? i) && (i <? n))%Z then Some (Z.to_nat i)
  else if ((- n <=? i) && (i <? 0))%Z then Some (Z.to_nat (n + i))
  else None.

(** A bound of a slice, clipped as Python clips it. *)
Definition slice_bound (len : nat) (i : Z) : nat :=
  let n := Z.of_nat len in
  if (i <? 0)%Z then Z.to_nat (Z.max 0 (i + n)) else Z.to_nat (Z.min i n).

(** [del l[i:j]]. *)
Definition del_slice {A} (l : list A) (i j : Z) : list A :=
  let start := slice_bound (length l) i in
  let stop := slice_bound (length l) j in
  take start l ++ drop (start `max` stop) l.

(** The top of a stack of frames, the stack without it, and the stack
    with its top changed. *)
Definition top (stack : list frame) : option frame := last stack.
Definition pop (stack : list frame) : list frame := removelast stack.
Definition update_top (f : frame -> frame) (stack : list frame) : list frame :=
  match top stack with
  | Some fr => pop stack ++ [f fr]
  | None => stack
  end.

(** [str(n)] for an [int]. *)
Definition str_of_int (n : Z) : string :=
  DecimalString.NilZero.string_of_int (Z.to_int n).

#[export] Instance outcome_ret : MRet outcome := fun A a => Ok a.
#[export] Instance outcome_bind : MBind outcome := fun A B f m =>
  match m with
  | Ok a => f a
  | Raise e => Raise e
  | Dangling => Dangling
  | OutOfFuel => OutOfFuel
  end.

(** A computation that does not touch the store. *)
Definition lift {A} (o : outcome A) : M A := fun st => (o, st).

(** *** Attribute names: [clean_attribute] and [clean_pair] *)

Definition shorthand : gmap string string :=
  <["htmlFor" := "for"]> (<["html_for" := "for"]> (<["fr" := "for"]>
    (<["class_name" := "class"]> (<["className" := "class"]>
      (<["cls" := "class"]> ∅))))).

(** [dom_tag.clean_attribute(attribute)].  [attribute[0]] raises
    [IndexError] on the empty string. *)
Definition clean_attribute (attribute : string) : outcome string :=
  let attribute := default attribute (shorthand !! attribute) in
  match attribute with
  | EmptyString => Raise IndexError
  | String c rest =>
      let attribute := if Ascii.eqb c "_" then rest else attribute in
      let special_prefix :=
        Str.startswith attribute "data_" || Str.startswith attribute "aria_" in
      let attribute :=
        if bool_decide (attribute = "http_equiv") || special_prefix
        then Str.lower (Str.replace "_" "-" attribute)
        else attribute in
      let attribute :=
        if bool_decide (Str.split_head "_" attribute ∈ ["xlink"; "xml"; "xmlns"])
        then Str.lower (Str.replace_count "_" ":" (Some 1) attribute)
        else attribute in
      Ok attribute
  end.

(** [dom_tag.clean_pair(attribute, value)]. *)
Definition clean_pair (attribute : string) (value : kw_value)
    : outcome (string * attr_value) :=
  attribute ← clean_attribute attribute;
  let value :=
    match value with
    | KwBool true => AttrStr attribute
    | KwBool false => AttrFalse
    | KwStr s => AttrStr s
    end in
  mret (attribute, value).

(** *** The indexing interface *)

(** [set_attribute(key, value)], also [__setitem__]. *)
Definition set_attribute (self : nat) (k : key) : value_for k -> M unit :=
  match k return value_for k -> M unit with
  | KInt i => fun value =>
      n ← get_tag self;
      match list_index (length (children n)) i with
      | Some j => put_tag self (with_children n (<[j := value]> (children n)))
      | None => raise IndexError
      end
  | KStr s => fun value =>
      update_tag self (fun n => with_attributes n (dict_set (attributes n) s value))
  | KOther _ => fun _ => raise TypeError
  end.

(** [delete_attribute(key)], also [__delitem__].  A key that is not an
    [int] goes to [del self.attributes[key]]: a hashable key that is not
    there raises [KeyError], an unhashable one [TypeError]; no key other
    than a string is ever there. *)
Definition delete_attribute (self : nat) (k : key) : M unit :=
  match k with
  | KInt i =>
      update_tag self (fun n => with_children n (del_slice (children n) i (i + 1)))
  | KStr s =>
      n ← get_tag self;
      match dict_get (attributes n) s with
      | Some _ => put_tag self (with_attributes n (dict_del (attributes n) s))
      | None => raise KeyError
      end
  | KOther hashable => if hashable then raise KeyError else raise TypeError
  end.

(** [__getitem__(key)], also [__getattr__].  Indexing a list raises
    [IndexError], which the [except KeyError] clause lets through. *)
Definition __getitem__ (self : nat) (k : key) : M (child + attr_value) :=
  match k with
  | KInt i =>
      n ← get_tag self;
      match list_index (length (children n)) i ≫= (children n !!.) with
      | Some c => mret (inl c)
      | None => raise IndexError
      end
  | KStr s =>
      n ← get_tag self;
      match dict_get (attributes n) s with
      | Some v => mret (inr v)
      | None => raise AttributeError
      end
  | KOther _ => raise TypeError
  end.

(** *** Building the tree *)

(** [setdocument(doc)].  [setdocument_children] is its loop over
    [self.children], which returns at the first child that is not a tag;
    [recur] is the call [i.setdocument(doc)]. *)
Fixpoint setdocument_children (recur : nat -> M unit) (cs : list child) : M unit :=
  match cs with
  | [] => mret tt
  | CStr _ :: _ => mret tt
  | CTag i :: rest => recur i ;; setdocument_children recur rest
  end.

Fixpoint setdocument (fuel : nat) (self : nat) (doc : option nat) : M unit :=
  match fuel with
  | O => out_of_fuel
  | S fuel' =>
      n ← get_tag self;
      if decide (document n <> doc) then
        put_tag self (with_document n doc) ;;
        setdocument_children (fun i => setdocument fuel' i doc) (children n)
      else mret tt
  end.

(** [stack = dom_tag._with_contexts.get(_get_thread_context())] and, when
    [stack] is not empty, a change of [stack[-1]]. *)
Definition on_top_frame (tid : Z) (f : frame -> frame) : M unit :=
  contexts ← get_contexts;
  match contexts !! tid with
  | Some stack =>
      match top stack with
      | Some _ => set_contexts (<[tid := update_top f stack]> contexts)
      | None => mret tt
      end
  | None => mret tt
  end.

Definition mark_used (obj : nat) (fr : frame) : frame :=
  {| tag := tag fr; items := items fr; used := {[obj]} ∪ used fr |}.
Definition collect (obj : nat) (fr : frame) : frame :=
  {| tag := tag fr; items := items fr ++ [obj]; used := used fr |}.

(** The body of the loop of [add], for one [obj]. *)
Fixpoint add_obj (fuel : nat) (tid : Z) (self : nat) (obj : addable) : M unit :=
  match obj with
  | Num n =>
      update_tag self (fun t =>
        with_children t (children t ++ [CStr (Util.escape (str_of_int n) true)]))
  | Text s =>
      update_tag self (fun t =>
        with_children t (children t ++ [CStr (Util.escape s true)]))
  | Node obj =>
      on_top_frame tid (mark_used obj) ;;
      update_tag self (fun t => with_children t (children t ++ [CTag obj])) ;;
      update_tag obj (fun t => with_parent t (Some self)) ;;
      t ← get_tag self;
      setdocument fuel obj (document t)
  | Dict d =>
      for_each d (fun '(attr, value) =>
        '(k, v) ← lift (clean_pair attr value);
        set_attribute self (KStr k) v)
  | Iter l => for_each l (add_obj fuel tid self)
  | Other => raise ValueError
  end.

(** [add] with the arguments [args]: it returns the one argument when
    there is one, else all of them. *)
Definition add (fuel : nat) (tid : Z) (self : nat) (args : list addable)
    : M addable :=
  for_each args (add_obj fuel tid self) ;;
  mret (match args with
        | [arg] => arg
        | _ => Iter args
        end).

(** [_add_to_ctx()]. *)
Definition _add_to_ctx (tid : Z) (self : nat) : M unit :=
  on_top_frame tid (collect self).

(** Whether a keyword value counts as true. *)
Definition truthy (v : kw_value) : bool :=
  match v with
  | KwBool b => b
  | KwStr s => negb (bool_decide (s = ""))
  end.

(** [kwargs.pop(k, default)], read as a flag: the flag and what is left
    of [kwargs]. *)
Definition pop_flag (kwargs : dict kw_value) (k : string) (dflt : bool)
    : bool * dict kw_value :=
  match dict_get kwargs k with
  | Some v => (truthy v, dict_del kwargs k)
  | None => (dflt, kwargs)
  end.

Definition allocate (n : dom_tag) : M nat := fun st =>
  (Ok (length (heap st)), with_heap st (heap st ++ [n])).

(** A call of the class [c] with the positional arguments [args] and the
    keyword arguments [kwargs]: a new tag, set up by [__init__]. *)
Definition __init__ (fuel : nat) (tid : Z) (c : tag_class)
    (args : list addable) (kwargs : dict kw_value) : M nat :=
  let '(inline, kwargs) := pop_flag kwargs "__inline" (cls_inline c) in
  let '(pretty, kwargs) := pop_flag kwargs "__pretty" (cls_pretty c) in
  self ← allocate {| cls := c; is_pretty := pretty; is_inline := inline;
                     attributes := []; children := []; parent := None;
                     document := None; text := None |};
  match args with
  | [] => mret tt
  | _ => add fuel tid self args ;; mret tt
  end ;;
  for_each kwargs (fun '(attr, value) =>
    '(k, v) ← lift (clean_pair attr value);
    set_attribute self (KStr k) v) ;;
  _add_to_ctx tid self ;;
  mret self.

(** The class [util.text] and its constructor [text(_text, escape)]. *)
Definition text_class : tag_class :=
  {| cls_name := "text"; cls_tagname := None; cls_single := false;
     cls_pretty := false; cls_inline := true |}.

Definition text_init (fuel : nat) (tid : Z) (_text : string) (escape : bool)
    : M nat :=
  self ← __init__ fuel tid text_class [] [];
  update_tag self (fun n =>
    with_text n (Some (if escape then Util.escape _text true else _text))) ;;
  mret self.

(** *** Scoped construction *)

(** [__enter__()]. *)
Definition __enter__ (tid : Z) (self : nat) : M nat :=
  contexts ← get_contexts;
  let stack := default [] (contexts !! tid) in
  set_contexts
    (<[tid := stack ++ [{| tag := self; items := []; used := ∅ |}]]> contexts) ;;
  mret self.

(** [__exit__(type, value, traceback)].  Reading
    [dom_tag._with_contexts[thread_id]] creates the entry when it is not
    there, and [stack.pop()] raises [IndexError] on an empty stack. *)
Definition __exit__ (fuel : nat) (tid : Z) (self : nat) : M unit :=
  contexts ← get_contexts;
  let stack := default [] (contexts !! tid) in
  match top stack with
  | None => set_contexts (<[tid := stack]> contexts) ;; raise IndexError
  | Some fr =>
      set_contexts (<[tid := pop stack]> contexts) ;;
      for_each (items fr) (fun item =>
        if bool_decide (item ∈ used fr) then mret tt
        else add fuel tid self [Node item] ;; mret tt) ;;
      if bool_decide (pop stack = [])
      then contexts ← get_contexts; set_contexts (delete tid contexts)
      else mret tt
  end.

(** [get_current(default)]; [None] stands for the default value
    [_get_current_none] of the parameter. *)
Definition get_current {A} (tid : Z) (dflt : option A) (st : state)
    : outcome (nat + A) :=
  let ctx := _with_contexts st !! tid in
  match ctx ≫= top with
  | Some fr => Ok (inl (tag fr))
  | None =>
      match dflt with
      | None => Raise ValueError
      | Some d => Ok (inr d)
      end
  end.

(** *** Rendering *)

Definition newline : string := String "010" "".
Definition quotation : string := String "034" "".

(** Items of a dictionary compare by their keys, which differ. *)
Definition item_le : relation (string * attr_value) :=
  fun a b => String.le a.1 b.1.
#[export] Instance item_le_dec : RelDecision item_le.
Proof. intros a b. unfold item_le. apply _. Defined.

(** [sorted(self.attributes.items())]. *)
Definition sorted_items (d : dict attr_value) : list (string * attr_value) :=
  merge_sort item_le d.

(** The attributes the loop of [_render] writes: those whose value is not
    [False], with the text of the value. *)
Definition written_attributes (d : dict attr_value) : list (string * string) :=
  omap (fun '(attribute, value) =>
          match value with
          | AttrStr s => Some (attribute, s)
          | AttrFalse => None
          end) (sorted_items d).

(** [' %s="%s"' % (attribute, escape(unicode(value), True))]. *)
Definition attribute_text (item : string * string) : string :=
  " " +:+ item.1 +:+ "=" +:+ quotation +:+ Util.escape item.2 true +:+ quotation.

(** The name [_render] writes: [getattr(self, 'tagname',
    type(self).__name__)] finds the class attribute [tagname], else
    (through [__getattr__]) the attribute of that name, else the name of
    the class; a final underscore is dropped. *)
Definition tag_name (n : dom_tag) : outcome string :=
  name ← match cls_tagname (cls n) with
         | Some t => Ok t
         | None =>
             match dict_get (attributes n) "tagname" with
             | Some (AttrStr s) => Ok s
             | Some AttrFalse => Raise TypeError
             | None => Ok (cls_name (cls n))
             end
         end;
  match Str.last name with
  | None => Raise IndexError
  | Some c => Ok (if Ascii.eqb c "_" then Str.init name else name)
  end.

(** [_render_children(sb, indent_level, indent_str, pretty, xhtml)]:
    the loop over [self.children], here [cs], with [inline] and [sb] as they
    stand; [render_child] is the call [child._render(sb, indent_level,
    indent_str, pretty, xhtml)]. *)
Fixpoint _render_children (render_child : nat -> list string -> outcome (list string))
    (h : list dom_tag) (cs : list child) (inline : bool) (sb : list string)
    (indent_level : nat) (indent_str : string) (pretty : bool)
    : outcome (bool * list string) :=
  match cs with
  | [] => Ok (inline, sb)
  | CTag c :: rest =>
      match h !! c with
      | None => Dangling
      | Some cn =>
          let '(inline, sb) :=
            if pretty && negb (is_inline cn)
            then (false, sb ++ [newline; Str.repeat indent_str indent_level])
            else (inline, sb) in
          sb ← render_child c sb;
          _render_children render_child h rest inline sb indent_level indent_str pretty
      end
  | CStr s :: rest =>
      _render_children render_child h rest inline (sb ++ [s]) indent_level indent_str pretty
  end.

(** [_render(sb, indent_level, indent_str, pretty, xhtml)]; the result is
    [sb] after the appends.  A [util.text] writes its text instead. *)
Fixpoint _render (fuel : nat) (h : list dom_tag) (self : nat) (sb : list string)
    (indent_level : nat) (indent_str : string) (pretty xhtml : bool)
    : outcome (list string) :=
  match fuel with
  | O => OutOfFuel
  | S fuel' =>
      match h !! self with
      | None => Dangling
      | Some n =>
          match text n with
          | Some t => Ok (sb ++ [t])
          | None =>
              let pretty := pretty && is_pretty n in
              name ← tag_name n;
              let sb := sb ++ ["<"; name] in
              let sb := sb ++ (attribute_text <$> written_attributes (attributes n)) in
              let sb := sb ++ [if cls_single (cls n) && xhtml then " />" else ">"] in
              if cls_single (cls n) then Ok sb
              else
                '(inline, sb) ←
                  _render_children
                    (fun c sb => _render fuel' h c sb (S indent_level) indent_str pretty xhtml)
                    h (children n) true sb (S indent_level) indent_str pretty;
                let sb :=
                  if pretty && negb inline
                  then sb ++ [newline; Str.repeat indent_str indent_level]
                  else sb in
                Ok (sb ++ ["</"; name; ">"])
          end
      end
  end.

(** [render(indent, pretty, xhtml)]. *)
Definition render (fuel : nat) (st : state) (self : nat)
    (indent : string) (pretty xhtml : bool) : outcome string :=
  data ← _render fuel (heap st) self [] 0 indent pretty xhtml;
  mret (Str.join data).

(** The store before anything is built. *)
Definition initial : state := {| heap := []; _with_contexts := ∅ |}.

(** *** The trees of the examples *)

(** A subclass of [dom_tag] that only has a name: the flags are the
    defaults [is_single = False], [is_pretty = True], [is_inline = False]. *)
Definition plain_class (name : string) : tag_class :=
  {| cls_name := name; cls_tagname := None; cls_single := false;
     cls_pretty := true; cls_inline := false |}.

(** [div(p("hello"), span("world", cls="hi"))]: Python evaluates the
    arguments first, from the left. *)
Definition div_p_span (fuel : nat) (tid : Z) : M nat :=
  p ← __init__ fuel tid (plain_class "p") [Text "hello"] [];
  span ← __init__ fuel tid (plain_class "span") [Text "world"] [("cls", KwStr "hi")];
  __init__ fuel tid (plain_class "div") [Node p; Node span] [].

(** The frames open for [tid]: none when [dom_tag._with_contexts] has no
    entry for it. *)
Definition open_frames (st : state) (tid : Z) : list frame :=
  default [] (_with_contexts st !! tid).

(** A store with one tag of class [div] that has no child and no
    attribute, and no open frame. *)
Definition bare_div : dom_tag :=
  {| cls := plain_class "div"; is_pretty := true; is_inline := false;
     attributes := []; children := []; parent := None;
     document := None; text := None |}.
Definition lone_div : state := {| heap := [bare_div]; _with_contexts := ∅ |}.

(** [d = html(); d.setdocument(d); p_ = p("text", b()); d.add(p_)]: a
    root that has a document, and a child whose own children are a string
    and then a tag.  The result is the addresses of [d], of the [b] and of
    the [p]. *)
Definition tag_after_text (fuel : nat) (tid : Z) : M (nat * nat * nat) :=
  d ← __init__ fuel tid (plain_class "html") [] [];
  setdocument fuel d (Some d) ;;
  b ← __init__ fuel tid (plain_class "b") [] [];
  p ← __init__ fuel tid (plain_class "p") [Text "text"; Node b] [];
  add fuel tid d [Node p] ;;
  mret (d, b, p).

(** The [document] of the tag at an address. *)
Definition document_of (st : state) (a : nat) : option (option nat) :=
  document <$> heap st !! a.

(** The dictionary that a sequence of assignments [d[k] = v] builds from
    the empty one. *)
Definition insertions (ops : list (string * attr_value)) : dict attr_value :=
  foldl (fun d kv => dict_set d kv.1 kv.2) [] ops.

(** Names in ascending order: each is below all the later ones. *)
Definition ascending (names : list string) : Prop :=
  StronglySorted (fun a b => String.ltb a b = true) names.

(** *** What a construction without tag arguments builds *)

(** A positional argument that is a string or a number. *)
Definition text_like (obj : addable) : Prop :=
  match obj with
  | Num _ | Text _ => True
  | _ => False
  end.

(** The children [add] appends for such arguments. *)
Definition text_children (args : list addable) : list child :=
  omap (fun obj =>
          match obj with
          | Num n => Some (CStr (Util.escape (str_of_int n) true))
          | Text s => Some (CStr (Util.escape s true))
          | _ => None
          end) args.

(** The pairs [clean_pair] makes of keyword arguments. *)
Definition cleaned (kwargs : dict kw_value) : list (string * attr_value) :=
  omap (fun '(attr, value) =>
          match clean_pair attr value with
          | Ok cleaned_pair => Some cleaned_pair
          | _ => None
          end) kwargs.

(** The tag a call of class [c] builds from text-like arguments [args] and
    keyword arguments [kwargs]. *)
Definition built (c : tag_class) (args : list addable) (kwargs : dict kw_value)
    : dom_tag :=
  let '(inline, kwargs) := pop_flag kwargs "__inline" (cls_inline c) in
  let '(pretty, kwargs) := pop_flag kwargs "__pretty" (cls_pretty c) in
  {| cls := c; is_pretty := pretty; is_inline := inline;
     attributes := insertions (cleaned kwargs); children := text_children args;
     parent := None; document := None; text := None |}.

(** [dom_tag._with_contexts] after the top frame of [tid], when there is
    one, has been changed by [f]. *)
Definition on_top (tid : Z) (f : frame -> frame) (contexts : gmap Z (list frame))
    : gmap Z (list frame) :=
  match contexts !! tid with
  | Some stack =>
      match top stack with
      | Some _ => <[tid := update_top f stack]> contexts
      | None => contexts
      end
  | None => contexts
  end.

(** *** Scoped construction of three siblings *)

(** The children of every tag of the store, by address. *)
Definition kids (st : state) : list (list child) := children <$> heap st.

(** Every tag among the children of a tag is in the store. *)
Definition closed (st : state) : Prop :=
  forall (i : nat) (cs : list child) (c : nat),
    kids st !! i = Some cs -> CTag c ∈ cs -> c < length (heap st).

(** A call of a class: the class and the arguments. *)
Record construction := {
  c_cls : tag_class;
  c_args : list addable;
  c_kwargs : dict kw_value
}.

Definition construct (fuel : nat) (tid : Z) (k : construction) : M nat :=
  __init__ fuel tid (c_cls k) (c_args k) (c_kwargs k).

(** A construction of a tag on its own: the positional arguments are
    strings and numbers, and every keyword has a name. *)
Definition plain (k : construction) : Prop :=
  Forall text_like (c_args k) /\ Forall (fun kv => kv.1 <> "") (c_kwargs k).

(** [with P: a = ka(); b = kb(); c = kc()]. *)
Definition scoped_three (fuel : nat) (tid : Z) (P : nat) (ka kb kc : construction)
    : M (nat * nat * nat) :=
  __enter__ tid P ;;
  a ← construct fuel tid ka;
  b ← construct fuel tid kb;
  c ← construct fuel tid kc;
  __exit__ fuel tid P ;;
  mret (a, b, c).

(** [with P: a = ka(); b = kb(); c = kc(); Q.add(x)], where [x] is the
    first, second or third of the new tags as [which] is 0, 1 or 2. *)
Definition scoped_three_add (fuel : nat) (tid : Z) (P : nat) (ka kb kc : construction)
    (which : nat) (Q : nat) : M (nat * nat * nat) :=
  __enter__ tid P ;;
  a ← construct fuel tid ka;
  b ← construct fuel tid kb;
  c ← construct fuel tid kc;
  add fuel tid Q [Node (nth which [a; b; c] a)] ;;
  __exit__ fuel tid P ;;
  mret (a, b, c).

(** A tag at most [k] levels deep: what bounds the recursion of
    [setdocument] under it. *)
Fixpoint shallow (k : nat) (ks : list (list child)) (a : nat) : Prop :=
  match k with
  | O => False
  | S k' =>
      exists cs, ks !! a = Some cs /\ forall c, CTag c ∈ cs -> shallow k' ks c
  end.

(** A tag other than [P] whose children are strings and tags that have
    only strings for children, none of them [P]. *)
Definition settled (ks : list (list child)) (P a : nat) : Prop :=
  a <> P /\
  exists cs, ks !! a = Some cs /\
    forall c, CTag c ∈ cs ->
      c <> P /\ exists cs', ks !! c = Some cs' /\ forall c', CTag c' ∉ cs'.

(** The call [p("x")]. *)
Definition p_x : construction :=
  {| c_cls := plain_class "p"; c_args := [Text "x"]; c_kwargs := [] |}.

(** A tag [_render] can write within [k] nested calls: it is in the
    store and, unless it is a [util.text], it has a name to write and,
    unless its class is single, its children that are tags are such tags
    for [k - 1] calls.  No tag is then below itself. *)
Fixpoint renderable (k : nat) (h : list dom_tag) (a : nat) : Prop :=
  match k with
  | O => False
  | S k' =>
      exists n, h !! a = Some n /\
        (text n = None ->
         (exists name, tag_name n = Ok name) /\
         (cls_single (cls n) = false ->
          forall c, CTag c ∈ children n -> renderable k' h c))
  end.

(** *** The other methods of [dom_tag] *)

(** [add_raw_string(s)]. *)
Definition add_raw_string (self : nat) (s : string) : M unit :=
  update_tag self (fun t => with_children t (children t ++ [CStr s])).

(** Python's [==] on entries of [children]: strings by their text, tags by
    identity ([dom_tag] defines no [__eq__]). *)
#[export] Instance child_eq_dec : EqDecision child.
Proof. solve_decision. Defined.

(** [l.remove(obj)]: the list without the first entry equal to [obj];
    [None] when there is none, where Python raises [ValueError]. *)
Fixpoint list_remove (obj : child) (l : list child) : option (list child) :=
  match l with
  | [] => None
  | x :: rest =>
      if decide (x = obj) then Some rest
      else cons x <$> list_remove obj rest
  end.

(** [remove(obj)]. *)
Definition remove (self : nat) (obj : child) : M unit :=
  n ← get_tag self;
  match list_remove obj (children n) with
  | Some cs => put_tag self (with_children n cs)
  | None => raise ValueError
  end.

(** [clear()]. *)
Definition clear (self : nat) : M unit :=
  n ← get_tag self;
  for_each (children n) (fun i =>
    match i with
    | CTag c =>
        t ← get_tag c;
        if decide (parent t = Some self) then put_tag c (with_parent t None)
        else mret tt
    | CStr _ => mret tt
    end) ;;
  update_tag self (fun t => with_children t []).

(** [__len__()]. *)
Definition __len__ (self : nat) : M nat :=
  n ← get_tag self; mret (length (children n)).

(** The argument [tag] of [get]: a string, compared with the name of the
    type of a child, or a type, tested with [isinstance]; a type is given
    by what it accepts: strings or not, and which classes of tags. *)
Inductive tag_argument :=
| TagName (name : string)
| TagType (accepts_str : bool) (accepts : tag_class -> bool).

(** [dom_tag], the default of [tag], and [basestring]. *)
Definition dom_tag_type : tag_argument := TagType false (fun _ => true).
Definition basestring_type : tag_argument := TagType true (fun _ => false).

(** [child.attributes.get(attribute) == value]. *)
Definition attribute_equals (stored : option attr_value) (value : kw_value) : bool :=
  match stored, value with
  | Some (AttrStr s), KwStr s' => bool_decide (s = s')
  | Some AttrFalse, KwBool false => true
  | _, _ => false
  end.

(** [[(clean_attribute(attr), value) for attr, value in kwargs.items()]]. *)
Fixpoint clean_names (kwargs : dict kw_value) : outcome (list (string * kw_value)) :=
  match kwargs with
  | [] => Ok []
  | (attr, value) :: rest =>
      attribute ← clean_attribute attr;
      more ← clean_names rest;
      mret ((attribute, value) :: more)
  end.

(** The first test of the loop of [get] on a child: its type against
    [tag]; the name of the type of a string is [str]. *)
Definition type_matches (tag : tag_argument) (child_class : option tag_class) : bool :=
  match tag, child_class with
  | TagName name, Some c => bool_decide (cls_name c = name)
  | TagName name, None => bool_decide ("str" = name)
  | TagType _ accepts, Some c => accepts c
  | TagType accepts_str _, None => accepts_str
  end.

(** The loop of [get] over [self.children], here [cs]; [recur] is the call
    [child.get(tag, **kwargs)].  The result is what the loop appends to
    [results]. *)
Fixpoint get_children (recur : nat -> outcome (list child)) (h : list dom_tag)
    (tag : tag_argument) (attrs : list (string * kw_value)) (cs : list child)
    : outcome (list child) :=
  match cs with
  | [] => Ok []
  | CStr s :: rest =>
      more ← get_children recur h tag attrs rest;
      mret ((if type_matches tag None then [CStr s] else []) ++ more)
  | CTag c :: rest =>
      match h !! c with
      | None => Dangling
      | Some cn =>
          let hit :=
            if type_matches tag (Some (cls cn)) &&
               forallb (fun '(attribute, value) =>
                          attribute_equals (dict_get (attributes cn) attribute) value)
                 attrs
            then [CTag c] else [] in
          below ← recur c;
          more ← get_children recur h tag attrs rest;
          mret (hit ++ below ++ more)
      end
  end.

(** [get(tag, **kwargs)]. *)
Fixpoint get (fuel : nat) (h : list dom_tag) (self : nat) (tag : tag_argument)
    (kwargs : dict kw_value) : outcome (list child) :=
  match fuel with
  | O => OutOfFuel
  | S fuel' =>
      match h !! self with
      | None => Dangling
      | Some n =>
          attrs ← clean_names kwargs;
          get_children (fun c => get fuel' h c tag kwargs) h tag attrs (children n)
      end
  end.

(** [__contains__(item)]. *)
Definition __contains__ (fuel : nat) (h : list dom_tag) (self : nat)
    (item : tag_argument) : outcome bool :=
  results ← get fuel h self item [];
  mret (negb (bool_decide (results = []))).

(** The function [attr] of the module: the dictionaries [args] and then
    the keyword arguments [kwargs] are assigned to the current tag. *)
Definition attr (tid : Z) (args : list (dict kw_value)) (kwargs : dict kw_value)
    : M unit :=
  fun st =>
    match get_current (A := Empty_set) tid None st with
    | Ok (inl c) =>
        for_each (args ++ [kwargs]) (fun d =>
          for_each d (fun '(attr, value) =>
            '(k, v) ← lift (clean_pair attr value);
            set_attribute c (KStr k) v)) st
    | Ok (inr e) => match e with end
    | Raise e => (Raise e, st)
    | Dangling => (Dangling, st)
    | OutOfFuel => (OutOfFuel, st)
    end.

(** [raw(s)], of [util.py]. *)
Definition raw (fuel : nat) (tid : Z) (s : string) : M nat :=
  text_init fuel tid s false.

(** What [add] does with an argument, iterables opened up: the strings,
    numbers, tags, mappings and other values it comes to, in order. *)
Fixpoint flatten (obj : addable) : list addable :=
  match obj with
  | Iter l => concat (map flatten l)
  | _ => [obj]
  end.

(** What [get] asks of a result: a string is of the type asked for; a tag
    is of that type and has every attribute of [attrs] with its value. *)
Definition matches (h : list dom_tag) (tag : tag_argument)
    (attrs : list (string * kw_value)) (x : child) : Prop :=
  match x with
  | CStr _ => type_matches tag None = true
  | CTag c =>
      exists cn, h !! c = Some cn /\
        type_matches tag (Some (cls cn)) = true /\
        Forall (fun '(attribute, value) =>
                  attribute_equals (dict_get (attributes cn) attribute) value = true)
          attrs
  end.

(** The entries below a tag: its children, and the entries below its
    children that are tags. *)
Inductive below (h : list dom_tag) : nat -> child -> Prop :=
| below_child (a : nat) (n : dom_tag) (x : child) :
    h !! a = Some n -> x ∈ children n -> below h a x
| below_deeper (a c : nat) (n : dom_tag) (x : child) :
    h !! a = Some n -> CTag c ∈ children n -> below h c x -> below h a x.

(** [div(p("x", selected=True), "t")] as it stands in the store. *)
Definition div_with_p : list dom_tag :=
  [ with_children bare_div [CTag 1; CStr "t"];
    {| cls := plain_class "p"; is_pretty := true; is_inline := false;
       attributes := [("selected", AttrStr "selected")]; children := [CStr "x"];
       parent := Some 0; document := None; text := None |} ].

(** The tag [t] at the address [a] once the loop of [self.clear()] has
    gone over the children [cs]: a tag among them whose parent is [self]
    has lost it.  [cleared]: the same tag when [clear] is done. *)
Definition orphaned (self : nat) (cs : list child) (a : nat) (t : dom_tag) : dom_tag :=
  if bool_decide (CTag a ∈ cs /\ parent t = Some self) then with_parent t None else t.
Definition cleared (self : nat) (cs : list child) (a : nat) (t : dom_tag) : dom_tag :=
  let t := orphaned self cs a t in
  if bool_decide (a = self) then with_children t [] else t.

(** A store [st'] that differs from [st] at most in that some tags have
    got the document [doc]. *)
Definition documents_only (doc : option nat) (st st' : state) : Prop :=
  _with_contexts st' = _with_contexts st /\
  length (heap st') = length (heap st) /\
  forall a t, heap st !! a = Some t ->
    heap st' !! a = Some t \/ heap st' !! a = Some (with_document t doc).

(** A call that leaves the frames of the thread [other] alone. *)
Definition keeps (other : Z) {A} (m : M A) : Prop :=
  forall st, _with_contexts (m st).2 !! other = _with_contexts st !! other.

End DomTag.

Example escape_example :
  Util.escape ("<a href=" +:+ String "034" "x" +:+ String "034" ">&") true
  = "&lt;a href=&quot;x&quot;&gt;&amp;".
Proof. reflexivity. Qed.

Example unescape_example :
  Util.unescape "a &lt; b &#38;&foo; &; c" = Some "a < b &? &; c".
Proof. reflexivity. Qed.

(** ** Facts about the escaping helpers *)

Section EscapeFacts.

Lemma append_assoc (a b c : string) : (a +:+ b) +:+ c = a +:+ (b +:+ c).
Proof. induction a as [|x a IH]; simpl; [done|]. by rewrite IH. Qed.

Lemma append_nil_r (a : string) : a +:+ "" = a.
Proof. induction a as [|x a IH]; simpl; [done|]. by rewrite IH. Qed.

Lemma join_app (l1 l2 : list string) :
  Str.join (l1 ++ l2) = Str.join l1 +:+ Str.join l2.
Proof.
  induction l1 as [|x l1 IH]; simpl; [done|].
  by rewrite IH, append_assoc.
Qed.

Lemma replace_app (old : ascii) (new a b : string) :
  Str.replace old new (a +:+ b) = Str.replace old new a +:+ Str.replace old new b.
Proof.
  unfold Str.replace. induction a as [|x a IH]; simpl; [done|].
  destruct (Ascii.eqb x old); simpl; rewrite IH; [|done].
  by rewrite append_assoc.
Qed.

(** The four passes of [escape] amount to one pass, character by
    character: no pass touches what an earlier one wrote. *)
Lemma escape_cons (quote : bool) (c : ascii) (s : string) :
  Util.escape (String c s) quote = Util.escape_char quote c +:+ Util.escape s quote.
Proof.
  change (String c s) with (String c "" +:+ s).
  unfold Util.escape. rewrite !replace_app.
  destruct quote; rewrite ?replace_app; f_equal;
    unfold Util.escape_char;
    destruct (Ascii.eqb_spec c "&") as [->|?]; [done| |done|];
    destruct (Ascii.eqb_spec c "<") as [->|?]; [done| |done|];
    destruct (Ascii.eqb_spec c ">") as [->|?]; [done| |done|];
    unfold Str.replace; simpl;
    repeat match goal with
           | |- context [Ascii.eqb c ?x] =>
               destruct (Ascii.eqb_spec c x) as [->|?]; simpl; try done
           end.
Qed.

Lemma unescape_loop_unfold result data :
  Util.unescape_loop result data =
  match Util.search data with
  | Some (pre, e, tl) =>
      match Util.entity_code e ≫= Util.unichr with
      | Some ch => Util.unescape_loop (result ++ [pre; ch]) tl
      | None => None
      end
  | None => Some (result ++ [data])
  end.
Proof.
  funelim (Util.unescape_loop result data); by rewrite Hm.
Qed.

(** The pieces collected before the loop is entered only prefix its
    result. *)
Lemma unescape_loop_result result data :
  Str.join <$> Util.unescape_loop result data =
  (fun s => Str.join result +:+ s) <$> Util.unescape data.
Proof.
  unfold Util.unescape.
  remember (String.length data) as n eqn:Hn.
  revert result data Hn.
  induction (lt_wf n) as [n _ IH]; intros result data ->.
  rewrite (unescape_loop_unfold result), (unescape_loop_unfold []).
  destruct (Util.search data) as [[[pre e] tl]|] eqn:Hs; simpl.
  - destruct (Util.entity_code e ≫= Util.unichr) as [ch|]; [|done].
    pose proof (Util.search_shorter _ _ _ _ Hs) as Hlt.
    rewrite (IH _ Hlt (result ++ [pre; ch]) tl eq_refl).
    rewrite (IH _ Hlt [pre; ch] tl eq_refl).
    destruct (Str.join <$> Util.unescape_loop [] tl) as [r|]; simpl; [|done].
    by rewrite join_app, append_assoc.
  - by rewrite join_app.
Qed.

(** [unescape], one match of the pattern at a time. *)
Lemma unescape_unfold data :
  Util.unescape data =
  match Util.search data with
  | Some (pre, e, tl) =>
      ch ← Util.entity_code e ≫= Util.unichr;
      (fun s => pre +:+ ch +:+ s) <$> Util.unescape tl
  | None => Some data
  end.
Proof.
  unfold Util.unescape at 1. rewrite unescape_loop_unfold.
  destruct (Util.search data) as [[[pre e] tl]|]; simpl.
  - destruct (Util.entity_code e ≫= Util.unichr) as [ch|]; simpl; [|done].
    rewrite unescape_loop_result. simpl.
    destruct (Util.unescape tl); simpl; [|done].
    by rewrite append_nil_r, append_assoc.
  - by rewrite append_nil_r.
Qed.

Lemma unescape_cons_plain (c : ascii) (data : string) :
  c <> "&"%char ->
  Util.unescape (String c data) = String c <$> Util.unescape data.
Proof.
  intros Hc.
  rewrite (unescape_unfold (String c data)), (unescape_unfold data). simpl.
  destruct (Ascii.eqb_spec c "&") as [?|_]; [done|].
  destruct (Util.search data) as [[[pre e] tl]|]; simpl; [|done].
  destruct (Util.entity_code e ≫= Util.unichr); simpl; [|done].
  by destruct (Util.unescape tl).
Qed.

Lemma unescape_entity (nm : string) (code : N) (data : string) :
  Util.match_entity (nm +:+ String ";" data) = Some (Util.Named nm, data) ->
  Util._unescape !! nm = Some code ->
  (code < 256)%N ->
  Util.unescape (String "&" (nm +:+ String ";" data))
  = String (ascii_of_N code) <$> Util.unescape data.
Proof.
  intros Hm Hc Hlt.
  rewrite (unescape_unfold (String "&" _)). simpl Util.search. rewrite Hm.
  simpl. rewrite Hc. simpl. unfold Util.unichr.
  apply N.ltb_lt in Hlt. rewrite Hlt. simpl.
  by destruct (Util.unescape data).
Qed.

Lemma unescape_escape_char (quote : bool) (c : ascii) (data : string) :
  Util.unescape (Util.escape_char quote c +:+ data) = String c <$> Util.unescape data.
Proof.
  unfold Util.escape_char.
  destruct (Ascii.eqb_spec c "&") as [->|Hamp].
  { by apply (unescape_entity "amp" 38%N). }
  destruct (Ascii.eqb_spec c "<") as [->|Hlt].
  { by apply (unescape_entity "lt" 60%N). }
  destruct (Ascii.eqb_spec c ">") as [->|Hgt].
  { by apply (unescape_entity "gt" 62%N). }
  destruct (quote && Ascii.eqb c "034") eqn:Hq.
  { apply andb_true_iff in Hq as [_ Hq]. apply Ascii.eqb_eq in Hq as ->.
    by apply (unescape_entity "quot" 34%N). }
  by apply unescape_cons_plain.
Qed.

End EscapeFacts.

(** C5.  [escape] replaces [&], [<], [>] and, when [quote] is set, the
    quotation mark by their entities, character by character, and
    [unescape(escape(s))] is [s].  The round trip holds for every string of
    the model and for both values of [quote], so in particular for the
    strings the specification restricts it to: every ampersand of
    [escape(s)] starts one of the four entities [escape] writes, and
    [unescape] maps each back to its character. *)
Theorem unescape_escape_roundtrip (s : string) (quote : bool) :
  (forall (c : ascii) (t : string),
     Util.escape (String c t) quote = Util.escape_char quote c +:+ Util.escape t quote) /\
  Util.unescape (Util.escape s quote) = Some s.
Proof.
  split; [intros c t; apply escape_cons|].
  induction s as [|c s IH].
  - by destruct quote.
  - rewrite escape_cons, unescape_escape_char, IH. done.
Qed.

Example url_escape_example :
  Util.url_escape "a b/c?d=e&f" = "a%20b%2Fc%3Fd%3De%26f".
Proof. vm_compute. reflexivity. Qed.

Example url_unescape_example :
  Util.url_unescape "a%20b%2fc%3Fd%zz%4" = "a b/c?d%zz%4".
Proof. vm_compute. reflexivity. Qed.

Section UrlFacts.

Lemma url_escape_cons (c : ascii) (s : string) :
  Util.url_escape (String c s) = Util.url_escape (String c "") +:+ Util.url_escape s.
Proof. simpl. by rewrite append_nil_r. Qed.

Lemma url_escape_char (c : ascii) :
  Util.url_escape (String c "") =
  if Str.mem c ";/?:@&=+$, " then Util.percent_encoded c else String c "".
Proof. destruct c as [[] [] [] [] [] [] [] []]; vm_compute; reflexivity. Qed.

Lemma url_unescape_percent_encoded (c : ascii) (rest : string) :
  Util.url_unescape (Util.percent_encoded c +:+ rest) = String c (Util.url_unescape rest).
Proof. destruct c as [[] [] [] [] [] [] [] []]; reflexivity. Qed.

Lemma url_unescape_cons_plain (c : ascii) (rest : string) :
  c <> "%"%char ->
  Util.url_unescape (String c rest) = String c (Util.url_unescape rest).
Proof.
  intros Hc. simpl. by destruct (Ascii.eqb_spec c "%").
Qed.

End UrlFacts.

(** C10.  [url_escape] replaces each of the reserved characters
    [; / ? : @ & = + $ ,] and the space by a percent sign and the two capital
    hexadecimal digits of its code and copies every other character, and
    [url_unescape(url_escape(s))] is [s] for every [s] that has no percent
    sign. *)
Theorem url_unescape_url_escape (s : string) :
  Str.mem "%" s = false ->
  (forall c : ascii,
     Util.url_escape (String c "") =
     if Str.mem c ";/?:@&=+$, " then Util.percent_encoded c else String c "") /\
  (forall a b : string,
     Util.url_escape (a +:+ b) = Util.url_escape a +:+ Util.url_escape b) /\
  Util.url_unescape (Util.url_escape s) = s.
Proof.
  intros Hs. split; [exact url_escape_char|]. split.
  - intros a b. induction a as [|c a IH]; [done|].
    change (String c a +:+ b) with (String c (a +:+ b)).
    rewrite (url_escape_cons c (a +:+ b)), (url_escape_cons c a), IH.
    by rewrite append_assoc.
  - induction s as [|c s IH]; [done|].
    simpl in Hs. apply orb_false_iff in Hs as [Hc Hs].
    rewrite url_escape_cons, url_escape_char.
    destruct (Str.mem c ";/?:@&=+$, ").
    + by rewrite url_unescape_percent_encoded, IH.
    + change (String c "" +:+ Util.url_escape s) with (String c (Util.url_escape s)).
      rewrite url_unescape_cons_plain, IH; [done..|].
      intros ->. done.
Qed.

(** The round trip on a string that holds every reserved character. *)
Lemma url_unescape_url_escape_witness :
  Str.mem "%" "a;b/c?d:e@f&g=h+i$j,k l" = false /\
  Util.url_unescape (Util.url_escape "a;b/c?d:e@f&g=h+i$j,k l")
  = "a;b/c?d:e@f&g=h+i$j,k l".
Proof.
  split; [reflexivity|].
  apply (url_unescape_url_escape "a;b/c?d:e@f&g=h+i$j,k l"). reflexivity.
Defined.

(** ** The renderer *)

Import DomTag.

(** C1.  With classes [div], [p] and [span] that have the default flags,
    the tree built by [div(p("hello"), span("world", cls="hi"))] renders,
    with [indent] two spaces, [pretty=True] and [xhtml=False], as the four
    lines of the specification: [<div>], the two children indented by two
    spaces, [</div>]. *)
Theorem render_div_p_span (tid : Z) (fuel : nat) :
  2 <= fuel ->
  exists (d : nat) (st : state),
    div_p_span fuel tid initial = (Ok d, st) /\
    render fuel st d "  " true false =
    Ok ("<div>" +:+ newline +:+
        "  <p>hello</p>" +:+ newline +:+
        "  <span class=" +:+ quotation +:+ "hi" +:+ quotation +:+ ">world</span>"
        +:+ newline +:+ "</div>").
Proof.
  intros Hfuel.
  do 2 (destruct fuel as [|fuel]; [lia|]).
  eexists _, _. split; vm_compute; reflexivity.
Qed.

Lemma render_div_p_span_witness :
  2 <= 2 /\
  exists (d : nat) (st : state),
    div_p_span 2 0 initial = (Ok d, st) /\
    render 2 st d "  " true false =
    Ok ("<div>" +:+ newline +:+
        "  <p>hello</p>" +:+ newline +:+
        "  <span class=" +:+ quotation +:+ "hi" +:+ quotation +:+ ">world</span>"
        +:+ newline +:+ "</div>").
Proof. split; [lia | apply (render_div_p_span 0 2); lia]. Defined.

(** ** The indexing interface and the current context *)

Section Indexing.

Lemma with_children_id (n : dom_tag) : with_children n (children n) = n.
Proof. by destruct n. Qed.

Lemma with_heap_id (st : state) : with_heap st (heap st) = st.
Proof. by destruct st. Qed.

Lemma get_tag_ok (st : state) (a : nat) (n : dom_tag) :
  heap st !! a = Some n -> get_tag a st = (Ok n, st).
Proof. intros H. unfold get_tag. by rewrite H. Qed.

Lemma update_tag_ok (st : state) (a : nat) (n : dom_tag) (f : dom_tag -> dom_tag) :
  heap st !! a = Some n ->
  update_tag a f st = (Ok tt, with_heap st (<[a := f n]> (heap st))).
Proof.
  intros H. unfold update_tag, mbind, M_bind. by rewrite (get_tag_ok _ _ _ H).
Qed.

(** An index that names no element leaves the slice [l[i:i+1]] empty. *)
Lemma del_slice_absent {A} (l : list A) (i : Z) :
  list_index (length l) i = None -> del_slice l i (i + 1) = l.
Proof.
  unfold list_index, del_slice, slice_bound.
  set (n := Z.of_nat (length l)). intros H.
  assert (n <= i \/ i < - n)%Z as Hi.
  { destruct (Z.leb_spec 0 i), (Z.ltb_spec i n); simpl in H; try done; try lia.
    destruct (Z.leb_spec (- n) i), (Z.ltb_spec i 0); simpl in H; try done; lia. }
  assert (0 <= n)%Z as Hn by (unfold n; lia).
  destruct Hi as [Hi|Hi].
  - destruct (Z.ltb_spec i 0); [lia|]. destruct (Z.ltb_spec (i + 1) 0); [lia|].
    rewrite !Z.min_r by lia. unfold n. rewrite !Nat2Z.id, Nat.max_id.
    by rewrite take_drop.
  - destruct (Z.ltb_spec i 0); [|lia].
    rewrite Z.max_l by lia. simpl.
    destruct (Z.ltb_spec (i + 1) 0).
    + rewrite Z.max_l by lia. done.
    + replace (Z.to_nat (Z.min (i + 1) n)) with 0%nat by lia. done.
Qed.

End Indexing.

(** C7, the claim as stated fails: on a tag that has no child,
    [del node[5]] raises nothing; the call returns and the store is what it
    was. *)
Lemma delete_missing_child_returns :
  heap lone_div !! 0%nat = Some bare_div /\
  list_index (length (children bare_div)) 5 = None /\
  delete_attribute 0 (KInt 5) lone_div = (Ok tt, lone_div).
Proof. repeat split; reflexivity. Qed.

(** C7, amended.  On every tag, [del node[i]] with an integer [i] that
    names no child raises nothing and leaves the store as it was (the slice
    [children[i:i+1]] is empty), and [del node[key]] with a string that is
    no attribute raises [KeyError] and leaves the store as it was. *)
Theorem delete_attribute_absent (st : state) (self : nat) (n : dom_tag) :
  heap st !! self = Some n ->
  (forall i : Z,
     list_index (length (children n)) i = None ->
     delete_attribute self (KInt i) st = (Ok tt, st)) /\
  (forall s : string,
     dict_get (attributes n) s = None ->
     delete_attribute self (KStr s) st = (Raise KeyError, st)).
Proof.
  intros Hn. split.
  - intros i Hi. unfold delete_attribute.
    rewrite (update_tag_ok _ _ _ _ Hn), (del_slice_absent _ _ Hi), with_children_id.
    by rewrite list_insert_id, with_heap_id.
  - intros s Hs. unfold delete_attribute, mbind, M_bind.
    by rewrite (get_tag_ok _ _ _ Hn), Hs.
Qed.

Lemma delete_attribute_absent_witness :
  (forall i : Z,
     list_index 0 i = None ->
     delete_attribute 0 (KInt i) lone_div = (Ok tt, lone_div)) /\
  (forall s : string,
     dict_get ([] : dict attr_value) s = None ->
     delete_attribute 0 (KStr s) lone_div = (Raise KeyError, lone_div)).
Proof. exact (delete_attribute_absent lone_div 0 _ eq_refl). Defined.

(** C8.  With a key that is neither an [int] nor a string, reading and
    writing raise [TypeError] and leave the store as it was; deleting goes
    to [del self.attributes[key]], which raises [KeyError] when the key is
    hashable and [TypeError] only when it is not. *)
Theorem other_key_access (st : state) (self : nat) (hashable : bool) :
  __getitem__ self (KOther hashable) st = (Raise TypeError, st) /\
  set_attribute self (KOther hashable) tt st = (Raise TypeError, st) /\
  delete_attribute self (KOther true) st = (Raise KeyError, st) /\
  delete_attribute self (KOther false) st = (Raise TypeError, st).
Proof. by repeat split. Qed.

(** C9.  [get_current] returns the tag of the top frame when the stack of
    the caller has a frame; when it has none, it raises [ValueError]
    exactly when no default was given, and returns the default
    otherwise. *)
Theorem get_current_spec (A : Type) (tid : Z) (dflt : option A) (st : state) :
  (forall (below : list frame) (fr : frame),
     open_frames st tid = below ++ [fr] ->
     get_current tid dflt st = Ok (inl (tag fr))) /\
  (open_frames st tid = [] ->
     (get_current tid dflt st = Raise ValueError <-> dflt = None) /\
     (forall d : A, dflt = Some d -> get_current tid dflt st = Ok (inr d))).
Proof.
  unfold open_frames, get_current. split.
  - intros below fr H.
    destruct (_with_contexts st !! tid) as [stack|]; simpl in *.
    + subst stack. unfold top. by rewrite last_snoc.
    + by destruct below.
  - intros H.
    assert (_with_contexts st !! tid ≫= top = None) as ->.
    { destruct (_with_contexts st !! tid) as [stack|]; simpl in *; by subst. }
    split; [split|].
    + by destruct dflt.
    + by intros ->.
    + by intros d ->.
Qed.

(** C6.  After [d.add(p_)], where [d] has itself as its document and the
    children of [p_] are a string and then the tag [b], the document of
    [p_] is that of [d] and the document of [b] is still [None]:
    [setdocument] returns from its loop at the string. *)
Theorem setdocument_stops_at_text (tid : Z) (fuel : nat) :
  exists (d b p : nat) (st : state),
    tag_after_text (S fuel) tid initial = (Ok (d, b, p), st) /\
    kids st !! p = Some [CStr "text"; CTag b] /\
    document_of st d = Some (Some d) /\
    document_of st p = Some (Some d) /\
    document_of st b = Some None.
Proof. eexists _, _, _, _. repeat split; vm_compute; reflexivity. Qed.

(** ** The order of the attributes *)

Section AttributeOrder.

#[local] Instance item_le_trans : Transitive item_le.
Proof. intros a b c. unfold item_le. apply transitivity. Qed.

#[local] Instance item_le_total : Total item_le.
Proof. intros a b. unfold item_le. apply total, _. Qed.

Lemma string_ltb_le_ne (a b : string) :
  String.le a b -> a <> b -> String.ltb a b = true.
Proof.
  unfold String.le, String.leb, String.ltb. intros Hle Hne.
  destruct (String.compare a b) eqn:Hc; try done.
  by apply String.compare_eq_iff in Hc.
Qed.

Lemma dict_set_keys {V} (d : dict V) (k : string) (v : V) :
  (dict_set d k v).*1 = if decide (k ∈ d.*1) then d.*1 else d.*1 ++ [k].
Proof.
  induction d as [|[k' v'] d IH]; cbn [dict_set].
  - rewrite decide_False; [done|]. apply not_elem_of_nil.
  - destruct (decide (k' = k)) as [->|Hne]; rewrite !fmap_cons; cbn [fst].
    + rewrite decide_True; [done|]. apply elem_of_cons. by left.
    + rewrite IH. destruct (decide (k ∈ d.*1)) as [Hin|Hin].
      * rewrite decide_True; [done|]. apply elem_of_cons. by right.
      * rewrite decide_False; [done|].
        intros [?|?]%elem_of_cons; congruence.
Qed.

Lemma dict_set_NoDup {V} (d : dict V) (k : string) (v : V) :
  NoDup d.*1 -> NoDup (dict_set d k v).*1.
Proof.
  intros Hd. rewrite dict_set_keys. destruct (decide (k ∈ d.*1)); [done|].
  apply NoDup_app. split; [done|]. split; [|apply NoDup_singleton].
  intros x Hx ->%list_elem_of_singleton. done.
Qed.

Lemma insertions_NoDup (ops : list (string * attr_value)) :
  NoDup (insertions ops).*1.
Proof.
  unfold insertions.
  assert (forall d : dict attr_value, NoDup d.*1 ->
            NoDup (foldl (fun d kv => dict_set d kv.1 kv.2) d ops).*1) as H.
  { induction ops as [|[k v] ops IH]; intros d Hd; simpl; [done|].
    apply IH. by apply dict_set_NoDup. }
  apply H. constructor.
Qed.

Lemma dict_get_elem_of {V} (d : dict V) (k : string) (v : V) :
  NoDup d.*1 -> (k, v) ∈ d <-> dict_get d k = Some v.
Proof.
  induction d as [|[k' v'] d IH]; simpl; intros Hd.
  - split; [by intros ?%elem_of_nil|done].
  - apply NoDup_cons in Hd as [Hk' Hd].
    destruct (decide (k' = k)) as [->|Hne].
    + split.
      * intros [Heq|Hin]%elem_of_cons; [congruence|].
        destruct Hk'. apply list_elem_of_fmap. by exists (k, v).
      * intros [= ->]. apply elem_of_cons. by left.
    + rewrite <- (IH Hd). split.
      * intros [Heq|Hin]%elem_of_cons; [congruence|done].
      * intros Hin. apply elem_of_cons. by right.
Qed.

(** The keys of a dictionary differ, so its sorted items ascend
    strictly. *)
Lemma sorted_items_strict (d : dict attr_value) :
  NoDup d.*1 ->
  StronglySorted (fun a b => String.ltb a.1 b.1 = true) (sorted_items d).
Proof.
  intros Hd. unfold sorted_items.
  assert (NoDup (merge_sort item_le d).*1) as Hnd.
  { by rewrite (merge_sort_Permutation item_le d). }
  pose proof (StronglySorted_merge_sort item_le d) as Hs.
  induction Hs as [|a l Hl IH Ha]; [constructor|].
  simpl in Hnd. apply NoDup_cons in Hnd as [Hal Hnd].
  constructor; [by apply IH|].
  apply Forall_forall. intros b Hb.
  apply string_ltb_le_ne.
  - rewrite Forall_forall in Ha. by apply Ha.
  - intros Heq. apply Hal. rewrite Heq. apply list_elem_of_fmap. by exists b.
Qed.

Lemma written_attributes_elem_of (d : dict attr_value) (k s : string) :
  NoDup d.*1 ->
  (k, s) ∈ written_attributes d <-> dict_get d k = Some (AttrStr s).
Proof.
  intros Hd. rewrite <- (dict_get_elem_of d k (AttrStr s) Hd).
  unfold written_attributes, sorted_items. rewrite list_elem_of_omap.
  setoid_rewrite (merge_sort_Permutation item_le d). split.
  - intros [[k' [s'|]] [Hin Heq]]; [|done]. by injection Heq as -> ->.
  - intros Hin. by exists (k, AttrStr s).
Qed.

Lemma written_attributes_ascending (d : dict attr_value) :
  NoDup d.*1 -> ascending (written_attributes d).*1.
Proof.
  intros Hd. unfold ascending, written_attributes.
  pose proof (sorted_items_strict d Hd) as Hs.
  induction Hs as [|[k v] l Hl IH Ha]; simpl; [constructor|].
  destruct v as [s|]; simpl; [|done].
  constructor; [done|].
  apply Forall_forall. intros k' [[k'' s'] [-> Hin]]%list_elem_of_fmap.
  apply list_elem_of_omap in Hin as [[k3 [s3|]] [Hin Heq]]; [|done].
  injection Heq as -> ->.
  rewrite Forall_forall in Ha. by apply (Ha _ Hin).
Qed.

End AttributeOrder.

(** ** Construction without tag arguments *)

Section Construction.

Lemma bind_ok {A B} (m : M A) (f : A -> M B) (st st' : state) (a : A) :
  m st = (Ok a, st') -> (m ≫= f) st = f a st'.
Proof. intros H. unfold mbind, M_bind. by rewrite H. Qed.

Lemma with_heap_with_heap (st : state) (h1 h2 : list dom_tag) :
  with_heap (with_heap st h1) h2 = with_heap st h2.
Proof. done. Qed.

Lemma with_contexts_id (st : state) : with_contexts st (_with_contexts st) = st.
Proof. by destruct st. Qed.

Lemma on_top_frame_spec (tid : Z) (f : frame -> frame) (st : state) :
  on_top_frame tid f st = (Ok tt, with_contexts st (on_top tid f (_with_contexts st))).
Proof.
  unfold on_top_frame, on_top, get_contexts, mbind, M_bind.
  destruct (_with_contexts st !! tid) as [stack|]; [|by rewrite with_contexts_id].
  destruct (top stack); [done|by rewrite with_contexts_id].
Qed.

(** The loop of [add] over strings and numbers appends their escaped text
    to the children of [self]. *)
Lemma add_text_like (fuel : nat) (tid : Z) (self : nat) (args : list addable)
    (st : state) (n : dom_tag) :
  Forall text_like args ->
  heap st !! self = Some n ->
  for_each args (add_obj fuel tid self) st =
  (Ok tt, with_heap st (<[self := with_children n (children n ++ text_children args)]> (heap st))).
Proof.
  intros Hargs. revert st n.
  induction Hargs as [|obj args Hobj _ IH]; intros st n Hn.
  - simpl. unfold mret, M_ret. rewrite app_nil_r, with_children_id.
    by rewrite list_insert_id, with_heap_id.
  - assert (exists c, text_children (obj :: args) = c :: text_children args /\
              add_obj fuel tid self obj st =
              (Ok tt, with_heap st (<[self := with_children n (children n ++ [c])]> (heap st))))
      as (c & Hc & Hstep).
    { destruct obj; try done; eexists; (split; [reflexivity|]);
        simpl; by rewrite (update_tag_ok _ _ _ _ Hn). }
    change (for_each (obj :: args) (add_obj fuel tid self))
      with (add_obj fuel tid self obj ;; for_each args (add_obj fuel tid self)).
    rewrite (bind_ok _ _ _ _ _ Hstep).
    rewrite (IH _ (with_children n (children n ++ [c]))).
    + rewrite Hc. simpl. rewrite with_heap_with_heap, list_insert_insert_eq.
      do 3 f_equal. destruct n; unfold with_children; simpl. f_equal.
      by rewrite <- app_assoc.
    + simpl. apply list_lookup_insert_eq. by apply lookup_lt_Some in Hn.
Qed.

Lemma shorthand_values (k v : string) :
  shorthand !! k = Some v -> v <> "".
Proof.
  unfold shorthand. intros H.
  repeat (apply lookup_insert_Some in H as [[_ <-]|[_ H]]; [done|]).
  by rewrite lookup_empty in H.
Qed.

(** [clean_attribute] raises only on the empty name. *)
Lemma clean_attribute_ok (k : string) :
  k <> "" -> exists k', clean_attribute k = Ok k'.
Proof.
  intros Hk. unfold clean_attribute.
  destruct (default k (shorthand !! k)) as [|c rest] eqn:Hd; [|by eexists].
  destruct (shorthand !! k) as [v|] eqn:Hs; simpl in Hd; [|done].
  by apply shorthand_values in Hs.
Qed.

Lemma clean_pair_ok (k : string) (v : kw_value) :
  k <> "" -> exists kv, clean_pair k v = Ok kv.
Proof.
  intros Hk. destruct (clean_attribute_ok k Hk) as [k' Hk'].
  unfold clean_pair. rewrite Hk'. by eexists.
Qed.

(** The loop of [__init__] over keyword arguments assigns the cleaned
    pairs, in order. *)
Lemma set_kwargs (self : nat) (kwargs : dict kw_value) (st : state) (n : dom_tag) :
  Forall (fun kv => kv.1 <> "") kwargs ->
  heap st !! self = Some n ->
  for_each kwargs (fun '(attr, value) =>
    '(k, v) ← lift (clean_pair attr value);
    set_attribute self (KStr k) v) st =
  (Ok tt, with_heap st (<[self := with_attributes n
            (foldl (fun d kv => dict_set d kv.1 kv.2) (attributes n) (cleaned kwargs))]>
          (heap st))).
Proof.
  intros Hkw. revert st n.
  induction Hkw as [|[attr value] kwargs Hk _ IH]; intros st n Hn.
  - simpl. unfold mret, M_ret.
    assert (with_attributes n (attributes n) = n) as -> by by destruct n.
    by rewrite list_insert_id, with_heap_id.
  - destruct (clean_pair_ok attr value Hk) as [[k v] Hp].
    set (body := fun '(attr, value) =>
      '(k, v) ← lift (clean_pair attr value); set_attribute self (KStr k) v).
    change (for_each ((attr, value) :: kwargs) body)
      with (body (attr, value) ;; for_each kwargs body).
    assert (body (attr, value) st =
            (Ok tt, with_heap st (<[self := with_attributes n (dict_set (attributes n) k v)]> (heap st))))
      as Hstep.
    { unfold body, lift, mbind at 1, M_bind at 1. rewrite Hp. simpl.
      by rewrite (update_tag_ok _ _ _ _ Hn). }
    rewrite (bind_ok _ _ _ _ _ Hstep).
    unfold body. rewrite (IH _ (with_attributes n (dict_set (attributes n) k v))).
    + unfold cleaned. simpl. rewrite Hp. simpl.
      by rewrite with_heap_with_heap, list_insert_insert_eq.
    + simpl. apply list_lookup_insert_eq. by apply lookup_lt_Some in Hn.
Qed.

Lemma dict_del_sublist {V} (d : dict V) (k : string) : dict_del d k `sublist_of` d.
Proof.
  induction d as [|[k' v'] d IH]; simpl; [done|].
  destruct (decide (k' = k)); [by apply sublist_cons|by apply sublist_skip].
Qed.

Lemma pop_flag_sublist (kwargs : dict kw_value) (k : string) (dflt : bool) :
  (pop_flag kwargs k dflt).2 `sublist_of` kwargs.
Proof.
  unfold pop_flag. destruct (dict_get kwargs k); simpl; [apply dict_del_sublist|done].
Qed.

(** A call of a class with text-like arguments and keyword arguments that
    all have a name returns a new tag, at the next free address, with the
    children and attributes of [built]; it joins the items of the top frame
    of the caller, when there is one. *)
Lemma init_spec (fuel : nat) (tid : Z) (c : tag_class) (args : list addable)
    (kwargs : dict kw_value) (st : state) :
  Forall text_like args ->
  Forall (fun kv => kv.1 <> "") kwargs ->
  __init__ fuel tid c args kwargs st =
  (Ok (length (heap st)),
   {| heap := heap st ++ [built c args kwargs];
      _with_contexts := on_top tid (collect (length (heap st))) (_with_contexts st) |}).
Proof.
  intros Hargs Hkw. unfold __init__, built.
  pose proof (pop_flag_sublist kwargs "__inline" (cls_inline c)) as Hs1.
  destruct (pop_flag kwargs "__inline" (cls_inline c)) as [inline kw1].
  pose proof (pop_flag_sublist kw1 "__pretty" (cls_pretty c)) as Hs2.
  destruct (pop_flag kw1 "__pretty" (cls_pretty c)) as [pretty kw2].
  simpl in Hs1, Hs2.
  assert (Forall (fun kv => kv.1 <> "") kw2) as Hkw2.
  { rewrite Forall_forall in Hkw |- *. intros kv Hin. apply Hkw.
    eapply elem_of_sublist; [exact Hin|]. by etrans. }
  set (n0 := {| cls := c; is_pretty := pretty; is_inline := inline;
                attributes := []; children := []; parent := None;
                document := None; text := None |}).
  set (self := length (heap st)).
  set (st1 := with_heap st (heap st ++ [n0])).
  assert (heap st1 !! self = Some n0) as H1.
  { simpl. unfold self. by rewrite lookup_app_r, Nat.sub_diag. }
  erewrite (bind_ok (allocate n0)); [|reflexivity]. fold self st1.
  set (n1 := with_children n0 (children n0 ++ text_children args)).
  set (st2 := with_heap st1 (<[self := n1]> (heap st1))).
  assert ((match args with
           | [] => mret ()
           | _ :: _ => add fuel tid self args ;; mret ()
           end) st1 = (Ok tt, st2)) as Hadd.
  { pose proof (add_text_like fuel tid self args st1 n0 Hargs H1) as Hfe.
    fold n1 st2 in Hfe. clearbody n1 st2 st1. clear Hargs.
    destruct args as [|obj args']; [exact Hfe|].
    unfold add. erewrite bind_ok; [|erewrite bind_ok; [reflexivity|exact Hfe]].
    done. }
  rewrite (bind_ok _ _ _ _ _ Hadd).
  assert (heap st2 !! self = Some n1) as H2.
  { simpl. apply list_lookup_insert_eq. by apply lookup_lt_Some in H1. }
  erewrite bind_ok; [|by apply set_kwargs].
  unfold _add_to_ctx. erewrite bind_ok; [|apply on_top_frame_spec].
  unfold mret, M_ret. f_equal.
  unfold with_contexts, with_heap, st2, st1, with_heap; simpl. f_equal.
  rewrite list_insert_insert_eq.
  unfold self. replace (length (heap st)) with (length (heap st) + 0)%nat at 1 by lia.
  rewrite insert_app_r. simpl. done.
Qed.

End Construction.

(** ** What [_render] writes *)

Section RenderFacts.

(** [_render_children] only appends to [sb] when [render_child] does. *)
Lemma _render_children_extends
    (render_child : nat -> list string -> outcome (list string))
    (h : list dom_tag) (cs : list child) (inline : bool) (sb : list string)
    (indent_level : nat) (indent_str : string) (pretty : bool)
    (inline' : bool) (out : list string) :
  (forall c sb0 out0, render_child c sb0 = Ok out0 -> exists ext, out0 = sb0 ++ ext) ->
  _render_children render_child h cs inline sb indent_level indent_str pretty
  = Ok (inline', out) ->
  exists ext, out = sb ++ ext.
Proof.
  intros Hrc. revert inline sb.
  induction cs as [|[c|s] cs IH]; intros inline sb H; simpl in H.
  - injection H as _ <-. exists []. by rewrite app_nil_r.
  - destruct (h !! c) as [cn|]; [|done].
    destruct (pretty && negb (is_inline cn)).
    + destruct (render_child c _) as [sb1| | |] eqn:Hc; try done. simpl in H.
      apply Hrc in Hc as [e1 ->]. apply IH in H as [e2 ->].
      eexists. by rewrite <- !app_assoc.
    + destruct (render_child c _) as [sb1| | |] eqn:Hc; try done. simpl in H.
      apply Hrc in Hc as [e1 ->]. apply IH in H as [e2 ->].
      eexists. by rewrite <- !app_assoc.
  - apply IH in H as [e ->]. eexists. by rewrite <- !app_assoc.
Qed.

(** [_render] on a tag that is not a [util.text] writes [<], the name and
    the written attributes, in their order, right after what [sb] held. *)
Lemma _render_open_tag (fuel : nat) (h : list dom_tag) (self : nat) (n : dom_tag)
    (sb : list string) (indent_level : nat) (indent_str : string)
    (pretty xhtml : bool) (out : list string) :
  h !! self = Some n ->
  text n = None ->
  _render fuel h self sb indent_level indent_str pretty xhtml = Ok out ->
  exists (name : string) (rest : list string),
    tag_name n = Ok name /\
    out = sb ++ ["<"; name] ++ (attribute_text <$> written_attributes (attributes n)) ++ rest.
Proof.
  assert (forall fuel self sb indent_level pretty out,
            _render fuel h self sb indent_level indent_str pretty xhtml = Ok out ->
            exists ext, out = sb ++ ext) as Hext.
  { clear. induction fuel as [|fuel IH]; intros self sb lvl pretty out H; [done|].
    simpl in H. destruct (h !! self) as [n|]; [|done].
    destruct (text n) as [t|]; [injection H as <-; by eexists|].
    destruct (tag_name n) as [name| | |]; try done. simpl in H.
    destruct (cls_single (cls n)).
    - injection H as <-. eexists. by rewrite <- !app_assoc.
    - destruct (_render_children _ _ _ _ _ _ _ _) as [[inline sb1]| | |] eqn:Hc;
        try done. simpl in H.
      eapply _render_children_extends in Hc as [e ->]; [|by eauto].
      injection H as <-.
      destruct (pretty && is_pretty n && negb inline); eexists;
        by rewrite <- !app_assoc. }
  intros Hn Ht H. destruct fuel as [|fuel]; [done|].
  simpl in H. rewrite Hn, Ht in H.
  destruct (tag_name n) as [name| | |]; try done. simpl in H.
  exists name. destruct (cls_single (cls n)).
  - injection H as <-. eexists. split; [done|]. by rewrite <- !app_assoc.
  - destruct (_render_children _ _ _ _ _ _ _ _) as [[inline sb1]| | |] eqn:Hc;
      try done. simpl in H.
    eapply _render_children_extends in Hc as [e ->]; [|by eauto].
    injection H as <-.
    destruct (pretty && is_pretty n && negb inline); eexists; (split; [done|]);
      by rewrite <- !app_assoc.
Qed.

(** Children that are all strings are written as they are, and leave
    [inline] alone. *)
Lemma _render_children_strings
    (render_child : nat -> list string -> outcome (list string))
    (h : list dom_tag) (ss : list string) (inline : bool) (sb : list string)
    (indent_level : nat) (indent_str : string) (pretty : bool) :
  _render_children render_child h (CStr <$> ss) inline sb indent_level indent_str pretty
  = Ok (inline, sb ++ ss).
Proof.
  revert sb. induction ss as [|s ss IH]; intros sb; simpl.
  - by rewrite app_nil_r.
  - rewrite IH. by rewrite <- app_assoc.
Qed.

(** The whole output for a tag whose children are all strings. *)
Lemma _render_leaf (fuel : nat) (h : list dom_tag) (self : nat) (n : dom_tag)
    (name : string) (ss : list string) (sb : list string) (indent_level : nat)
    (indent_str : string) (pretty xhtml : bool) :
  h !! self = Some n ->
  text n = None ->
  tag_name n = Ok name ->
  children n = CStr <$> ss ->
  _render (S fuel) h self sb indent_level indent_str pretty xhtml =
  Ok (sb ++ ["<"; name] ++ (attribute_text <$> written_attributes (attributes n)) ++
      (if cls_single (cls n) then [if xhtml then " />" else ">"]
       else [">"] ++ ss ++ ["</"; name; ">"])).
Proof.
  intros Hn Ht Hname Hc. simpl. rewrite Hn, Ht, Hname, Hc. simpl.
  destruct (cls_single (cls n)); simpl.
  - by rewrite <- !app_assoc.
  - rewrite _render_children_strings. simpl.
    rewrite andb_false_r. by rewrite <- !app_assoc.
Qed.

(** [_render_children] returns when [render_child] does on the children
    that are tags. *)
Lemma _render_children_returns
    (render_child : nat -> list string -> outcome (list string))
    (h : list dom_tag) (cs : list child) (inline : bool) (sb : list string)
    (indent_level : nat) (indent_str : string) (pretty : bool) :
  (forall c, CTag c ∈ cs ->
     is_Some (h !! c) /\
     forall sb0, exists ext, render_child c sb0 = Ok (sb0 ++ ext)) ->
  exists inline' ext,
    _render_children render_child h cs inline sb indent_level indent_str pretty
    = Ok (inline', sb ++ ext).
Proof.
  revert inline sb. induction cs as [|[c|s] cs IH]; intros inline sb Hcs.
  - exists inline, []. by rewrite app_nil_r.
  - destruct (Hcs c) as [[cn Hc] Hr]; [apply elem_of_cons; by left|].
    assert (forall c0, CTag c0 ∈ cs ->
              is_Some (h !! c0) /\
              forall sb0, exists ext, render_child c0 sb0 = Ok (sb0 ++ ext)) as Hcs'.
    { intros c0 H0. apply Hcs, elem_of_cons. by right. }
    simpl. rewrite Hc. destruct (pretty && negb (is_inline cn)).
    + destruct (Hr (sb ++ [newline; Str.repeat indent_str indent_level])) as [e1 ->].
      simpl.
      destruct (IH false ((sb ++ [newline; Str.repeat indent_str indent_level]) ++ e1)
                  Hcs') as (i & e2 & ->).
      exists i. eexists. by rewrite <- !app_assoc.
    + destruct (Hr sb) as [e1 ->].
      simpl. destruct (IH inline (sb ++ e1) Hcs') as (i & e2 & ->).
      exists i. eexists. by rewrite <- !app_assoc.
  - simpl. destruct (IH inline (sb ++ [s])) as (i & e & ->).
    { intros c0 H0. apply Hcs, elem_of_cons. by right. }
    exists i. eexists. by rewrite <- !app_assoc.
Qed.

(** [_render] returns on a renderable tag, given the calls it needs, and
    what it returns starts with the open tag: [<], the name, the written
    attributes and the end of the open tag. *)
Lemma _render_returns (fuel k : nat) (h : list dom_tag) (self : nat)
    (sb : list string) (indent_level : nat) (indent_str : string)
    (pretty xhtml : bool) :
  renderable k h self -> k <= fuel ->
  exists n ext,
    h !! self = Some n /\
    _render fuel h self sb indent_level indent_str pretty xhtml = Ok (sb ++ ext) /\
    (text n = None ->
     exists name rest,
       tag_name n = Ok name /\
       ext = ["<"; name] ++
             (attribute_text <$> written_attributes (attributes n)) ++
             [if cls_single (cls n) && xhtml then " />" else ">"] ++ rest).
Proof.
  revert fuel self sb indent_level pretty.
  induction k as [|k IH]; intros fuel self sb lvl pretty Hr Hk; [done|].
  destruct fuel as [|fuel]; [lia|].
  destruct Hr as (n & Hn & Hr). exists n. simpl. rewrite Hn.
  destruct (text n) as [t|] eqn:Ht.
  { exists [t]. by repeat split. }
  destruct (Hr eq_refl) as [[name Hname] Hcs]. rewrite Hname. simpl.
  destruct (cls_single (cls n)) eqn:Hsingle.
  - eexists. split; [done|]. split; [by rewrite <- !app_assoc|].
    intros _. by exists name, [].
  - assert (forall c, CTag c ∈ children n ->
              is_Some (h !! c) /\
              forall sb0, exists ext,
                _render fuel h c sb0 (S lvl) indent_str (pretty && is_pretty n) xhtml
                = Ok (sb0 ++ ext)) as Hkids.
    { intros c Hc. destruct (IH fuel c [] (S lvl) (pretty && is_pretty n))
        as (cn & _ & Hcn & _ & _); [by apply Hcs|lia|].
      split; [by eexists|]. intros sb0.
      destruct (IH fuel c sb0 (S lvl) (pretty && is_pretty n))
        as (_ & ext & _ & Hext & _); [by apply Hcs|lia|].
      by exists ext. }
    match goal with
    | |- context [_render_children ?f h (children n) true ?sb1 ?l ?i ?p] =>
        destruct (_render_children_returns f h (children n) true sb1 l i p Hkids)
          as (il & e & He)
    end.
    rewrite He. simpl.
    destruct (pretty && is_pretty n && negb il); eexists;
      (split; [done|]); (split; [rewrite <- !app_assoc; reflexivity|]);
      intros _; exists name; eexists; (split; [done|]); reflexivity.
Qed.

End RenderFacts.

(** C4.  Whatever the assignments that built the attributes of a tag and
    whatever their order, the attributes [_render] writes are those whose
    value is not [False], their names ascend strictly in the lexicographic
    order of strings, and the output has them in that order, right after
    the name of the tag.  Such an output is produced: on a tag that can be
    rendered, [_render] and [render] return, and what they return holds
    [<], the name, one piece [ name="value"] for each written attribute in
    ascending order of the names, with the value escaped, and then the end
    of the open tag. *)
Theorem attributes_rendered_in_order (ops : list (string * attr_value)) :
  ascending (written_attributes (insertions ops)).*1 /\
  (forall k s : string,
     (k, s) ∈ written_attributes (insertions ops) <->
     dict_get (insertions ops) k = Some (AttrStr s)) /\
  (forall (fuel : nat) (h : list dom_tag) (self : nat) (n : dom_tag)
          (sb : list string) (indent_level : nat) (indent_str : string)
          (pretty xhtml : bool) (out : list string),
     h !! self = Some n ->
     attributes n = insertions ops ->
     text n = None ->
     _render fuel h self sb indent_level indent_str pretty xhtml = Ok out ->
     exists (name : string) (rest : list string),
       out = sb ++ ["<"; name] ++
             (attribute_text <$> written_attributes (insertions ops)) ++ rest) /\
  (forall (fuel depth : nat) (st : state) (self : nat) (n : dom_tag)
          (sb : list string) (indent_level : nat) (indent_str : string)
          (pretty xhtml : bool),
     heap st !! self = Some n ->
     attributes n = insertions ops ->
     text n = None ->
     renderable depth (heap st) self ->
     depth <= fuel ->
     exists name : string,
       let open_tag :=
         ["<"; name] ++
         ((fun item : string * string =>
             " " +:+ item.1 +:+ "=" +:+ quotation +:+
             Util.escape item.2 true +:+ quotation)
            <$> written_attributes (insertions ops)) ++
         [if cls_single (cls n) && xhtml then " />" else ">"] in
       tag_name n = Ok name /\
       (exists rest : list string,
          _render fuel (heap st) self sb indent_level indent_str pretty xhtml
          = Ok (sb ++ open_tag ++ rest)) /\
       (exists rest : list string,
          render fuel st self indent_str pretty xhtml
          = Ok (Str.join (open_tag ++ rest)))).
Proof.
  pose proof (insertions_NoDup ops) as Hnd. split; [|split; [|split]].
  - by apply written_attributes_ascending.
  - intros k s. by apply written_attributes_elem_of.
  - intros fuel h self n sb lvl ind pretty xhtml out Hn Ha Ht H.
    destruct (_render_open_tag _ _ _ _ _ _ _ _ _ _ Hn Ht H) as (name & rest & _ & ->).
    rewrite Ha. by exists name, rest.
  - intros fuel depth st self n sb lvl ind pretty xhtml Hn Ha Ht Hr Hk.
    destruct (_render_returns fuel depth (heap st) self sb lvl ind pretty xhtml Hr Hk)
      as (n1 & ext1 & Hn1 & Hout1 & Hshape1).
    destruct (_render_returns fuel depth (heap st) self [] 0 ind pretty xhtml Hr Hk)
      as (n2 & ext2 & Hn2 & Hout2 & Hshape2).
    rewrite Hn in Hn1, Hn2. injection Hn1 as <-. injection Hn2 as <-.
    destruct (Hshape1 Ht) as (name & rest1 & Hname & ->).
    destruct (Hshape2 Ht) as (name2 & rest2 & Hname2 & ->).
    rewrite Hname in Hname2. injection Hname2 as <-.
    rewrite Ha in Hout1, Hout2.
    exists name. split; [done|]. split.
    + exists rest1. rewrite Hout1. by rewrite <- !app_assoc.
    + exists rest2. unfold render. rewrite Hout2. simpl. by rewrite <- !app_assoc.
Qed.

(** A [div] whose attributes were assigned out of order, one of them
    twice and one of them [False]. *)
Lemma attributes_rendered_in_order_witness :
  let ops := [("title", AttrStr "t"); ("id", AttrStr "i"); ("hidden", AttrFalse);
              ("class", AttrStr "c"); ("id", AttrStr "j")] in
  let st := {| heap := [with_attributes bare_div (insertions ops)];
               _with_contexts := ∅ |} in
  exists name : string,
    let open_tag :=
      ["<"; name] ++
      ((fun item : string * string =>
          " " +:+ item.1 +:+ "=" +:+ quotation +:+
          Util.escape item.2 true +:+ quotation)
         <$> written_attributes (insertions ops)) ++
      [if cls_single (cls (with_attributes bare_div (insertions ops))) && false
       then " />" else ">"] in
    tag_name (with_attributes bare_div (insertions ops)) = Ok name /\
    (exists rest : list string,
       _render 1 (heap st) 0 [] 0 "  " true false = Ok ([] ++ open_tag ++ rest)) /\
    (exists rest : list string,
       render 1 st 0 "  " true false = Ok (Str.join (open_tag ++ rest))).
Proof.
  intros ops st.
  apply (proj2 (proj2 (proj2 (attributes_rendered_in_order ops)))
           1 1 st 0 (with_attributes bare_div (insertions ops)) [] 0 "  " true false).
  - reflexivity.
  - reflexivity.
  - reflexivity.
  - exists (with_attributes bare_div (insertions ops)).
    split; [reflexivity|]. intros _. split; [by eexists|].
    intros _ c Hc. by apply elem_of_nil in Hc.
  - lia.
Defined.

Example ordered_attributes_example :
  render 1
    {| heap := [with_attributes bare_div
                  (insertions [("title", AttrStr "t"); ("id", AttrStr "i");
                               ("hidden", AttrFalse); ("class", AttrStr "c");
                               ("id", AttrStr "j")])];
       _with_contexts := ∅ |} 0 "  " true false
  = Ok ("<div class=" +:+ quotation +:+ "c" +:+ quotation +:+
        " id=" +:+ quotation +:+ "j" +:+ quotation +:+
        " title=" +:+ quotation +:+ "t" +:+ quotation +:+ "></div>").
Proof. vm_compute. reflexivity. Qed.

(** ** The boolean shorthand of attributes *)

Section BooleanShorthand.

Lemma dict_get_set {V} (d : dict V) (k k' : string) (v : V) :
  dict_get (dict_set d k v) k' = if decide (k = k') then Some v else dict_get d k'.
Proof.
  induction d as [|[k0 v0] d IH]; cbn [dict_set dict_get].
  - done.
  - destruct (decide (k0 = k)) as [->|Hne]; cbn [dict_get].
    + by destruct (decide (k = k')).
    + rewrite IH. destruct (decide (k0 = k')) as [->|?]; [|done].
      by rewrite decide_False.
Qed.

(** When all the assignments to [k] in a sequence assign [v], and there is
    one, the dictionary ends with [v] at [k]. *)
Lemma foldl_dict_set_get (ops : list (string * attr_value)) (d : dict attr_value)
    (k : string) (v : attr_value) :
  (forall k' v', (k', v') ∈ ops -> k' = k -> v' = v) ->
  k ∈ ops.*1 \/ dict_get d k = Some v ->
  dict_get (foldl (fun d kv => dict_set d kv.1 kv.2) d ops) k = Some v.
Proof.
  revert d. induction ops as [|[k1 v1] ops IH]; intros d Hall Hsome; simpl.
  - destruct Hsome as [Hin|Hd]; [by apply elem_of_nil in Hin|done].
  - apply IH.
    + intros k' v' Hin. apply Hall. by apply elem_of_cons; right.
    + rewrite dict_get_set. destruct (decide (k1 = k)) as [->|Hne].
      * right. f_equal. apply (Hall k v1); [by apply elem_of_cons; left|done].
      * destruct Hsome as [Hin|Hd]; [|by right].
        left. rewrite fmap_cons in Hin. simpl in Hin.
        apply elem_of_cons in Hin as [?|?]; [congruence|done].
Qed.

Lemma cleaned_elem_of (kwargs : dict kw_value) (k' : string) (v' : attr_value) :
  (k', v') ∈ cleaned kwargs <->
  exists k v, (k, v) ∈ kwargs /\ clean_pair k v = Ok (k', v').
Proof.
  unfold cleaned. rewrite list_elem_of_omap. split.
  - intros [[k v] [Hin Hc]]. exists k, v. split; [done|].
    destruct (clean_pair k v) as [kv| | |]; try done. by injection Hc as ->.
  - intros (k & v & Hin & Hc). exists (k, v). by rewrite Hc.
Qed.

Lemma clean_pair_inv (k : string) (v : kw_value) (k' : string) (v' : attr_value) :
  clean_pair k v = Ok (k', v') ->
  clean_attribute k = Ok k' /\
  v' = match v with
       | KwBool true => AttrStr k'
       | KwBool false => AttrFalse
       | KwStr s => AttrStr s
       end.
Proof.
  unfold clean_pair. destruct (clean_attribute k) as [k0| | |]; try done.
  simpl. unfold mret, outcome_ret. by intros [= -> ->].
Qed.

Lemma dict_del_elem_of_ne {V} (d : dict V) (k k0 : string) (v : V) :
  k <> k0 -> (k, v) ∈ d -> (k, v) ∈ dict_del d k0.
Proof.
  intros Hne. induction d as [|[k1 v1] d IH]; simpl; [done|].
  intros [Heq|Hin]%elem_of_cons.
  - injection Heq as <- <-. rewrite decide_False by done. by apply elem_of_cons; left.
  - destruct (decide (k1 = k0)); [done|]. apply elem_of_cons; right. by apply IH.
Qed.

Lemma pop_flag_elem_of_ne (kwargs : dict kw_value) (flag : string) (dflt : bool)
    (k : string) (v : kw_value) :
  k <> flag -> (k, v) ∈ kwargs -> (k, v) ∈ (pop_flag kwargs flag dflt).2.
Proof.
  intros Hne Hin. unfold pop_flag.
  destruct (dict_get kwargs flag); simpl; [by apply dict_del_elem_of_ne|done].
Qed.

(** The attributes and the children of [built]. *)
Lemma built_attributes (c : tag_class) (args : list addable) (kwargs : dict kw_value) :
  attributes (built c args kwargs) =
  insertions (cleaned (pop_flag (pop_flag kwargs "__inline" (cls_inline c)).2
                         "__pretty" (cls_pretty c)).2).
Proof.
  unfold built. destruct (pop_flag kwargs _ _) as [i kw1]. simpl.
  by destruct (pop_flag kw1 _ _) as [p kw2].
Qed.

Lemma built_children (c : tag_class) (args : list addable) (kwargs : dict kw_value) :
  children (built c args kwargs) = text_children args /\
  text (built c args kwargs) = None /\
  cls (built c args kwargs) = c.
Proof.
  unfold built. destruct (pop_flag kwargs _ _) as [i kw1].
  by destruct (pop_flag kw1 _ _) as [p kw2].
Qed.

Lemma text_children_strings (args : list addable) :
  exists ss : list string, text_children args = CStr <$> ss.
Proof.
  induction args as [|obj args [ss IH]]; [by exists []|].
  assert (text_children (obj :: args) = text_children args \/
          exists s, text_children (obj :: args) = CStr s :: text_children args)
    as [->|[s ->]].
  { destruct obj; (by left) || (right; by eexists). }
  - by exists ss.
  - exists (s :: ss). by rewrite IH.
Qed.

Lemma join_elem_of (l : list string) (x : string) :
  x ∈ l -> exists pre post : string, Str.join l = pre +:+ x +:+ post.
Proof.
  induction l as [|y l IH]; [by intros ?%elem_of_nil|].
  intros [->|Hin]%elem_of_cons; simpl.
  - by exists "", (Str.join l).
  - destruct (IH Hin) as (pre & post & ->). exists (y +:+ pre), post.
    by rewrite append_assoc.
Qed.

End BooleanShorthand.



Example selected_true_example :
  (let '(r, st) := __init__ 1 0 (plain_class "option") []
                     [("selected", KwBool true)] initial in
   r ≫= fun a => render 1 st a "  " true false)
  = Ok ("<option selected=" +:+ quotation +:+ "selected" +:+ quotation +:+ "></option>").
Proof. vm_compute. reflexivity. Qed.

Example selected_false_example :
  (let '(r, st) := __init__ 1 0 (plain_class "option") []
                     [("selected", KwBool false)] initial in
   r ≫= fun a => render 1 st a "  " true false)
  = Ok "<option></option>".
Proof. vm_compute. reflexivity. Qed.

(** ** Scoped construction *)

Section Scoped.

Lemma kids_lookup (st : state) (a : nat) (cs : list child) :
  kids st !! a = Some cs <-> exists n, heap st !! a = Some n /\ children n = cs.
Proof.
  unfold kids. rewrite list_lookup_fmap. destruct (heap st !! a) as [n|]; simpl.
  - split; [intros [= <-]; by exists n|intros (n' & [= <-] & <-); done].
  - split; [done|by intros (n' & ? & _)].
Qed.

Lemma kids_insert (st : state) (a : nat) (n : dom_tag) :
  kids (with_heap st (<[a := n]> (heap st))) = <[a := children n]> (kids st).
Proof. unfold kids. simpl. by rewrite list_fmap_insert. Qed.

Lemma kids_insert_same (st : state) (a : nat) (n n' : dom_tag) :
  heap st !! a = Some n -> children n' = children n ->
  kids (with_heap st (<[a := n']> (heap st))) = kids st.
Proof.
  intros Hn Hc. rewrite kids_insert, Hc. apply list_insert_id.
  apply kids_lookup. by exists n.
Qed.

Lemma kids_length (st : state) : length (kids st) = length (heap st).
Proof. unfold kids. by rewrite length_fmap. Qed.

(** [setdocument] changes no list of children and no frame, however it
    ends. *)
Lemma setdocument_children_kids (recur : nat -> M unit) (cs : list child)
    (st : state) :
  (forall i st0, kids (recur i st0).2 = kids st0 /\
                 _with_contexts (recur i st0).2 = _with_contexts st0) ->
  kids (setdocument_children recur cs st).2 = kids st /\
  _with_contexts (setdocument_children recur cs st).2 = _with_contexts st.
Proof.
  intros Hrec. revert st. induction cs as [|[i|s] cs IH]; intros st; simpl; try done.
  unfold mbind, M_bind. destruct (Hrec i st) as [Hk Hc].
  destruct (recur i st) as [[[]| | |] st1]; simpl in *; try done.
  destruct (IH st1) as [Hk' Hc']. split; congruence.
Qed.

Lemma setdocument_kids (fuel : nat) (a : nat) (doc : option nat) (st : state) :
  kids (setdocument fuel a doc st).2 = kids st /\
  _with_contexts (setdocument fuel a doc st).2 = _with_contexts st.
Proof.
  revert a st. induction fuel as [|fuel IH]; intros a st; [done|].
  cbn [setdocument]. unfold mbind, M_bind, get_tag.
  destruct (heap st !! a) as [n|] eqn:Hn; [|done].
  destruct (decide (document n <> doc)); [|done].
  unfold put_tag.
  set (st1 := with_heap st (<[a := with_document n doc]> (heap st))).
  assert (kids st1 = kids st) as Hk1 by by eapply kids_insert_same.
  destruct (setdocument_children_kids (fun i => setdocument fuel i doc) (children n) st1)
    as [Hk Hc]; [by intros; apply IH|].
  rewrite Hk, Hc. done.
Qed.

(** With fuel for the depth of the tag, [setdocument] returns. *)
Lemma setdocument_ok (fuel k : nat) (a : nat) (doc : option nat) (st : state) :
  shallow k (kids st) a -> k <= fuel ->
  (setdocument fuel a doc st).1 = Ok tt.
Proof.
  revert k a st. induction fuel as [|fuel IH]; intros k a st Hs Hk.
  { destruct k; [done|lia]. }
  destruct k as [|k]; [done|]. destruct Hs as (cs & Hcs & Hsub).
  apply kids_lookup in Hcs as (n & Hn & <-).
  simpl. unfold mbind at 1, M_bind at 1. rewrite (get_tag_ok _ _ _ Hn).
  destruct (decide (document n <> doc)); [|done].
  unfold mbind, M_bind, put_tag.
  set (st1 := with_heap st (<[a := with_document n doc]> (heap st))).
  assert (kids st1 = kids st) as Hk1 by by eapply kids_insert_same.
  clearbody st1. revert st1 Hk1 Hsub.
  induction (children n) as [|[i|s] cs IHcs]; intros st1 Hk1 Hsub; simpl; try done.
  unfold mbind, M_bind.
  pose proof (IH k i st1) as Hi. rewrite Hk1 in Hi.
  specialize (Hi (Hsub i ltac:(by apply elem_of_cons; left)) ltac:(lia)).
  destruct (setdocument_kids fuel i doc st1) as [Hk2 _].
  destruct (setdocument fuel i doc st1) as [r st2]. simpl in Hi, Hk2. subst r.
  apply IHcs; [congruence|].
  intros c Hc. apply Hsub. by apply elem_of_cons; right.
Qed.

Lemma top_snoc (below : list frame) (fr : frame) : top (below ++ [fr]) = Some fr.
Proof. unfold top. apply last_snoc. Qed.

Lemma pop_snoc (below : list frame) (fr : frame) : pop (below ++ [fr]) = below.
Proof. unfold pop. apply removelast_last. Qed.

Lemma on_top_snoc (tid : Z) (f : frame -> frame) (contexts : gmap Z (list frame))
    (below : list frame) (fr : frame) :
  contexts !! tid = Some (below ++ [fr]) ->
  on_top tid f contexts = <[tid := below ++ [f fr]]> contexts.
Proof.
  intros H. unfold on_top, update_top. by rewrite H, top_snoc, pop_snoc.
Qed.

(** [self.add(x)] for a tag [x] that is shallow once it is a child of
    [self]: [x] becomes the last child of [self], no other list of
    children changes, and [x] is marked used in the top frame. *)
Lemma add_node (fuel k : nat) (tid : Z) (self x : nat) (cs : list child)
    (st : state) :
  kids st !! self = Some cs ->
  x < length (heap st) ->
  shallow k (<[self := cs ++ [CTag x]]> (kids st)) x ->
  k <= fuel ->
  exists st',
    add fuel tid self [Node x] st = (Ok (Node x), st') /\
    kids st' = <[self := cs ++ [CTag x]]> (kids st) /\
    _with_contexts st' = on_top tid (mark_used x) (_with_contexts st).
Proof.
  intros Hself Hx Hshallow Hk.
  apply kids_lookup in Hself as (n & Hn & <-).
  set (st0 := with_contexts st (on_top tid (mark_used x) (_with_contexts st))).
  set (st1 := with_heap st0 (<[self := with_children n (children n ++ [CTag x])]> (heap st0))).
  assert (kids st1 = <[self := children n ++ [CTag x]]> (kids st)) as Hk1.
  { unfold st1. by rewrite kids_insert. }
  destruct (lookup_lt_is_Some_2 (heap st1) x) as [nx Hnx].
  { simpl. by rewrite length_insert. }
  set (st2 := with_heap st1 (<[x := with_parent nx (Some self)]> (heap st1))).
  assert (kids st2 = kids st1) as Hk2 by by eapply kids_insert_same.
  destruct (lookup_lt_is_Some_2 (heap st2) self) as [n2 Hn2].
  { simpl. rewrite !length_insert. by apply lookup_lt_Some in Hn. }
  pose proof (setdocument_ok fuel k x (document n2) st2) as Hok.
  rewrite Hk2, Hk1 in Hok. specialize (Hok Hshallow Hk).
  destruct (setdocument_kids fuel x (document n2) st2) as [Hk3 Hc3].
  destruct (setdocument fuel x (document n2) st2) as [r st3] eqn:Hsd.
  simpl in Hok, Hk3, Hc3. subst r.
  exists st3. split; [|split; [congruence|by rewrite Hc3]].
  unfold add. cbn [for_each add_obj].
  erewrite bind_ok; [reflexivity|].
  erewrite bind_ok; [|erewrite bind_ok; [|apply on_top_frame_spec]].
  2:{ fold st0. erewrite bind_ok; [|by apply (update_tag_ok st0 self n)].
      fold st1. erewrite bind_ok; [|by apply (update_tag_ok st1 x nx)].
      fold st2. erewrite bind_ok; [|by apply (get_tag_ok st2 self n2)].
      exact Hsd. }
  done.
Qed.

Lemma settled_insert (ks : list (list child)) (P a : nat) (v : list child) :
  settled ks P a -> settled (<[P := v]> ks) P a.
Proof.
  intros (Ha & cs & Hcs & Hsub). split; [done|]. exists cs. split.
  - by rewrite list_lookup_insert_ne.
  - intros c Hc. destruct (Hsub c Hc) as (Hne & cs' & Hcs' & Hleaf).
    split; [done|]. exists cs'. split; [|done].
    by rewrite list_lookup_insert_ne.
Qed.

Lemma settled_shallow (ks : list (list child)) (P a : nat) :
  settled ks P a -> shallow 2 ks a.
Proof.
  intros (_ & cs & Hcs & Hsub). exists cs. split; [done|].
  intros c Hc. destruct (Hsub c Hc) as (_ & cs' & Hcs' & Hleaf).
  exists cs'. split; [done|]. intros c' Hc'. by apply Hleaf in Hc'.
Qed.

(** The loop of [__exit__] appends to the children of [self] the items
    that are not used, in their order. *)
Lemma exit_loop (fuel : nat) (tid : Z) (P : nat) (used : gset nat)
    (items : list nat) (st : state) (csP : list child) :
  2 <= fuel ->
  kids st !! P = Some csP ->
  Forall (settled (kids st) P) items ->
  exists st',
    for_each items (fun item =>
      if bool_decide (item ∈ used) then mret tt
      else add fuel tid P [Node item] ;; mret tt) st = (Ok tt, st') /\
    kids st' = <[P := csP ++ (CTag <$> filter (fun i => i ∉ used) items)]> (kids st).
Proof.
  intros Hfuel. revert st csP.
  induction items as [|item items IH]; intros st csP HP Hitems.
  - exists st. split; [done|]. simpl. rewrite app_nil_r. by rewrite list_insert_id.
  - apply Forall_cons in Hitems as [Hitem Hitems].
    set (body := fun item : nat =>
      if bool_decide (item ∈ used) then mret tt
      else add fuel tid P [Node item] ;; mret tt).
    change (for_each (item :: items) body) with (body item ;; for_each items body).
    rewrite filter_cons. destruct (decide (item ∈ used)) as [Hu|Hu].
    + destruct (IH st csP HP Hitems) as (st' & Hrun & Hkids).
      exists st'. split; [|by rewrite decide_False by auto].
      erewrite bind_ok; [exact Hrun|]. unfold body. by rewrite bool_decide_eq_true_2.
    + rewrite decide_True by done.
      destruct (add_node fuel 2 tid P item csP st HP) as (st1 & Hadd & Hk1 & _);
        [|by apply (settled_shallow _ P), settled_insert|done|].
      { destruct Hitem as (_ & cs & Hcs & _). apply lookup_lt_Some in Hcs.
        by rewrite kids_length in Hcs. }
      destruct (IH st1 (csP ++ [CTag item])) as (st' & Hrun & Hkids).
      { rewrite Hk1. apply list_lookup_insert_eq. by apply lookup_lt_Some in HP. }
      { rewrite Hk1. eapply Forall_impl; [exact Hitems|].
        intros a Ha. by apply settled_insert. }
      exists st'. split.
      * erewrite bind_ok; [exact Hrun|]. unfold body.
        rewrite bool_decide_eq_false_2 by done. by erewrite bind_ok.
      * rewrite Hkids, Hk1, list_insert_insert_eq. f_equal.
        rewrite fmap_cons. by rewrite <- app_assoc.
Qed.

(** [__exit__] on a stack whose top frame is [fr]. *)
Lemma exit_spec (fuel : nat) (tid : Z) (P : nat) (st : state)
    (below : list frame) (fr : frame) (csP : list child) :
  2 <= fuel ->
  _with_contexts st !! tid = Some (below ++ [fr]) ->
  kids st !! P = Some csP ->
  Forall (settled (kids st) P) (items fr) ->
  exists st',
    __exit__ fuel tid P st = (Ok tt, st') /\
    kids st' = <[P := csP ++ (CTag <$> filter (fun i => i ∉ used fr) (items fr))]> (kids st).
Proof.
  intros Hfuel Hctx HP Hitems. unfold __exit__.
  erewrite bind_ok; [|reflexivity]. rewrite Hctx. cbn [default from_option id].
  rewrite top_snoc, pop_snoc.
  erewrite bind_ok; [|reflexivity].
  set (st0 := with_contexts st (<[tid := below]> (_with_contexts st))).
  destruct (exit_loop fuel tid P (used fr) (items fr) st0 csP Hfuel HP Hitems)
    as (st1 & Hloop & Hk1).
  erewrite bind_ok; [|exact Hloop].
  destruct (bool_decide (below = [])).
  - eexists. split; [reflexivity|]. exact Hk1.
  - eexists. split; [reflexivity|]. exact Hk1.
Qed.

Lemma enter_spec (tid : Z) (P : nat) (st : state) :
  __enter__ tid P st =
  (Ok P, with_contexts st
           (<[tid := open_frames st tid ++ [{| tag := P; items := []; used := ∅ |}]]>
              (_with_contexts st))).
Proof. done. Qed.

Lemma text_children_no_tag (args : list addable) (c : nat) :
  CTag c ∉ text_children args.
Proof.
  destruct (text_children_strings args) as [ss ->].
  by intros (s & ? & _)%list_elem_of_fmap.
Qed.

Lemma filter_not_used (U : gset nat) (l : list nat) :
  (forall i, i ∉ U) -> filter (fun i => i ∉ U) l = l.
Proof.
  intros HU. induction l as [|i l IH]; [done|].
  rewrite filter_cons, decide_True by done. by rewrite IH.
Qed.

Lemma used_one (x i : nat) : i ∈ ({[x]} ∪ ∅ : gset nat) <-> i = x.
Proof.
  rewrite elem_of_union, elem_of_singleton. split; [|by left].
  intros [Hi|Hi]; [done|]. by apply elem_of_empty in Hi.
Qed.

Lemma filter_not_used_one (U : gset nat) (x : nat) (l : list nat) :
  (forall i, i ∈ U <-> i = x) ->
  filter (fun i => i ∉ U) l = filter (fun i => i <> x) l.
Proof. intros HU. apply list_filter_iff. intros i. by rewrite HU. Qed.

(** The store after [__enter__] and three plain constructions: three new
    tags at the next addresses, each with strings for children, and a top
    frame that has collected them. *)
Lemma scope_built {A} (fuel : nat) (tid : Z) (P : nat) (ka kb kc : construction)
    (rest : nat -> nat -> nat -> M A) (st : state) :
  plain ka -> plain kb -> plain kc ->
  let L := length (heap st) in
  exists st3,
    (__enter__ tid P ;;
     a ← construct fuel tid ka;
     b ← construct fuel tid kb;
     c ← construct fuel tid kc;
     rest a b c) st = rest L (S L) (S (S L)) st3 /\
    kids st3 = kids st ++ [text_children (c_args ka); text_children (c_args kb);
                           text_children (c_args kc)] /\
    _with_contexts st3 !! tid =
    Some (open_frames st tid ++ [{| tag := P; items := [L; S L; S (S L)]; used := ∅ |}]).
Proof.
  intros [Ha1 Ha2] [Hb1 Hb2] [Hc1 Hc2] L.
  set (below := open_frames st tid).
  erewrite bind_ok; [|apply enter_spec]. fold below.
  set (st0 := with_contexts st _).
  unfold construct.
  erewrite bind_ok; [|by apply init_spec].
  set (st1 := {| heap := heap st0 ++ _; _with_contexts := _ |}).
  erewrite bind_ok; [|by apply init_spec].
  set (st2 := {| heap := heap st1 ++ _; _with_contexts := _ |}).
  erewrite bind_ok; [|by apply init_spec].
  set (st3 := {| heap := heap st2 ++ _; _with_contexts := _ |}).
  exists st3.
  assert (length (heap st0) = L) as E0 by done.
  assert (length (heap st1) = S L) as E1.
  { unfold st1. cbn [heap]. rewrite length_app, E0. simpl. lia. }
  assert (length (heap st2) = S (S L)) as E2.
  { unfold st2. cbn [heap]. rewrite length_app, E1. simpl. lia. }
  rewrite E0, E1, E2. split; [done|]. split.
  - unfold kids, st3, st2, st1, st0. cbn [heap with_contexts].
    rewrite !fmap_app, <- !app_assoc. simpl.
    by rewrite !(proj1 (built_children _ _ _)).
  - set (fr0 := {| tag := P; items := []; used := ∅ |}).
    assert (_with_contexts st0 !! tid = Some (below ++ [fr0])) as H0.
    { unfold st0. cbn [_with_contexts with_contexts]. by rewrite lookup_insert_eq. }
    assert (_with_contexts st1 !! tid = Some (below ++ [collect L fr0])) as H1.
    { unfold st1. cbn [_with_contexts]. rewrite E0.
      rewrite (on_top_snoc _ _ _ _ _ H0). by rewrite lookup_insert_eq. }
    assert (_with_contexts st2 !! tid
            = Some (below ++ [collect (S L) (collect L fr0)])) as H2.
    { unfold st2. cbn [_with_contexts]. rewrite E1.
      rewrite (on_top_snoc _ _ _ _ _ H1). by rewrite lookup_insert_eq. }
    unfold st3. cbn [_with_contexts]. rewrite E2.
    rewrite (on_top_snoc _ _ _ _ _ H2). by rewrite lookup_insert_eq.
Qed.

End Scoped.


Lemma closed_lone_div : closed lone_div.
Proof.
  intros [|i] cs c Hcs Hc; simpl in Hcs; [|done].
  injection Hcs as <-. by apply elem_of_nil in Hc.
Qed.


Example scoped_three_example :
  (let '(r, st) := scoped_three 2 0 0 p_x p_x p_x lone_div in (r, kids st))
  = (Ok (1, 2, 3),
     [[CTag 1; CTag 2; CTag 3]; [CStr "x"]; [CStr "x"]; [CStr "x"]]).
Proof. vm_compute. reflexivity. Qed.

Example scoped_three_add_example :
  (let '(r, st) := scoped_three_add 2 0 0 p_x p_x p_x 1 1 lone_div in (r, kids st))
  = (Ok (1, 2, 3),
     [[CTag 1; CTag 3]; [CStr "x"; CTag 2]; [CStr "x"]; [CStr "x"]]).
Proof. vm_compute. reflexivity. Qed.

(** ** More runs of the model *)

Example render_hr_example :
  (let '(r, st) := __init__ 1 0 {| cls_name := "hr"; cls_tagname := None;
                                   cls_single := true; cls_pretty := true;
                                   cls_inline := false |} [] [] initial in
   (r ≫= fun a => render 1 st a "  " true true,
    r ≫= fun a => render 1 st a "  " true false))
  = (Ok "<hr />", Ok "<hr>").
Proof. vm_compute. reflexivity. Qed.

(** [with div() as d: text("a < b"); b("c", __inline=True)], rendered. *)
Example render_scope_example :
  (let prog : M nat :=
     d ← __init__ 2 0 (plain_class "div") [] [];
     __enter__ 0 d ;;
     text_init 2 0 "a < b" true ;;
     __init__ 2 0 (plain_class "b") [Text "c"] [("__inline", KwBool true)] ;;
     __exit__ 2 0 d ;;
     mret d in
   let '(r, st) := prog initial in
   (r ≫= fun a => render 2 st a "  " true false, _with_contexts st))
  = (Ok "<div>a &lt; b<b>c</b></div>", ∅).
Proof. vm_compute. reflexivity. Qed.

Example index_access_example :
  (__getitem__ 0 (KInt 0) lone_div).1 = Raise IndexError /\
  (__getitem__ 0 (KStr "id") lone_div).1 = Raise AttributeError /\
  (set_attribute 0 (KInt 0) (CStr "x") lone_div).1 = Raise IndexError /\
  (let '(_, st) := set_attribute 0 (KStr "id") (AttrStr "x") lone_div in
   (__getitem__ 0 (KStr "id") st).1) = Ok (inr (AttrStr "x")).
Proof. repeat split; vm_compute; reflexivity. Qed.

(** ** More about [escape] and [unescape] *)

Section EscapeMore.

Lemma mem_app (c : ascii) (a b : string) :
  Str.mem c (a +:+ b) = Str.mem c a || Str.mem c b.
Proof.
  induction a as [|x a IH]; simpl; [done|]. rewrite IH. by rewrite orb_assoc.
Qed.

Lemma length_append (a b : string) :
  String.length (a +:+ b) = String.length a + String.length b.
Proof. induction a as [|x a IH]; simpl; [done|]. by rewrite IH. Qed.

Lemma mem_cons (x c : ascii) (s : string) :
  Str.mem x (String c s) = Ascii.eqb x c || Str.mem x s.
Proof. done. Qed.

Lemma mem_single (x c : ascii) : Str.mem x (String c "") = Ascii.eqb x c.
Proof. simpl. apply orb_false_r. Qed.

Lemma escape_char_cases (quote : bool) (c : ascii) :
  (Util.plain_char quote c = true /\ Util.escape_char quote c = String c "") \/
  (Util.plain_char quote c = false /\
   Util.escape_char quote c ∈ ["&amp;"; "&lt;"; "&gt;"; "&quot;"]).
Proof.
  unfold Util.plain_char, Util.escape_char.
  destruct (Ascii.eqb c "&"); [right; split; [done|set_solver]|].
  destruct (Ascii.eqb c "<"); [right; split; [done|set_solver]|].
  destruct (Ascii.eqb c ">"); [right; split; [done|set_solver]|].
  destruct (quote && Ascii.eqb c "034"); [right; split; [done|set_solver]|].
  by left.
Qed.

Lemma escape_app (a b : string) (quote : bool) :
  Util.escape (a +:+ b) quote = Util.escape a quote +:+ Util.escape b quote.
Proof.
  unfold Util.escape. destruct quote; by rewrite !replace_app.
Qed.

Lemma unescape_escape (s : string) (quote : bool) :
  Util.unescape (Util.escape s quote) = Some s.
Proof.
  induction s as [|c s IH]; [by destruct quote|].
  by rewrite escape_cons, unescape_escape_char, IH.
Qed.

End EscapeMore.

(** X1.  The text [escape] returns has no [<] and no [>] in it, and no
    quotation mark when [quote] is set, whatever the input. *)
Theorem escape_no_markup (s : string) (quote : bool) :
  Str.mem "<" (Util.escape s quote) = false /\
  Str.mem ">" (Util.escape s quote) = false /\
  (quote = true -> Str.mem "034" (Util.escape s quote) = false).
Proof.
  induction s as [|c s (IH1 & IH2 & IH3)]; [by destruct quote|].
  rewrite escape_cons, !mem_app, IH1, IH2.
  assert (Str.mem "<" (Util.escape_char quote c) = false /\
          Str.mem ">" (Util.escape_char quote c) = false /\
          (quote = true -> Str.mem "034" (Util.escape_char quote c) = false))
    as (-> & -> & H3).
  { unfold Util.escape_char.
    destruct (Ascii.eqb_spec c "&"); [done|].
    destruct (Ascii.eqb_spec c "<"); [done|].
    destruct (Ascii.eqb_spec c ">"); [done|].
    destruct quote; cbn [andb].
    - destruct (Ascii.eqb_spec c "034"); [done|].
      rewrite !mem_single. repeat split; try intros _; by apply Ascii.eqb_neq.
    - rewrite !mem_single. repeat split; try done; by apply Ascii.eqb_neq. }
  repeat split; try done. intros Hq. by rewrite (H3 Hq), (IH3 Hq).
Qed.

(** X2.  [escape] returns its argument unchanged exactly when the argument
    has none of the characters it replaces: [&], [<], [>] and, when [quote]
    is set, the quotation mark. *)
Theorem escape_fixpoint (s : string) (quote : bool) :
  Util.escape s quote = s <->
  Str.mem "&" s = false /\ Str.mem "<" s = false /\ Str.mem ">" s = false /\
  (quote = true -> Str.mem "034" s = false).
Proof.
  assert (forall t, String.length t <= String.length (Util.escape t quote)) as Hlen.
  { induction t as [|c t IH]; [by destruct quote|].
    rewrite escape_cons, length_append. simpl.
    destruct (escape_char_cases quote c) as [[_ ->]|[_ Hin]]; simpl; [lia|].
    repeat (apply elem_of_cons in Hin as [->|Hin]; [simpl; lia|]).
    by apply elem_of_nil in Hin. }
  induction s as [|c s IH]; [by destruct quote|].
  rewrite escape_cons, !mem_cons.
  destruct (escape_char_cases quote c) as [[Hp ->]|[Hp Hin]].
  - cbn [String.append]. unfold Util.plain_char in Hp.
    rewrite !andb_true_iff, !negb_true_iff in Hp. destruct Hp as [[[H1 H2] H3] H4].
    rewrite (Ascii.eqb_sym "&" c), (Ascii.eqb_sym "<" c), (Ascii.eqb_sym ">" c),
      (Ascii.eqb_sym "034" c), H1, H2, H3. cbn [orb]. split.
    + intros [= Heq]. apply IH in Heq as (? & ? & ? & Hq). repeat split; try done.
      intros ->. cbn [andb] in H4. rewrite H4. by apply Hq.
    + intros (? & ? & ? & Hq). f_equal. apply IH. repeat split; try done.
      intros ->. specialize (Hq eq_refl). cbn [andb] in H4. by rewrite H4 in Hq.
  - split.
    + intros Heq. exfalso.
      assert (String.length (Util.escape_char quote c +:+ Util.escape s quote)
              = S (String.length s)) as Hl by by rewrite Heq.
      rewrite length_append in Hl. specialize (Hlen s).
      repeat (apply elem_of_cons in Hin as [Hc|Hin]; [rewrite Hc in Hl; simpl in Hl; lia|]).
      by apply elem_of_nil in Hin.
    + intros (H1 & H2 & H3 & H4). exfalso. unfold Util.plain_char in Hp.
      apply orb_false_iff in H1 as [H1 _]. apply orb_false_iff in H2 as [H2 _].
      apply orb_false_iff in H3 as [H3 _].
      rewrite (Ascii.eqb_sym c "&"), (Ascii.eqb_sym c "<"), (Ascii.eqb_sym c ">"),
        H1, H2, H3 in Hp. cbn [negb andb] in Hp.
      destruct quote; [|done]. cbn [andb] in Hp. specialize (H4 eq_refl).
      apply orb_false_iff in H4 as [H4 _].
      by rewrite (Ascii.eqb_sym c "034"), H4 in Hp.
Qed.

(** X3.  Escaping a concatenation is concatenating the escapes, so text
    may be escaped piece by piece. *)
Theorem escape_concatenation (a b : string) (quote : bool) :
  Util.escape (a +:+ b) quote = Util.escape a quote +:+ Util.escape b quote.
Proof. apply escape_app. Qed.

Section UnescapeMore.

Lemma span_name_app (name rest : string) :
  Str.mem ";" name = false ->
  Util.span_name (name +:+ String ";" rest) = Some (name, rest).
Proof.
  induction name as [|c name IH]; intros H; [done|].
  rewrite mem_cons in H. apply orb_false_iff in H as [Hc H].
  cbn [String.append Util.span_name].
  rewrite Ascii.eqb_sym, Hc, (IH H). done.
Qed.

Lemma span_name_none (s : string) :
  Str.mem ";" s = false -> Util.span_name s = None.
Proof.
  induction s as [|c s IH]; intros H; [done|].
  rewrite mem_cons in H. apply orb_false_iff in H as [Hc H].
  cbn [Util.span_name]. by rewrite Ascii.eqb_sym, Hc, (IH H).
Qed.

Lemma span_digits_app (ds rest : string) :
  Str.all Str.is_digit ds = true ->
  Util.span_digits (ds +:+ String ";" rest) = (ds, String ";" rest).
Proof.
  induction ds as [|c ds IH]; intros H; [done|].
  cbn [Str.all] in H. apply andb_true_iff in H as [Hc H].
  cbn [String.append Util.span_digits]. by rewrite Hc, (IH H).
Qed.

Lemma span_digits_tail (s ds tl : string) :
  Util.span_digits s = (ds, tl) -> Str.mem ";" s = false -> Str.mem ";" tl = false.
Proof.
  revert ds tl. induction s as [|c s IH]; intros ds tl H Hs.
  - by injection H as <- <-.
  - cbn [Util.span_digits] in H. destruct (Str.is_digit c).
    + destruct (Util.span_digits s) as [ds' tl'] eqn:E. injection H as <- <-.
      rewrite mem_cons in Hs. apply orb_false_iff in Hs as [_ Hs]. by eapply IH.
    + by injection H as <- <-.
Qed.

Lemma match_entity_none (s : string) :
  Str.mem ";" s = false -> Util.match_entity s = None.
Proof.
  intros H. unfold Util.match_entity. rewrite (span_name_none s H).
  destruct s as [|c s]; [done|].
  destruct (Ascii.eqb_spec c "#") as [->|Hc].
  - rewrite mem_cons in H. apply orb_false_iff in H as [_ H].
    destruct (Util.span_digits s) as [ds tl] eqn:E.
    pose proof (span_digits_tail _ _ _ E H) as Htl.
    destruct ds as [|d ds]; [done|]. destruct tl as [|t tl]; [done|].
    rewrite mem_cons in Htl. apply orb_false_iff in Htl as [Ht _].
    destruct (Ascii.eqb_spec t ";") as [->|Hne]; [done|].
    by destruct t as [[] [] [] [] [] [] [] []].
  - by destruct c as [[] [] [] [] [] [] [] []].
Qed.

Lemma search_none (s : string) :
  Str.mem "&" s = false \/ Str.mem ";" s = false -> Util.search s = None.
Proof.
  induction s as [|c s IH]; intros H; [done|].
  cbn [Util.search]. rewrite IH.
  - destruct (Ascii.eqb_spec c "&") as [->|_]; [|done].
    destruct H as [H|H]; [done|].
    rewrite mem_cons in H. apply orb_false_iff in H as [_ H].
    by rewrite match_entity_none.
  - destruct H as [H|H]; rewrite mem_cons in H;
      apply orb_false_iff in H as [_ H]; auto.
Qed.

Lemma unescape_reference (e : Util.entity) (body rest : string) (code : N) :
  Util.match_entity (body +:+ String ";" rest) = Some (e, rest) ->
  Util.entity_code e = Some code ->
  (code < 256)%N ->
  Util.unescape (String "&" (body +:+ String ";" rest))
  = String (ascii_of_N code) <$> Util.unescape rest.
Proof.
  intros Hm He Hlt.
  rewrite (unescape_unfold (String "&" _)). cbn [Util.search].
  rewrite Hm. cbn [Ascii.eqb Bool.eqb]. rewrite He. simpl. unfold Util.unichr.
  apply N.ltb_lt in Hlt. rewrite Hlt. simpl.
  by destruct (Util.unescape rest).
Qed.

Lemma unescape_reference_refused (e : Util.entity) (body rest : string) :
  Util.match_entity (body +:+ String ";" rest) = Some (e, rest) ->
  Util.entity_code e = None ->
  Util.unescape (String "&" (body +:+ String ";" rest)) = None.
Proof.
  intros Hm He.
  rewrite (unescape_unfold (String "&" _)). cbn [Util.search].
  rewrite Hm. cbn [Ascii.eqb Bool.eqb]. by rewrite He.
Qed.

Lemma _unescape_codes (name : string) (code : N) :
  Util._unescape !! name = Some code -> (code < 256)%N.
Proof.
  unfold Util._unescape. intros H.
  repeat (apply lookup_insert_Some in H as [[_ <-]|[_ H]]; [done|]).
  by rewrite lookup_empty in H.
Qed.

End UnescapeMore.

(** X4.  [unescape] returns a string that has no ampersand, or no
    semicolon, as it is: the pattern needs both. *)
Theorem unescape_without_reference (s : string) :
  Str.mem "&" s = false \/ Str.mem ";" s = false ->
  Util.unescape s = Some s.
Proof. intros H. by rewrite unescape_unfold, search_none. Qed.

Lemma unescape_without_reference_witness :
  (Str.mem "&" "fish & chips" = false \/ Str.mem ";" "fish & chips" = false) /\
  Util.unescape "fish & chips" = Some "fish & chips".
Proof.
  split; [by right|]. apply (unescape_without_reference "fish & chips"). by right.
Defined.

(** X5.  A numeric reference [&#N;], with [N] a run of at most 4300
    decimal digits whose value is a character of the model, is replaced by
    the character with code [N]; leading zeros are allowed.  With a run of
    more than 4300 digits, leading zeros counted, [int] raises
    [ValueError] and [unescape] returns nothing. *)
Theorem unescape_numeric_reference (digits rest : string) :
  digits <> "" ->
  Str.all Str.is_digit digits = true ->
  ((N.of_nat (String.length digits) <= 4300)%N ->
   (Util.digits_value digits < 256)%N ->
   Util.unescape ("&#" +:+ digits +:+ String ";" rest)
   = String (ascii_of_N (Util.digits_value digits)) <$> Util.unescape rest) /\
  ((4300 < N.of_nat (String.length digits))%N ->
   Util.unescape ("&#" +:+ digits +:+ String ";" rest) = None).
Proof.
  intros Hne Hd.
  assert (Util.match_entity (String "#" digits +:+ String ";" rest)
          = Some (Util.Numeric digits, rest)) as Hm.
  { unfold Util.match_entity. cbn [String.append].
    rewrite (span_digits_app _ _ Hd). by destruct digits. }
  split.
  - intros Hlen Hlt.
    apply (unescape_reference (Util.Numeric digits) (String "#" digits) rest);
      [done| |done].
    unfold Util.entity_code, Util.int_of_digits.
    apply N.ltb_ge in Hlen. by rewrite Hlen.
  - intros Hlen.
    apply (unescape_reference_refused (Util.Numeric digits) (String "#" digits) rest);
      [done|].
    unfold Util.entity_code, Util.int_of_digits.
    apply N.ltb_lt in Hlen. by rewrite Hlen.
Qed.

Lemma unescape_numeric_reference_witness :
  Util.unescape ("&#" +:+ "0065" +:+ String ";" "bc") = Some "Abc" /\
  Util.unescape ("&#" +:+ (Str.repeat "0" 4299 +:+ "65") +:+ String ";" "bc") = None.
Proof.
  split.
  - by apply (proj1 (unescape_numeric_reference "0065" "bc" ltac:(done) eq_refl)).
  - apply (proj2 (unescape_numeric_reference (Str.repeat "0" 4299 +:+ "65") "bc"
                    ltac:(by vm_compute) ltac:(by vm_compute))).
    by vm_compute.
Defined.

(** X6.  A named reference [&name;], where [name] is not empty, has no
    semicolon and does not start with [#], is replaced by the character the
    table [_unescape] gives for [name], and by a question mark when the
    table has no such name. *)
Theorem unescape_named_reference (name rest : string) :
  name <> "" ->
  Str.mem ";" name = false ->
  Str.startswith name "#" = false ->
  Util.unescape (String "&" (name +:+ String ";" rest))
  = String (ascii_of_N (default 63%N (Util._unescape !! name))) <$> Util.unescape rest.
Proof.
  intros Hne Hsemi Hhash.
  apply (unescape_reference (Util.Named name) name rest); [|done|].
  - unfold Util.match_entity. rewrite (span_name_app _ _ Hsemi).
    destruct name as [|c name]; [done|]. cbn [String.append].
    destruct (Ascii.eqb_spec c "#") as [->|Hc].
    { unfold Str.startswith in Hhash. cbn in Hhash. by destruct name. }
    by destruct c as [[] [] [] [] [] [] [] []].
  - destruct (Util._unescape !! name) as [code|] eqn:E; simpl; [|done].
    by eapply _unescape_codes.
Qed.

Lemma unescape_named_reference_witness :
  Util.unescape (String "&" ("nbsp" +:+ String ";" "x")) = Some " x" /\
  Util.unescape (String "&" ("copy" +:+ String ";" "x")) = Some "?x".
Proof.
  split.
  - by apply (unescape_named_reference "nbsp" "x").
  - by apply (unescape_named_reference "copy" "x").
Defined.

(** ** More about [url_escape] and [url_unescape] *)

Section UrlMore.

Lemma percent_encoded_unreserved (c d : ascii) :
  Str.mem c Util._reserved = true -> Str.mem c (Util.percent_encoded d) = false.
Proof.
  intros Hc.
  assert (c ∈ [";"; "/"; "?"; ":"; "@"; "&"; "="; "+"; "$"; ","; " "]%char) as Hin.
  { destruct c as [[] [] [] [] [] [] [] []]; try done; set_solver. }
  clear Hc.
  repeat (apply elem_of_cons in Hin as [->|Hin];
          [by destruct d as [[] [] [] [] [] [] [] []]|]).
  by apply elem_of_nil in Hin.
Qed.

Lemma hex_digit_unreserved (h : ascii) (v : N) :
  Util.hex_value h = Some v -> Str.mem h Util._reserved = false.
Proof. by destruct h as [[] [] [] [] [] [] [] []]. Qed.

End UrlMore.

(** X7.  No reserved character is left in what [url_escape] returns: each
    one has become a percent sign and two hexadecimal digits. *)
Theorem url_escape_no_reserved (s : string) (c : ascii) :
  Str.mem c Util._reserved = true -> Str.mem c (Util.url_escape s) = false.
Proof.
  intros Hc. induction s as [|d s IH]; [done|].
  rewrite url_escape_cons, mem_app, IH, orb_false_r, url_escape_char.
  change ";/?:@&=+$, " with Util._reserved.
  destruct (Str.mem d Util._reserved) eqn:Hd.
  - by apply percent_encoded_unreserved.
  - rewrite mem_single. apply Ascii.eqb_neq. intros ->. congruence.
Qed.

Lemma url_escape_no_reserved_witness :
  Str.mem "/" Util._reserved = true /\
  Str.mem "/" (Util.url_escape "a/b c/d") = false.
Proof. split; [done|]. by apply (url_escape_no_reserved "a/b c/d" "/"). Defined.

(** X8.  [url_escape] does not escape the percent sign: an input that
    already holds a percent sign and two hexadecimal digits comes back from
    [url_unescape(url_escape(...))] with the three characters replaced by
    the character they spell. *)
Theorem url_roundtrip_decodes_percent (h1 h2 : ascii) (v1 v2 : N) (s : string) :
  Util.hex_value h1 = Some v1 ->
  Util.hex_value h2 = Some v2 ->
  Util.url_unescape (Util.url_escape (String "%" (String h1 (String h2 s))))
  = String (ascii_of_N (16 * v1 + v2)) (Util.url_unescape (Util.url_escape s)).
Proof.
  intros H1 H2.
  rewrite (url_escape_cons "%"), (url_escape_cons h1), (url_escape_cons h2).
  rewrite !url_escape_char.
  change ";/?:@&=+$, " with Util._reserved.
  rewrite (hex_digit_unreserved _ _ H1), (hex_digit_unreserved _ _ H2).
  change (Str.mem "%" Util._reserved) with false.
  cbn [String.append Util.url_unescape Ascii.eqb Bool.eqb].
  by rewrite H1, H2.
Qed.

Lemma url_roundtrip_decodes_percent_witness :
  Util.url_unescape (Util.url_escape "%41bc") = "Abc".
Proof. by apply (url_roundtrip_decodes_percent "4" "1" 4 1 "bc"). Defined.

(** X9.  [url_unescape] returns a string without a percent sign as it
    is. *)
Theorem url_unescape_without_percent (s : string) :
  Str.mem "%" s = false -> Util.url_unescape s = s.
Proof.
  induction s as [|c s IH]; intros H; [done|].
  rewrite mem_cons in H. apply orb_false_iff in H as [Hc H].
  rewrite url_unescape_cons_plain, (IH H); [done|].
  intros ->. done.
Qed.

Lemma url_unescape_without_percent_witness :
  Str.mem "%" "a+b=c" = false /\ Util.url_unescape "a+b=c" = "a+b=c".
Proof. split; [done|]. by apply (url_unescape_without_percent "a+b=c"). Defined.

(** ** More about attribute names *)

Section CleanAttributeMore.

Lemma prefix_split (p k : string) :
  String.prefix p k = true -> exists r, k = p +:+ r.
Proof.
  revert k. induction p as [|a p IH]; intros k H; [by exists k|].
  destruct k as [|b k]; [done|]. simpl in H.
  destruct (ascii_dec a b) as [->|]; [|done].
  destruct (IH k H) as [r ->]. by exists r.
Qed.

Lemma startswith_needs_underscore (k p : string) :
  Str.mem "_" k = false -> Str.mem "_" p = true -> Str.startswith k p = false.
Proof.
  intros Hk Hp. unfold Str.startswith.
  destruct (String.prefix p k) eqn:E; [|done].
  apply prefix_split in E as [r ->]. rewrite mem_app, Hp in Hk. done.
Qed.

Lemma split_head_whole (k : string) :
  Str.mem "_" k = false -> Str.split_head "_" k = k.
Proof.
  induction k as [|c k IH]; intros H; [done|].
  rewrite mem_cons in H. apply orb_false_iff in H as [Hc H].
  cbn [Str.split_head]. by rewrite Ascii.eqb_sym, Hc, (IH H).
Qed.

Lemma replace_count_absent (old : ascii) (new : string) (count : option nat)
    (k : string) :
  Str.mem old k = false -> Str.replace_count old new count k = k.
Proof.
  revert count. induction k as [|c k IH]; intros count H; [done|].
  rewrite mem_cons in H. apply orb_false_iff in H as [Hc H].
  cbn [Str.replace_count]. rewrite Ascii.eqb_sym, Hc, (IH _ H).
  by destruct count as [[|?]|].
Qed.

Lemma shorthand_keys (k v : string) :
  shorthand !! k = Some v ->
  k ∈ ["htmlFor"; "html_for"; "fr"; "class_name"; "className"; "cls"].
Proof.
  unfold shorthand. intros H.
  repeat (apply lookup_insert_Some in H as [[<- _]|[_ H]]; [set_solver|]).
  by rewrite lookup_empty in H.
Qed.

End CleanAttributeMore.

(** X10.  [clean_attribute] raises [IndexError] on the empty name and
    returns a name for every other one. *)
Theorem clean_attribute_raises_on_empty (k : string) :
  (k = "" -> clean_attribute k = Raise IndexError) /\
  (k <> "" -> exists k', clean_attribute k = Ok k').
Proof. split; [by intros ->|apply clean_attribute_ok]. Qed.

(** X11.  A name that starts with [data_] or [aria_] is spelled with
    dashes for all its underscores and in small letters, as [str.lower]
    makes them: the capitals A-Z and those of Latin-1. *)
Theorem clean_attribute_data_aria (rest : string) :
  clean_attribute ("data_" +:+ rest)
  = Ok ("data-" +:+ Str.lower (Str.replace "_" "-" rest)) /\
  clean_attribute ("aria_" +:+ rest)
  = Ok ("aria-" +:+ Str.lower (Str.replace "_" "-" rest)).
Proof.
  assert (forall p : string, p = "data_" \/ p = "aria_" ->
            shorthand !! (p +:+ rest) = None) as Hs.
  { intros p Hp. destruct (shorthand !! (p +:+ rest)) as [v|] eqn:E; [|done].
    apply shorthand_keys in E.
    repeat (apply elem_of_cons in E as [E|E];
            [destruct Hp as [-> | ->]; discriminate E|]).
    by apply elem_of_nil in E. }
  assert (forall t : string, Str.mem "_" (Str.lower (Str.replace "_" "-" t)) = false)
    as Hno.
  { induction t as [|c t IH]; [done|].
    assert (Str.lower (Str.replace "_" "-" (String c t))
            = String (Str.lower_char (if Ascii.eqb c "_" then "-"%char else c))
                (Str.lower (Str.replace "_" "-" t))) as ->.
    { unfold Str.replace, Str.lower. cbn [Str.replace_count].
      by destruct (Ascii.eqb c "_"). }
    rewrite mem_cons, IH, orb_false_r.
    by destruct c as [[] [] [] [] [] [] [] []]. }
  assert (forall p t : string, p = "data-" \/ p = "aria-" ->
            Str.mem "_" t = false ->
            bool_decide (Str.split_head "_" (p +:+ t) ∈ ["xlink"; "xml"; "xmlns"]) = false)
    as Hx.
  { intros p t Hp Ht. apply bool_decide_eq_false.
    rewrite split_head_whole
      by (rewrite mem_app, Ht; by destruct Hp as [-> | ->]).
    intros E.
    repeat (apply elem_of_cons in E as [E|E];
            [destruct Hp as [-> | ->]; discriminate E|]).
    by apply elem_of_nil in E. }
  assert (forall p t : string, Str.startswith (p +:+ t) p = true) as Hp.
  { intros p t. unfold Str.startswith. induction p as [|a p IH]; [by destruct t|].
    simpl. by destruct (ascii_dec a a). }
  split.
  - unfold clean_attribute. rewrite (Hs "data_") by auto.
    cbn [default from_option id].
    change ("data_" +:+ rest) with (String "d" ("ata_" +:+ rest)) at 1.
    cbv iota beta.
    change (String "d" ("ata_" +:+ rest)) with ("data_" +:+ rest).
    change (Ascii.eqb "d" "_") with false. cbv iota.
    rewrite (Hp "data_"), orb_true_r. cbv iota.
    change (Str.lower (Str.replace "_" "-" ("data_" +:+ rest)))
      with ("data-" +:+ Str.lower (Str.replace "_" "-" rest)).
    by rewrite (Hx "data-") by auto.
  - unfold clean_attribute. rewrite (Hs "aria_") by auto.
    cbn [default from_option id].
    change ("aria_" +:+ rest) with (String "a" ("ria_" +:+ rest)) at 1.
    cbv iota beta.
    change (String "a" ("ria_" +:+ rest)) with ("aria_" +:+ rest).
    change (Ascii.eqb "a" "_") with false. cbv iota.
    rewrite (Hp "aria_"), !orb_true_r. cbv iota.
    change (Str.lower (Str.replace "_" "-" ("aria_" +:+ rest)))
      with ("aria-" +:+ Str.lower (Str.replace "_" "-" rest)).
    by rewrite (Hx "aria-") by auto.
Qed.

(** [data_] followed by a capital A with grave accent, an underscore and
    [B]. *)
Example clean_attribute_latin1_example :
  clean_attribute ("data_" +:+ String "192" "_B")
  = Ok ("data-" +:+ String "224" "-b").
Proof. reflexivity. Qed.

(** X12.  A name without an underscore that is not one of the shorthands
    [cls], [className], [fr], [htmlFor] comes back from [clean_attribute]
    as it is. *)
Theorem clean_attribute_plain_name (k : string) :
  k <> "" ->
  Str.mem "_" k = false ->
  shorthand !! k = None ->
  clean_attribute k = Ok k.
Proof.
  intros Hne Hu Hs. unfold clean_attribute. rewrite Hs.
  cbn [default from_option id].
  destruct k as [|c k]; [done|].
  pose proof Hu as Hu'. rewrite mem_cons in Hu'.
  apply orb_false_iff in Hu' as [Hc _].
  rewrite Ascii.eqb_sym, Hc.
  rewrite !(startswith_needs_underscore _ _ Hu) by done.
  rewrite (bool_decide_eq_false_2 (String c k = "http_equiv"))
    by (intros E; by rewrite E in Hu).
  cbn [orb]. rewrite (split_head_whole _ Hu).
  rewrite (replace_count_absent _ _ _ _ Hu).
  destruct (bool_decide _) eqn:E; [|done].
  apply bool_decide_eq_true in E.
  repeat (apply elem_of_cons in E as [->|E]; [done|]).
  by apply elem_of_nil in E.
Qed.

Lemma clean_attribute_plain_name_witness :
  clean_attribute "href" = Ok "href" /\ clean_attribute "xml" = Ok "xml".
Proof.
  split.
  - by apply (clean_attribute_plain_name "href").
  - by apply (clean_attribute_plain_name "xml").
Defined.

(** ** More about the indexing interface *)

Section IndexingMore.

Lemma dict_get_del_ne {V} (d : dict V) (k k' : string) :
  k' <> k -> dict_get (dict_del d k) k' = dict_get d k'.
Proof.
  intros Hne. induction d as [|[k0 v0] d IH]; [done|].
  cbn [dict_del dict_get]. destruct (decide (k0 = k)) as [->|H0].
  - by rewrite decide_False by done.
  - cbn [dict_get]. by rewrite IH.
Qed.

Lemma dict_get_del_eq {V} (d : dict V) (k : string) :
  NoDup d.*1 -> dict_get (dict_del d k) k = None.
Proof.
  induction d as [|[k0 v0] d IH]; intros Hd; [done|].
  rewrite fmap_cons in Hd. apply NoDup_cons in Hd as [Hk0 Hd].
  cbn [dict_del]. destruct (decide (k0 = k)) as [->|H0].
  - destruct (dict_get d k) as [v|] eqn:E; [|done].
    destruct Hk0. apply list_elem_of_fmap. exists (k, v). split; [done|].
    by apply dict_get_elem_of.
  - cbn [dict_get]. rewrite decide_False by done. by apply IH.
Qed.

Lemma list_index_lt (len : nat) (i : Z) (j : nat) :
  list_index len i = Some j ->
  j < len /\
  (Z.of_nat j = i \/ (Z.of_nat j = Z.of_nat len + i)%Z /\ (i < 0)%Z).
Proof.
  unfold list_index. intros H.
  destruct (Z.leb_spec 0 i), (Z.ltb_spec i (Z.of_nat len)); simpl in H;
    try (injection H as <-; lia).
  - destruct (Z.leb_spec (- Z.of_nat len) i), (Z.ltb_spec i 0); simpl in H;
      try done; lia.
  - destruct (Z.leb_spec (- Z.of_nat len) i), (Z.ltb_spec i 0); simpl in H;
      try done; injection H as <-; lia.
  - destruct (Z.leb_spec (- Z.of_nat len) i), (Z.ltb_spec i 0); simpl in H;
      try done; injection H as <-; lia.
Qed.

Lemma del_slice_one {A} (l : list A) (i : Z) (j : nat) :
  list_index (length l) i = Some j -> i <> (-1)%Z ->
  del_slice l i (i + 1) = delete j l.
Proof.
  intros H Hi. apply list_index_lt in H as [Hj Hij].
  unfold del_slice, slice_bound. rewrite delete_take_drop.
  destruct Hij as [Hij|[Hij Hneg]].
  - destruct (Z.ltb_spec i 0); [lia|]. destruct (Z.ltb_spec (i + 1) 0); [lia|].
    replace (Z.to_nat (Z.min i (Z.of_nat (length l)))) with j by lia.
    replace (Z.to_nat (Z.min (i + 1) (Z.of_nat (length l)))) with (S j) by lia.
    by replace (j `max` S j) with (S j) by lia.
  - destruct (Z.ltb_spec i 0); [|lia]. destruct (Z.ltb_spec (i + 1) 0); [|lia].
    replace (Z.to_nat (Z.max 0 (i + Z.of_nat (length l)))) with j by lia.
    replace (Z.to_nat (Z.max 0 (i + 1 + Z.of_nat (length l)))) with (S j) by lia.
    by replace (j `max` S j) with (S j) by lia.
Qed.

Lemma del_slice_last {A} (l : list A) : del_slice l (-1) (-1 + 1) = l.
Proof.
  unfold del_slice, slice_bound. simpl.
  replace (Z.to_nat ((-1 + 1) `min` Z.of_nat (length l))) with 0 by lia.
  rewrite Nat.max_0_r. apply take_drop.
Qed.

End IndexingMore.

(** X13.  After [node[k] = v] with a string [k], [node[k]] is [v], every
    other attribute of the node reads as before, and no other tag has
    changed. *)
Theorem attribute_write_read (st : state) (self : nat) (n : dom_tag)
    (k : string) (v : attr_value) :
  heap st !! self = Some n ->
  exists st',
    set_attribute self (KStr k) v st = (Ok tt, st') /\
    __getitem__ self (KStr k) st' = (Ok (inr v), st') /\
    (forall k', k' <> k ->
       (__getitem__ self (KStr k') st').1 = (__getitem__ self (KStr k') st).1) /\
    (forall other, other <> self -> heap st' !! other = heap st !! other).
Proof.
  intros Hn. eexists. split; [by apply update_tag_ok|].
  set (n' := with_attributes n (dict_set (attributes n) k v)).
  assert (heap (with_heap st (<[self := n']> (heap st))) !! self = Some n') as Hn'.
  { simpl. apply list_lookup_insert_eq. by apply lookup_lt_Some in Hn. }
  split; [|split].
  - unfold __getitem__. erewrite bind_ok; [|by apply get_tag_ok].
    simpl. rewrite dict_get_set. by rewrite decide_True.
  - intros k' Hk'. unfold __getitem__.
    erewrite bind_ok; [|by apply get_tag_ok].
    erewrite (bind_ok _ _ st); [|by apply get_tag_ok].
    simpl. rewrite dict_get_set, decide_False by done.
    by destruct (dict_get (attributes n) k').
  - intros other Hne. simpl. by rewrite list_lookup_insert_ne.
Qed.

Lemma attribute_write_read_witness :
  exists st',
    set_attribute 0 (KStr "id") (AttrStr "x") lone_div = (Ok tt, st') /\
    __getitem__ 0 (KStr "id") st' = (Ok (inr (AttrStr "x")), st') /\
    (forall k', k' <> "id" ->
       (__getitem__ 0 (KStr k') st').1 = (__getitem__ 0 (KStr k') lone_div).1) /\
    (forall other, other <> 0 -> heap st' !! other = heap lone_div !! other).
Proof. exact (attribute_write_read lone_div 0 bare_div "id" (AttrStr "x") eq_refl). Defined.

(** X14.  After [del node[k]] for an attribute [k] of the node, [node[k]]
    raises [AttributeError] and every other attribute reads as before. *)
Theorem attribute_delete_read (st : state) (self : nat) (n : dom_tag)
    (k : string) (v : attr_value) :
  heap st !! self = Some n ->
  NoDup (attributes n).*1 ->
  dict_get (attributes n) k = Some v ->
  exists st',
    delete_attribute self (KStr k) st = (Ok tt, st') /\
    __getitem__ self (KStr k) st' = (Raise AttributeError, st') /\
    (forall k', k' <> k ->
       (__getitem__ self (KStr k') st').1 = (__getitem__ self (KStr k') st).1).
Proof.
  intros Hn Hnd Hk. eexists. split.
  { unfold delete_attribute. erewrite bind_ok; [|by apply get_tag_ok].
    rewrite Hk. reflexivity. }
  set (n' := with_attributes n (dict_del (attributes n) k)).
  assert (heap (with_heap st (<[self := n']> (heap st))) !! self = Some n') as Hn'.
  { simpl. apply list_lookup_insert_eq. by apply lookup_lt_Some in Hn. }
  split.
  - unfold __getitem__. erewrite bind_ok; [|by apply get_tag_ok].
    simpl. by rewrite dict_get_del_eq.
  - intros k' Hk'. unfold __getitem__.
    erewrite bind_ok; [|by apply get_tag_ok].
    erewrite (bind_ok _ _ st); [|by apply get_tag_ok].
    simpl. rewrite dict_get_del_ne by done.
    by destruct (dict_get (attributes n) k').
Qed.

Lemma attribute_delete_read_witness :
  let st := {| heap := [with_attributes bare_div [("id", AttrStr "x")]];
               _with_contexts := ∅ |} in
  exists st',
    delete_attribute 0 (KStr "id") st = (Ok tt, st') /\
    __getitem__ 0 (KStr "id") st' = (Raise AttributeError, st') /\
    (forall k', k' <> "id" ->
       (__getitem__ 0 (KStr k') st').1 = (__getitem__ 0 (KStr k') st).1).
Proof.
  apply (attribute_delete_read _ 0 (with_attributes bare_div [("id", AttrStr "x")])
           "id" (AttrStr "x")).
  - reflexivity.
  - simpl. apply NoDup_singleton.
  - reflexivity.
Defined.

(** X15.  [del node[i]] with an integer that names a child removes that
    child and no other, except that [del node[-1]] removes nothing: the
    slice [children[-1:0]] is empty although [node[-1]] is the last
    child. *)
Theorem child_delete (st : state) (self : nat) (n : dom_tag) :
  heap st !! self = Some n ->
  (forall (i : Z) (j : nat),
     list_index (length (children n)) i = Some j -> i <> (-1)%Z ->
     delete_attribute self (KInt i) st =
     (Ok tt, with_heap st (<[self := with_children n (delete j (children n))]> (heap st)))) /\
  delete_attribute self (KInt (-1)) st = (Ok tt, st).
Proof.
  intros Hn. split.
  - intros i j Hij Hi. unfold delete_attribute.
    by rewrite (update_tag_ok _ _ _ _ Hn), (del_slice_one _ _ _ Hij Hi).
  - unfold delete_attribute.
    rewrite (update_tag_ok _ _ _ _ Hn), del_slice_last, with_children_id.
    by rewrite list_insert_id, with_heap_id.
Qed.

Lemma child_delete_witness :
  let n := with_children bare_div [CStr "a"; CStr "b"; CStr "c"] in
  let st := {| heap := [n]; _with_contexts := ∅ |} in
  (forall (i : Z) (j : nat),
     list_index 3 i = Some j -> i <> (-1)%Z ->
     delete_attribute 0 (KInt i) st =
     (Ok tt, with_heap st (<[0 := with_children n (delete j (children n))]> (heap st)))) /\
  delete_attribute 0 (KInt (-1)) st = (Ok tt, st).
Proof.
  exact (child_delete
           {| heap := [with_children bare_div [CStr "a"; CStr "b"; CStr "c"]];
              _with_contexts := ∅ |}
           0 (with_children bare_div [CStr "a"; CStr "b"; CStr "c"]) eq_refl).
Defined.

(** X16.  [node[i] = v] with an integer that names a child, from the front
    or (negative) from the back, replaces that child, and [node[i]] is then
    [v]; with an integer that names no child it raises [IndexError] and
    leaves the store as it was. *)
Theorem child_write_read (st : state) (self : nat) (n : dom_tag) :
  heap st !! self = Some n ->
  (forall (i : Z) (j : nat) (v : child),
     list_index (length (children n)) i = Some j ->
     exists st',
       set_attribute self (KInt i) v st = (Ok tt, st') /\
       kids st' !! self = Some (<[j := v]> (children n)) /\
       __getitem__ self (KInt i) st' = (Ok (inl v), st')) /\
  (forall (i : Z) (v : child),
     list_index (length (children n)) i = None ->
     set_attribute self (KInt i) v st = (Raise IndexError, st)).
Proof.
  intros Hn. split.
  - intros i j v Hij. eexists. split.
    { unfold set_attribute. erewrite bind_ok; [|by apply get_tag_ok].
      rewrite Hij. reflexivity. }
    set (n' := with_children n (<[j := v]> (children n))).
    assert (heap (with_heap st (<[self := n']> (heap st))) !! self = Some n') as Hn'.
    { simpl. apply list_lookup_insert_eq. by apply lookup_lt_Some in Hn. }
    split.
    + apply kids_lookup. by exists n'.
    + unfold __getitem__. erewrite bind_ok; [|by apply get_tag_ok].
      simpl. rewrite length_insert, Hij. simpl.
      rewrite list_lookup_insert_eq; [done|].
      by apply list_index_lt in Hij as [? _].
  - intros i v Hi. unfold set_attribute.
    erewrite bind_ok; [|by apply get_tag_ok]. by rewrite Hi.
Qed.

Lemma child_write_read_witness :
  let n := with_children bare_div [CStr "a"; CStr "b"; CStr "c"] in
  let st := {| heap := [n]; _with_contexts := ∅ |} in
  (forall (i : Z) (j : nat) (v : child),
     list_index 3 i = Some j ->
     exists st',
       set_attribute 0 (KInt i) v st = (Ok tt, st') /\
       kids st' !! 0 = Some (<[j := v]> (children n)) /\
       __getitem__ 0 (KInt i) st' = (Ok (inl v), st')) /\
  (forall (i : Z) (v : child),
     list_index 3 i = None ->
     set_attribute 0 (KInt i) v st = (Raise IndexError, st)).
Proof.
  exact (child_write_read
           {| heap := [with_children bare_div [CStr "a"; CStr "b"; CStr "c"]];
              _with_contexts := ∅ |}
           0 (with_children bare_div [CStr "a"; CStr "b"; CStr "c"]) eq_refl).
Defined.

(** ** More about [add] *)

Section AddMore.

Lemma bind_ret_tt (m : M unit) (st : state) : (m ;; mret tt) st = m st.
Proof.
  unfold mbind, M_bind, mret, M_ret.
  by destruct (m st) as [[[]| | |] st'].
Qed.

Lemma for_each_app {A} (l1 l2 : list A) (body : A -> M unit) (st : state) :
  for_each (l1 ++ l2) body st = (for_each l1 body ;; for_each l2 body) st.
Proof.
  revert st. induction l1 as [|x l1 IH]; intros st; [done|].
  change (for_each ((x :: l1) ++ l2) body)
    with (body x ;; for_each (l1 ++ l2) body).
  change (for_each (x :: l1) body) with (body x ;; for_each l1 body).
  unfold mbind, M_bind in *.
  destruct (body x st) as [[[]| | |] st1]; try done; apply IH.
Qed.

Lemma for_each_ext {A} (l : list A) (f g : A -> M unit) (st : state) :
  Forall (fun x => forall st0, f x st0 = g x st0) l ->
  for_each l f st = for_each l g st.
Proof.
  intros H. revert st. induction H as [|x l Hx _ IH]; intros st; [done|].
  change (for_each (x :: l) f) with (f x ;; for_each l f).
  change (for_each (x :: l) g) with (g x ;; for_each l g).
  unfold mbind, M_bind. rewrite Hx.
  destruct (g x st) as [[[]| | |] st1]; try done; apply IH.
Qed.

(** Induction on an argument of [add], through the iterables. *)
Fixpoint addable_nested_ind (P : addable -> Prop)
    (HNum : forall n, P (Num n)) (HText : forall s, P (Text s))
    (HNode : forall a, P (Node a)) (HDict : forall d, P (Dict d))
    (HIter : forall l, Forall P l -> P (Iter l)) (HOther : P Other)
    (obj : addable) : P obj :=
  match obj with
  | Num n => HNum n
  | Text s => HText s
  | Node a => HNode a
  | Dict d => HDict d
  | Iter l =>
      HIter l
        ((fix all (l : list addable) : Forall P l :=
            match l with
            | [] => @List.Forall_nil addable P
            | x :: rest =>
                @List.Forall_cons addable P x rest
                  (addable_nested_ind P HNum HText HNode HDict HIter HOther x)
                  (all rest)
            end) l)
  | Other => HOther
  end.

Lemma for_each_flatten (l : list addable) (f : addable -> M unit) (st : state) :
  for_each (concat (map flatten l)) f st
  = for_each l (fun x => for_each (flatten x) f) st.
Proof.
  revert st. induction l as [|x l IH]; intros st; [done|].
  cbn [map concat]. rewrite for_each_app.
  change (for_each (x :: l) (fun x => for_each (flatten x) f))
    with (for_each (flatten x) f ;; for_each l (fun x => for_each (flatten x) f)).
  unfold mbind, M_bind.
  destruct (for_each (flatten x) f st) as [[[]| | |] st1]; try done; apply IH.
Qed.

End AddMore.

(** X17.  [add] opens up iterables to any depth: adding an argument has
    the effect, and the outcome, of adding one after the other the strings,
    numbers, tags, mappings and other values that [flatten] finds in it. *)
Theorem add_flattens (fuel : nat) (tid : Z) (self : nat) (obj : addable)
    (st : state) :
  add_obj fuel tid self obj st
  = for_each (flatten obj) (add_obj fuel tid self) st.
Proof.
  revert st.
  induction obj as [n|s|a|d|l IH|] using addable_nested_ind; intros st;
    try (cbn [flatten]; symmetry; apply bind_ret_tt).
  cbn [flatten add_obj]. rewrite for_each_flatten.
  apply for_each_ext. eapply Forall_impl; [exact IH|]. done.
Qed.

(** X18.  [add] does not undo what it did when an argument is refused: if
    strings and numbers are followed by a value that is none of the kinds
    [add] knows, the call raises [ValueError], the strings and numbers
    before it are children of the tag, and no later argument is looked
    at. *)
Theorem add_stops_at_unknown (fuel : nat) (tid : Z) (self : nat) (n : dom_tag)
    (before after : list addable) (st : state) :
  heap st !! self = Some n ->
  Forall text_like before ->
  add fuel tid self (before ++ Other :: after) st =
  (Raise ValueError,
   with_heap st (<[self := with_children n (children n ++ text_children before)]>
                   (heap st))).
Proof.
  intros Hn Hb. unfold add.
  unfold mbind at 1, M_bind at 1. rewrite for_each_app.
  erewrite bind_ok; [|by apply add_text_like].
  reflexivity.
Qed.

Lemma add_stops_at_unknown_witness :
  add 1 0 0 ([Text "a"; Num 2] ++ Other :: [Text "b"]) lone_div =
  (Raise ValueError,
   with_heap lone_div
     (<[0 := with_children bare_div
               (children bare_div ++ text_children [Text "a"; Num 2])]>
        (heap lone_div))).
Proof.
  apply (add_stops_at_unknown 1 0 0 bare_div [Text "a"; Num 2] [Text "b"] lone_div).
  - reflexivity.
  - repeat constructor.
Defined.

(** ** More about the contexts *)

Section ContextsMore.

Context (tid other : Z) (Hother : tid <> other).

Lemma keeps_ret {A} (a : A) : keeps other (mret a).
Proof. done. Qed.

Lemma keeps_raise {A} (e : exn) : keeps other (raise (A := A) e).
Proof. done. Qed.

Lemma keeps_bind {A B} (m : M A) (f : A -> M B) :
  keeps other m -> (forall a, keeps other (f a)) -> keeps other (m ≫= f).
Proof.
  intros Hm Hf st. unfold mbind, M_bind. specialize (Hm st).
  destruct (m st) as [[a| | |] st1]; simpl in *; try done.
  by rewrite (Hf a st1).
Qed.

Lemma keeps_get_tag (a : nat) : keeps other (get_tag a).
Proof. intros st. unfold get_tag. by destruct (heap st !! a). Qed.

Lemma keeps_put_tag (a : nat) (n : dom_tag) : keeps other (put_tag a n).
Proof. done. Qed.

Lemma keeps_update_tag (a : nat) (f : dom_tag -> dom_tag) : keeps other (update_tag a f).
Proof. apply keeps_bind; [apply keeps_get_tag|intros; apply keeps_put_tag]. Qed.

Lemma keeps_lift {A} (o : outcome A) : keeps other (lift o).
Proof. done. Qed.

Lemma keeps_for_each {A} (l : list A) (body : A -> M unit) :
  Forall (fun x => keeps other (body x)) l -> keeps other (for_each l body).
Proof.
  induction 1 as [|x l Hx _ IH]; [done|].
  change (for_each (x :: l) body) with (body x ;; for_each l body).
  by apply keeps_bind.
Qed.

Lemma keeps_on_top_frame (f : frame -> frame) : keeps other (on_top_frame tid f).
Proof.
  intros st. rewrite on_top_frame_spec. simpl. unfold on_top.
  destruct (_with_contexts st !! tid) as [stack|]; [|done].
  destruct (top stack); [|done]. by rewrite lookup_insert_ne.
Qed.

Lemma keeps_setdocument (fuel : nat) (a : nat) (doc : option nat) :
  keeps other (setdocument fuel a doc).
Proof. intros st. by rewrite (proj2 (setdocument_kids fuel a doc st)). Qed.

Lemma keeps_set_attribute (self : nat) (k : key) (v : value_for k) :
  keeps other (set_attribute self k v).
Proof.
  destruct k as [i|s|h]; simpl.
  - apply keeps_bind; [apply keeps_get_tag|]. intros n.
    destruct (list_index _ _); [apply keeps_put_tag|apply keeps_raise].
  - apply keeps_update_tag.
  - apply keeps_raise.
Qed.

Lemma keeps_set_pairs (self : nat) (d : dict kw_value) :
  keeps other (for_each d (fun '(attr, value) =>
           '(k, v) ← lift (clean_pair attr value);
           set_attribute self (KStr k) v)).
Proof.
  apply keeps_for_each, Forall_forall. intros [attr value] _.
  apply keeps_bind; [apply keeps_lift|]. intros [k v].
  apply (keeps_set_attribute self (KStr k) v).
Qed.

Lemma keeps_add_obj (fuel : nat) (self : nat) (obj : addable) :
  keeps other (add_obj fuel tid self obj).
Proof.
  induction obj as [n|s|a|d|l IH|] using addable_nested_ind; cbn [add_obj].
  - apply keeps_update_tag.
  - apply keeps_update_tag.
  - apply keeps_bind; [apply keeps_on_top_frame|]. intros _.
    apply keeps_bind; [apply keeps_update_tag|]. intros _.
    apply keeps_bind; [apply keeps_update_tag|]. intros _.
    apply keeps_bind; [apply keeps_get_tag|]. intros t.
    apply keeps_setdocument.
  - apply keeps_set_pairs.
  - by apply keeps_for_each.
  - apply keeps_raise.
Qed.

Lemma keeps_add (fuel : nat) (self : nat) (args : list addable) :
  keeps other (add fuel tid self args).
Proof.
  unfold add. apply keeps_bind; [|intros; apply keeps_ret].
  apply keeps_for_each, Forall_forall. intros obj _. apply keeps_add_obj.
Qed.

Lemma keeps_init (fuel : nat) (c : tag_class) (args : list addable)
    (kwargs : dict kw_value) :
  keeps other (__init__ fuel tid c args kwargs).
Proof.
  unfold __init__.
  destruct (pop_flag kwargs _ _) as [inline kw1].
  destruct (pop_flag kw1 _ _) as [pretty kw2].
  apply keeps_bind; [done|]. intros self.
  apply keeps_bind.
  { destruct args; [apply keeps_ret|].
    apply keeps_bind; [apply keeps_add|intros; apply keeps_ret]. }
  intros _. apply keeps_bind; [apply keeps_set_pairs|]. intros _.
  apply keeps_bind; [apply keeps_on_top_frame|]. intros _. apply keeps_ret.
Qed.

Lemma keeps_enter (P : nat) : keeps other (__enter__ tid P).
Proof. intros st. rewrite enter_spec. simpl. by rewrite lookup_insert_ne. Qed.

Lemma keeps_set_contexts_at (f : gmap Z (list frame) -> gmap Z (list frame)) :
  (forall c, f c !! other = c !! other) ->
  keeps other (contexts ← get_contexts; set_contexts (f contexts)).
Proof. intros Hf st. simpl. apply Hf. Qed.

Lemma keeps_exit (fuel : nat) (P : nat) : keeps other (__exit__ fuel tid P).
Proof.
  intros st. unfold __exit__.
  erewrite bind_ok; [|reflexivity].
  destruct (top (default [] (_with_contexts st !! tid))) as [fr|].
  - set (body := fun item : nat =>
      if bool_decide (item ∈ used fr) then mret tt
      else add fuel tid P [Node item] ;; mret tt).
    assert (keeps other (for_each (items fr) body)) as Hloop.
    { apply keeps_for_each, Forall_forall. intros item _. unfold body.
      destruct (bool_decide _); [apply keeps_ret|].
      apply keeps_bind; [apply keeps_add|intros; apply keeps_ret]. }
    erewrite bind_ok; [|reflexivity].
    set (st0 := with_contexts st _).
    assert (_with_contexts st0 !! other = _with_contexts st !! other) as H0.
    { unfold st0. simpl. by rewrite lookup_insert_ne. }
    rewrite <- H0.
    apply (keeps_bind (for_each (items fr) body)); [exact Hloop|].
    intros _. destruct (bool_decide _); [|apply keeps_ret].
    intros st1. simpl. by rewrite lookup_delete_ne.
  - erewrite bind_ok; [|reflexivity]. simpl. by rewrite lookup_insert_ne.
Qed.

End ContextsMore.

Lemma get_current_frames {A} (tid : Z) (dflt : option A) (st st' : state) :
  _with_contexts st' !! tid = _with_contexts st !! tid ->
  get_current tid dflt st' = get_current tid dflt st.
Proof. intros H. unfold get_current. by rewrite H. Qed.

(** X19. What a thread [tid] does never touches the frames of another
    thread [other]: after [__init__], [__enter__], [__exit__] and [add] run
    by [tid], whether they return or raise, the stack of [other] in
    [_with_contexts] is what it was, and so is what [get_current] gives
    [other]. *)
Theorem other_thread_untouched (fuel : nat) (tid other : Z) (c : tag_class)
    (args : list addable) (kwargs : dict kw_value) (self : nat) (st : state)
    (A : Type) (dflt : option A) :
  tid <> other ->
  let same st' :=
    _with_contexts st' !! other = _with_contexts st !! other /\
    get_current other dflt st' = get_current other dflt st in
  same (__init__ fuel tid c args kwargs st).2 /\
  same (__enter__ tid self st).2 /\
  same (__exit__ fuel tid self st).2 /\
  same (add fuel tid self args st).2.
Proof.
  intros Hother same.
  assert (forall st', _with_contexts st' !! other = _with_contexts st !! other ->
                      same st') as Hsame.
  { intros st' H. split; [done|]. by apply get_current_frames. }
  split; [|split; [|split]]; apply Hsame.
  - apply (keeps_init tid other Hother).
  - apply (keeps_enter tid other Hother).
  - apply (keeps_exit tid other Hother).
  - apply (keeps_add tid other Hother).
Qed.

Lemma other_thread_untouched_witness :
  let st := {| heap := [bare_div; bare_div];
               _with_contexts :=
                 {[ 1%Z := [{| tag := 1; items := []; used := ∅ |}] ]} |} in
  let same st' :=
    _with_contexts st' !! 1%Z = _with_contexts st !! 1%Z /\
    get_current (A := unit) 1 None st' = get_current 1 None st in
  same (__init__ 2 0 (plain_class "p") [Text "x"] [] st).2 /\
  same (__enter__ 0 0 st).2 /\
  same (__exit__ 2 0 0 st).2 /\
  same (add 2 0 0 [Text "x"] st).2.
Proof.
  apply (other_thread_untouched 2 0 1 (plain_class "p") [Text "x"] [] 0
           {| heap := [bare_div; bare_div];
              _with_contexts :=
                {[ 1%Z := [{| tag := 1; items := []; used := ∅ |}] ]} |}
           unit None).
  lia.
Defined.

(** X20. Entering a tag and leaving it at once is a round trip: between
    the two, [get_current] gives the tag; after [__exit__] the store,
    frames and tags, is what it was before [__enter__].  The stack of the
    thread must not be an empty list left in [_with_contexts]. *)
Theorem enter_exit_roundtrip (fuel : nat) (tid : Z) (P : nat) (st : state)
    (A : Type) (dflt : option A) :
  _with_contexts st !! tid <> Some [] ->
  get_current tid dflt (__enter__ tid P st).2 = Ok (inl P) /\
  (__enter__ tid P ;; __exit__ fuel tid P) st = (Ok tt, st).
Proof.
  intros Hne. split.
  - rewrite enter_spec. unfold get_current. simpl.
    rewrite lookup_insert_eq. simpl. unfold top. by rewrite last_snoc.
  - erewrite bind_ok; [|apply enter_spec].
    unfold __exit__. erewrite bind_ok; [|reflexivity].
    cbn [_with_contexts with_contexts]. rewrite lookup_insert_eq.
    cbn [default from_option id]. rewrite top_snoc, pop_snoc.
    erewrite bind_ok; [|reflexivity]. cbn [items for_each].
    erewrite bind_ok; [|reflexivity].
    cbn [_with_contexts with_contexts]. rewrite insert_insert_eq.
    unfold open_frames. destruct st as [h ctx]. simpl in *.
    destruct (ctx !! tid) as [stack|] eqn:Hs; simpl.
    + rewrite bool_decide_eq_false_2 by congruence.
      unfold mret, M_ret, with_contexts. simpl. by rewrite insert_id.
    + erewrite bind_ok; [|reflexivity].
      unfold set_contexts, with_contexts. simpl.
      by rewrite delete_insert_eq, delete_id.
Qed.

Lemma enter_exit_roundtrip_witness :
  get_current (A := unit) 0 None (__enter__ 0 0 lone_div).2 = Ok (inl 0) /\
  (__enter__ 0 0 ;; __exit__ 1 0 0) lone_div = (Ok tt, lone_div).
Proof.
  apply (enter_exit_roundtrip 1 0 0 lone_div unit None). done.
Defined.

(** X21. [__exit__] with no open frame: it raises [IndexError], and the
    lookup of the stack has left an empty list for the thread in
    [_with_contexts]; [get_current] still finds no tag. *)
Theorem exit_without_enter (fuel : nat) (tid : Z) (self : nat) (st : state)
    (A : Type) (dflt : option A) :
  open_frames st tid = [] ->
  __exit__ fuel tid self st =
    (Raise IndexError, with_contexts st (<[tid := []]> (_with_contexts st))) /\
  get_current tid dflt (__exit__ fuel tid self st).2 = get_current tid dflt st.
Proof.
  intros H. unfold open_frames in H.
  assert (__exit__ fuel tid self st =
    (Raise IndexError, with_contexts st (<[tid := []]> (_with_contexts st)))) as E.
  { unfold __exit__. erewrite bind_ok; [|reflexivity]. rewrite H. simpl.
    reflexivity. }
  split; [exact E|]. rewrite E. unfold get_current. simpl.
  rewrite lookup_insert_eq. simpl.
  destruct (_with_contexts st !! tid) as [stack|]; simpl in *; by subst.
Qed.

Lemma exit_without_enter_witness :
  __exit__ 1 0 0 lone_div =
    (Raise IndexError, with_contexts lone_div (<[0%Z := []]> (_with_contexts lone_div))) /\
  get_current (A := unit) 0 None (__exit__ 1 0 0 lone_div).2 =
    get_current 0 None lone_div.
Proof.
  apply (exit_without_enter 1 0 0 lone_div unit None). reflexivity.
Defined.

(** ** Searching the tree *)

Section GetMore.

Context (h : list dom_tag) (tag : tag_argument).

Lemma clean_names_values (kwargs : dict kw_value) (attrs : list (string * kw_value))
    (attr : string) (value : kw_value) :
  clean_names kwargs = Ok attrs -> (attr, value) ∈ kwargs ->
  exists attribute, (attribute, value) ∈ attrs.
Proof.
  revert attrs. induction kwargs as [|[a v] rest IH]; intros attrs Hc Hin.
  - by apply elem_of_nil in Hin.
  - simpl in Hc. unfold mbind, outcome_bind in Hc.
    destruct (clean_attribute a) as [a'| | |]; try done.
    destruct (clean_names rest) as [more| | |]; try done.
    injection Hc as <-. apply elem_of_cons in Hin as [Hin|Hin].
    + injection Hin as -> ->. exists a'. apply elem_of_cons. by left.
    + destruct (IH more eq_refl Hin) as [a'' Ha]. exists a''.
      apply elem_of_cons. by right.
Qed.

Lemma get_children_sound (recur : nat -> outcome (list child))
    (attrs : list (string * kw_value)) (cs : list child) (results : list child) :
  (forall c r, CTag c ∈ cs -> recur c = Ok r ->
     Forall (fun x => matches h tag attrs x /\ below h c x) r) ->
  get_children recur h tag attrs cs = Ok results ->
  Forall (fun x => matches h tag attrs x /\
            (x ∈ cs \/ exists c, CTag c ∈ cs /\ below h c x)) results.
Proof.
  revert results. induction cs as [|x cs IH]; intros results Hrec Hg.
  - injection Hg as <-. constructor.
  - assert (forall results', get_children recur h tag attrs cs = Ok results' ->
        Forall (fun x0 => matches h tag attrs x0 /\
                  (x0 ∈ x :: cs \/ exists c, CTag c ∈ x :: cs /\ below h c x0))
          results') as IH'.
    { intros results' Hg'. eapply Forall_impl.
      - apply IH; [|exact Hg']. intros c r Hc. apply Hrec.
        apply elem_of_cons. by right.
      - intros y [Hm [Hy|(c & Hc & Hb)]]; (split; [done|]).
        + left. apply elem_of_cons. by right.
        + right. exists c. split; [|done]. apply elem_of_cons. by right. }
    destruct x as [c|s]; simpl in Hg.
    + destruct (h !! c) as [cn|] eqn:Hc; [|done].
      unfold mbind, outcome_bind in Hg.
      destruct (recur c) as [deeper| | |] eqn:Hr; try done.
      destruct (get_children recur h tag attrs cs) as [more| | |]; try done.
      injection Hg as <-. apply Forall_app. split; [|apply Forall_app; split].
      * destruct (type_matches tag (Some (cls cn))) eqn:Ht; simpl; [|constructor].
        destruct (forallb _ attrs) eqn:Hf; [|constructor].
        constructor; [|constructor]. split.
        -- exists cn. repeat split; [done..|].
           apply Forall_forall. intros [a v] Hin.
           rewrite forallb_forall in Hf. apply (Hf (a, v)).
           by apply list_elem_of_In.
        -- left. apply elem_of_cons. by left.
      * eapply Forall_impl.
        -- apply (Hrec c deeper); [|done]. apply elem_of_cons. by left.
        -- intros y [Hm Hb]. split; [done|]. right. exists c.
           split; [|done]. apply elem_of_cons. by left.
      * by apply IH'.
    + unfold mbind, outcome_bind in Hg.
      destruct (get_children recur h tag attrs cs) as [more| | |]; try done.
      injection Hg as <-. apply Forall_app. split; [|by apply IH'].
      destruct (type_matches tag None) eqn:Ht; [|constructor].
      constructor; [|constructor]. split; [done|].
      left. apply elem_of_cons. by left.
Qed.

Lemma get_sound (fuel : nat) (self : nat) (kwargs : dict kw_value)
    (results : list child) :
  get fuel h self tag kwargs = Ok results ->
  exists attrs, clean_names kwargs = Ok attrs /\
    Forall (fun x => matches h tag attrs x /\ below h self x) results.
Proof.
  revert self results. induction fuel as [|fuel IH]; intros self results Hg; [done|].
  simpl in Hg. destruct (h !! self) as [n|] eqn:Hn; [|done].
  unfold mbind, outcome_bind in Hg.
  destruct (clean_names kwargs) as [attrs| | |] eqn:Hc; try done.
  exists attrs. split; [done|].
  eapply Forall_impl.
  - apply (fun H => get_children_sound _ _ _ _ H Hg).
    intros c r _ Hr. destruct (IH c r Hr) as (attrs' & Hc' & Hall).
    by simplify_eq.
  - intros x [Hm [Hx|(c & Hc' & Hb)]]; (split; [done|]).
    + by eapply below_child.
    + by eapply below_deeper.
Qed.

End GetMore.

Lemma clean_names_ok (kwargs : dict kw_value) :
  Forall (fun kv => kv.1 <> "") kwargs -> exists attrs, clean_names kwargs = Ok attrs.
Proof.
  induction 1 as [|[a v] rest Ha _ [more IH]]; [by exists []|].
  destruct (clean_attribute_ok a Ha) as [a' Ha']. exists ((a', v) :: more).
  simpl. by rewrite Ha', IH.
Qed.

Lemma get_children_returns (h : list dom_tag) (tag : tag_argument)
    (recur : nat -> outcome (list child)) (attrs : list (string * kw_value))
    (cs : list child) :
  (forall c, CTag c ∈ cs -> is_Some (h !! c) /\ exists r, recur c = Ok r) ->
  exists results, get_children recur h tag attrs cs = Ok results.
Proof.
  induction cs as [|x cs IH]; intros Hrec; [by exists []|].
  destruct IH as [more IH].
  { intros c Hc. apply Hrec, elem_of_cons. by right. }
  destruct x as [c|s]; simpl; rewrite IH.
  - destruct (Hrec c) as [[cn Hn] [r Hr]]; [apply elem_of_cons; by left|].
    rewrite Hn, Hr. by eexists.
  - by eexists.
Qed.

Lemma get_returns (h : list dom_tag) (tag : tag_argument) (kwargs : dict kw_value)
    (attrs : list (string * kw_value)) (k fuel : nat) (self : nat) :
  clean_names kwargs = Ok attrs ->
  shallow k (children <$> h) self -> k <= fuel ->
  exists results, get fuel h self tag kwargs = Ok results.
Proof.
  intros Hc. revert fuel self.
  induction k as [|k IH]; intros fuel self Hs Hk; [done|].
  destruct fuel as [|fuel]; [lia|].
  destruct Hs as (cs & Hcs & Hdeep).
  rewrite list_lookup_fmap in Hcs.
  destruct (h !! self) as [n|] eqn:Hn; [|done].
  injection Hcs as <-. simpl. rewrite Hn, Hc. simpl.
  apply get_children_returns. intros c Hin.
  specialize (Hdeep c Hin). split.
  - destruct k; [done|]. destruct Hdeep as (cs' & Hcs' & _).
    rewrite list_lookup_fmap in Hcs'. by destruct (h !! c).
  - apply IH; [done|lia].
Qed.

(** X22. [get] on a finite tree returns, and returns only matches from
    under the tag: every string of the result is of the type asked for,
    every tag of the result is of that type and carries each keyword
    argument's attribute, under its cleaned name, with an equal value;
    and every result is a child of the tag or of a tag below it. *)
Theorem get_returns_matches (fuel k : nat) (h : list dom_tag) (self : nat)
    (tag : tag_argument) (kwargs : dict kw_value) :
  shallow k (children <$> h) self -> k <= fuel ->
  Forall (fun kv => kv.1 <> "") kwargs ->
  exists results attrs,
    get fuel h self tag kwargs = Ok results /\
    clean_names kwargs = Ok attrs /\
    Forall (fun x => matches h tag attrs x /\ below h self x) results.
Proof.
  intros Hs Hk Hkw.
  destruct (clean_names_ok kwargs Hkw) as [attrs Hc].
  destruct (get_returns h tag kwargs attrs k fuel self Hc Hs Hk) as [results Hg].
  exists results, attrs. split; [done|]. split; [done|].
  destruct (get_sound h tag fuel self kwargs results Hg) as (attrs' & Hc' & Hall).
  rewrite Hc in Hc'. by injection Hc' as <-.
Qed.

Lemma shallow_div_with_p : shallow 2 (children <$> div_with_p) 0.
Proof.
  exists [CTag 1; CStr "t"]. split; [reflexivity|]. intros c Hc.
  apply elem_of_cons in Hc as [Hc|Hc].
  - injection Hc as ->. exists [CStr "x"]. split; [reflexivity|].
    intros c Hc. apply elem_of_cons in Hc as [Hc|Hc]; [done|].
    by apply elem_of_nil in Hc.
  - apply elem_of_cons in Hc as [Hc|Hc]; [done|]. by apply elem_of_nil in Hc.
Qed.

Lemma get_returns_matches_witness :
  exists results attrs,
    get 2 div_with_p 0 (TagName "p") [("selected", KwStr "selected")] = Ok results /\
    clean_names [("selected", KwStr "selected")] = Ok attrs /\
    Forall (fun x => matches div_with_p (TagName "p") attrs x /\
                     below div_with_p 0 x) results.
Proof.
  apply (get_returns_matches 2 2 div_with_p 0 (TagName "p")
           [("selected", KwStr "selected")]).
  - exact shallow_div_with_p.
  - lia.
  - by repeat constructor.
Defined.

(** X23. A keyword argument [True] never finds a tag: the constructor
    stores [selected=True] as the string [selected], which is not equal to
    [True], so [get(selected=True)] returns no tag at all, whatever the
    tree holds (a stored attribute being a string or [False]). *)
Theorem get_true_finds_no_tag (fuel : nat) (h : list dom_tag) (self : nat)
    (tag : tag_argument) (kwargs : dict kw_value) (attr : string)
    (results : list child) (c : nat) :
  (attr, KwBool true) ∈ kwargs ->
  get fuel h self tag kwargs = Ok results ->
  CTag c ∉ results.
Proof.
  intros Hin Hg Hc.
  destruct (get_sound h tag fuel self kwargs results Hg) as (attrs & Hattrs & Hall).
  destruct (clean_names_values kwargs attrs attr (KwBool true) Hattrs Hin)
    as [attribute Ha].
  rewrite Forall_forall in Hall. destruct (Hall _ Hc) as [(cn & _ & _ & Hm) _].
  rewrite Forall_forall in Hm. specialize (Hm _ Ha). simpl in Hm.
  unfold attribute_equals in Hm.
  by destruct (dict_get (attributes cn) attribute) as [[s|]|].
Qed.

Lemma get_true_finds_no_tag_witness :
  get 2 div_with_p 0 dom_tag_type [("selected", KwBool true)] = Ok [] /\
  CTag 1 ∉ ([] : list child).
Proof.
  split; [reflexivity|].
  apply (get_true_finds_no_tag 2 div_with_p 0 dom_tag_type
           [("selected", KwBool true)] "selected" [] 1).
  - apply elem_of_cons. by left.
  - reflexivity.
Defined.

(** ** Taking children away *)

Section RemoveMore.

Lemma list_remove_absent (obj : child) (l : list child) :
  obj ∉ l -> list_remove obj l = None.
Proof.
  induction l as [|x l IH]; [done|]. intros Hn. simpl.
  apply not_elem_of_cons in Hn as [Hx Hl].
  rewrite decide_False by done. by rewrite IH.
Qed.

Lemma list_remove_first (obj : child) (pre post : list child) :
  obj ∉ pre -> list_remove obj (pre ++ obj :: post) = Some (pre ++ post).
Proof.
  induction pre as [|x pre IH]; intros Hn; simpl.
  - by rewrite decide_True.
  - apply not_elem_of_cons in Hn as [Hx Hl].
    rewrite decide_False by done. by rewrite IH.
Qed.

Lemma orphaned_ext (self : nat) (cs cs' : list child) (a : nat) (t : dom_tag) :
  (CTag a ∈ cs <-> CTag a ∈ cs') -> orphaned self cs a t = orphaned self cs' a t.
Proof.
  intros H. unfold orphaned. repeat case_bool_decide; try done; tauto.
Qed.

Lemma orphaned_in (self : nat) (cs : list child) (a : nat) (t : dom_tag) :
  CTag a ∈ cs -> parent t = Some self -> orphaned self cs a t = with_parent t None.
Proof. intros Hin Hp. unfold orphaned. by rewrite bool_decide_eq_true_2. Qed.

Lemma orphaned_out (self : nat) (cs : list child) (a : nat) (t : dom_tag) :
  ~ (CTag a ∈ cs /\ parent t = Some self) -> orphaned self cs a t = t.
Proof. intros H. unfold orphaned. by rewrite bool_decide_eq_false_2. Qed.

Lemma orphaned_step (self : nat) (pre : list child) (x : child)
    (h : list dom_tag) (st : state) :
  match x with CTag c => is_Some (h !! c) | CStr _ => True end ->
  (match x with
   | CTag c =>
       t ← get_tag c;
       if decide (parent t = Some self) then put_tag c (with_parent t None)
       else mret tt
   | CStr _ => mret tt
   end) (with_heap st (imap (orphaned self pre) h)) =
  (Ok tt, with_heap st (imap (orphaned self (pre ++ [x])) h)).
Proof.
  intros Hx. destruct x as [c|s].
  - destruct Hx as [t0 Ht0].
    assert (CTag c ∈ pre ++ [CTag c]) as Hlast.
    { apply elem_of_app. right. by apply list_elem_of_singleton. }
    erewrite bind_ok; [|apply get_tag_ok; simpl; by rewrite list_lookup_imap, Ht0].
    destruct (decide (CTag c ∈ pre /\ parent t0 = Some self)) as [[Hin Hp0]|Hout].
    + rewrite (orphaned_in self pre c t0 Hin Hp0). simpl.
      unfold mret, M_ret. f_equal. f_equal.
      apply list_eq. intros a. rewrite !list_lookup_imap.
      destruct (h !! a) as [t|] eqn:Ha; [|done]. simpl. f_equal.
      apply orphaned_ext. rewrite elem_of_app, list_elem_of_singleton.
      split; [tauto|]. intros [H|H]; [done|]. by injection H as ->.
    + rewrite (orphaned_out self pre c t0) by done.
      destruct (decide (parent t0 = Some self)) as [Hp|Hp].
      * unfold put_tag, with_heap. simpl. f_equal. f_equal.
        apply list_eq. intros a. destruct (decide (a = c)) as [->|Hac].
        -- rewrite list_lookup_insert_eq
             by (rewrite length_imap; by eapply lookup_lt_Some).
           rewrite list_lookup_imap, Ht0. simpl. f_equal.
           by rewrite (orphaned_in self _ c t0 Hlast Hp).
        -- rewrite list_lookup_insert_ne by done.
           rewrite !list_lookup_imap. destruct (h !! a) as [t|]; [|done]. simpl.
           f_equal. apply orphaned_ext. rewrite elem_of_app, list_elem_of_singleton.
           split; [tauto|]. intros [H|H]; [done|]. by injection H.
      * unfold mret, M_ret. f_equal. f_equal.
        apply list_eq. intros a. rewrite !list_lookup_imap.
        destruct (h !! a) as [t|] eqn:Ha; [|done]. simpl. f_equal.
        destruct (decide (a = c)) as [->|Hac].
        -- assert (t = t0) as -> by congruence.
           rewrite !orphaned_out; [done|tauto..].
        -- apply orphaned_ext. rewrite elem_of_app, list_elem_of_singleton.
           split; [tauto|]. intros [H|H]; [done|]. by injection H.
  - unfold mret, M_ret. f_equal. f_equal.
    apply list_eq. intros a. rewrite !list_lookup_imap.
    destruct (h !! a) as [t|]; [|done]. simpl. f_equal. apply orphaned_ext.
    rewrite elem_of_app, list_elem_of_singleton.
    split; [tauto|]. by intros [H|H].
Qed.

Lemma clear_loop (self : nat) (h : list dom_tag) (st : state) (cs pre : list child) :
  let body := fun i : child =>
    match i with
    | CTag c =>
        t ← get_tag c;
        if decide (parent t = Some self) then put_tag c (with_parent t None)
        else mret tt
    | CStr _ => mret tt
    end in
  (forall c, CTag c ∈ cs -> is_Some (h !! c)) ->
  for_each cs body (with_heap st (imap (orphaned self pre) h)) =
  (Ok tt, with_heap st (imap (orphaned self (pre ++ cs)) h)).
Proof.
  intros body. revert pre. induction cs as [|x cs IH]; intros pre Hcs.
  - by rewrite app_nil_r.
  - change (for_each (x :: cs) body) with (body x ;; for_each cs body).
    erewrite bind_ok; cycle 1.
    { apply (orphaned_step self pre x h st). destruct x as [c|s]; [|done].
      apply Hcs, elem_of_cons. by left. }
    rewrite (IH (pre ++ [x])).
    + by rewrite <- app_assoc.
    + intros c Hc. apply Hcs, elem_of_cons. by right.
Qed.

Lemma list_remove_cases (obj : child) (l : list child) :
  ((obj ∉ l) /\ list_remove obj l = None) \/
  (exists pre post, l = pre ++ obj :: post /\ (obj ∉ pre) /\
     list_remove obj l = Some (pre ++ post)).
Proof.
  destruct (decide (obj ∈ l)) as [Hin|Hout].
  - right. induction l as [|x l IH]; [by apply elem_of_nil in Hin|].
    destruct (decide (x = obj)) as [->|Hx].
    + exists [], l. split; [done|]. split; [apply not_elem_of_nil|].
      simpl. by rewrite decide_True.
    + apply elem_of_cons in Hin as [->|Hin]; [done|].
      destruct (IH Hin) as (pre & post & -> & Hpre & Hr).
      exists (x :: pre), post. split; [done|]. split.
      * apply not_elem_of_cons. split; [congruence|done].
      * simpl. rewrite decide_False by done. by rewrite Hr.
  - left. split; [done|]. by apply list_remove_absent.
Qed.

End RemoveMore.

(** X24. [clear()] empties the children of the tag and changes nothing
    else but parents: a tag among the former children loses its parent
    when that was the cleared tag, and keeps it when it was another tag
    (one it was added to later); strings and all other tags stay as they
    are. *)
Theorem clear_orphans_own_children (self : nat) (n : dom_tag) (st : state) :
  heap st !! self = Some n ->
  (forall c, CTag c ∈ children n -> is_Some (heap st !! c)) ->
  clear self st =
    (Ok tt, with_heap st (imap (cleared self (children n)) (heap st))).
Proof.
  intros Hn Hcs. unfold clear.
  erewrite bind_ok; [|by apply get_tag_ok].
  pose proof (clear_loop self (heap st) st (children n) [] Hcs) as Hloop.
  assert (imap (orphaned self []) (heap st) = heap st) as E.
  { apply list_eq. intros a. rewrite list_lookup_imap.
    destruct (heap st !! a) as [t|]; [|done]. simpl. f_equal. }
  rewrite E, with_heap_id in Hloop. simpl in Hloop.
  erewrite bind_ok; [|exact Hloop].
  erewrite update_tag_ok; cycle 1.
  { simpl. by rewrite list_lookup_imap, Hn. }
  rewrite with_heap_with_heap. f_equal. f_equal. simpl.
  apply list_eq. intros a. destruct (decide (a = self)) as [->|Ha].
  - rewrite list_lookup_insert_eq
      by (rewrite length_imap; by eapply lookup_lt_Some).
    rewrite list_lookup_imap, Hn. simpl. unfold cleared.
    by rewrite bool_decide_eq_true_2.
  - rewrite list_lookup_insert_ne by done. rewrite !list_lookup_imap.
    destruct (heap st !! a) as [t|]; [|done]. simpl. unfold cleared.
    by rewrite bool_decide_eq_false_2.
Qed.

Lemma clear_orphans_own_children_witness :
  clear 0 {| heap := div_with_p; _with_contexts := ∅ |} =
    (Ok tt,
     {| heap := [bare_div;
                 {| cls := plain_class "p"; is_pretty := true; is_inline := false;
                    attributes := [("selected", AttrStr "selected")];
                    children := [CStr "x"]; parent := None; document := None;
                    text := None |}];
        _with_contexts := ∅ |}).
Proof.
  apply (clear_orphans_own_children 0 (with_children bare_div [CTag 1; CStr "t"])
           {| heap := div_with_p; _with_contexts := ∅ |}).
  - reflexivity.
  - intros c Hc. apply elem_of_cons in Hc as [Hc|Hc].
    + injection Hc as ->. by eexists.
    + apply elem_of_cons in Hc as [Hc|Hc]; [done|]. by apply elem_of_nil in Hc.
Defined.

(** X25. [remove(obj)] takes away the first entry of the children equal
    to [obj], and only that: when [obj] is not a child it raises
    [ValueError] and changes nothing; else the entries before and after the
    first occurrence stay, in order, and no other field of any tag changes,
    so that a removed tag still names the tag as its parent. *)
Theorem remove_first_occurrence (self : nat) (n : dom_tag) (obj : child)
    (st : state) :
  heap st !! self = Some n ->
  ((obj ∉ children n) /\ remove self obj st = (Raise ValueError, st)) \/
  (exists pre post,
     children n = pre ++ obj :: post /\ (obj ∉ pre) /\
     remove self obj st =
       (Ok tt, with_heap st (<[self := with_children n (pre ++ post)]> (heap st)))).
Proof.
  intros Hn. unfold remove.
  erewrite bind_ok; [|by apply get_tag_ok].
  destruct (list_remove_cases obj (children n))
    as [[Hout Hr]|(pre & post & Hcs & Hpre & Hr)]; rewrite Hr.
  - by left.
  - right. by exists pre, post.
Qed.

Lemma remove_first_occurrence_witness :
  ((CTag 1 ∉ children (with_children bare_div [CTag 1; CStr "t"])) /\
   remove 0 (CTag 1) {| heap := div_with_p; _with_contexts := ∅ |} =
     (Raise ValueError, {| heap := div_with_p; _with_contexts := ∅ |})) \/
  (exists pre post,
     children (with_children bare_div [CTag 1; CStr "t"]) = pre ++ CTag 1 :: post /\
     (CTag 1 ∉ pre) /\
     remove 0 (CTag 1) {| heap := div_with_p; _with_contexts := ∅ |} =
       (Ok tt,
        with_heap {| heap := div_with_p; _with_contexts := ∅ |}
          (<[0 := with_children (with_children bare_div [CTag 1; CStr "t"])
                    (pre ++ post)]> div_with_p))).
Proof.
  apply (remove_first_occurrence 0 (with_children bare_div [CTag 1; CStr "t"])
           (CTag 1) {| heap := div_with_p; _with_contexts := ∅ |}).
  reflexivity.
Defined.

(** ** Attributes of the current tag *)

Lemma cleaned_app (d1 d2 : dict kw_value) : cleaned (d1 ++ d2) = cleaned d1 ++ cleaned d2.
Proof. unfold cleaned. apply omap_app. Qed.

Lemma set_dicts (self : nat) (ds : list (dict kw_value)) (st : state) (n : dom_tag) :
  Forall (Forall (fun kv => kv.1 <> "")) ds ->
  heap st !! self = Some n ->
  for_each ds (fun d =>
    for_each d (fun '(attr, value) =>
      '(k, v) ← lift (clean_pair attr value);
      set_attribute self (KStr k) v)) st =
  (Ok tt, with_heap st (<[self := with_attributes n
            (foldl (fun d kv => dict_set d kv.1 kv.2) (attributes n)
               (cleaned (concat ds)))]>
          (heap st))).
Proof.
  intros Hds. revert st n. induction Hds as [|d ds Hd _ IH]; intros st n Hn.
  - simpl. unfold mret, M_ret. f_equal.
    replace (with_attributes n (attributes n)) with n by by destruct n.
    by rewrite list_insert_id, with_heap_id.
  - set (body := fun d : dict kw_value => for_each d _).
    change (for_each (d :: ds) body) with (body d ;; for_each ds body).
    erewrite bind_ok; [|by apply set_kwargs].
    unfold body. erewrite IH; cycle 1.
    { simpl. apply list_lookup_insert_eq. by eapply lookup_lt_Some. }
    rewrite with_heap_with_heap. simpl.
    by rewrite list_insert_insert_eq, cleaned_app, foldl_app.
Qed.

(** X26. [attr] writes on the tag of the innermost open frame of the
    thread: its dictionaries and then its keyword arguments are cleaned
    with [clean_pair] and assigned in order, a later name replacing an
    earlier one, and nothing but the attributes of that tag changes.  With
    no frame open for the thread the same call raises [ValueError] and
    changes nothing. *)
Theorem attr_sets_current_tag (tid : Z) (args : list (dict kw_value))
    (kwargs : dict kw_value) (st : state) (fr : frame) (n : dom_tag) :
  top (open_frames st tid) = Some fr ->
  heap st !! tag fr = Some n ->
  Forall (Forall (fun kv => kv.1 <> "")) (args ++ [kwargs]) ->
  attr tid args kwargs st =
    (Ok tt, with_heap st (<[tag fr := with_attributes n
              (foldl (fun d kv => dict_set d kv.1 kv.2) (attributes n)
                 (cleaned (concat (args ++ [kwargs]))))]>
            (heap st))) /\
  let outside := with_contexts st (delete tid (_with_contexts st)) in
  attr tid args kwargs outside = (Raise ValueError, outside).
Proof.
  intros Htop Hn Hnames. split.
  - unfold attr, get_current. unfold open_frames in Htop.
    destruct (_with_contexts st !! tid) as [stack|]; simpl in *; [|done].
    rewrite Htop. by apply set_dicts.
  - intros outside. unfold attr, get_current, outside. simpl.
    by rewrite lookup_delete_eq.
Qed.

Lemma attr_sets_current_tag_witness :
  let st := {| heap := div_with_p;
               _with_contexts :=
                 {[ 0%Z := [{| tag := 1; items := []; used := ∅ |}] ]} |} in
  attr 0 [[("cls", KwStr "a")]] [("data_x", KwBool true); ("cls", KwStr "b")] st =
    (Ok tt,
     with_heap st
       [with_children bare_div [CTag 1; CStr "t"];
        {| cls := plain_class "p"; is_pretty := true; is_inline := false;
           attributes := [("selected", AttrStr "selected"); ("class", AttrStr "b");
                          ("data-x", AttrStr "data-x")];
           children := [CStr "x"]; parent := Some 0; document := None;
           text := None |}]) /\
  let outside := with_contexts st (delete 0%Z (_with_contexts st)) in
  attr 0 [[("cls", KwStr "a")]] [("data_x", KwBool true); ("cls", KwStr "b")] outside =
    (Raise ValueError, outside).
Proof.
  apply (attr_sets_current_tag 0 [[("cls", KwStr "a")]]
           [("data_x", KwBool true); ("cls", KwStr "b")]
           {| heap := div_with_p;
              _with_contexts :=
                {[ 0%Z := [{| tag := 1; items := []; used := ∅ |}] ]} |}
           {| tag := 1; items := []; used := ∅ |}
           {| cls := plain_class "p"; is_pretty := true; is_inline := false;
              attributes := [("selected", AttrStr "selected")];
              children := [CStr "x"]; parent := Some 0; document := None;
              text := None |}).
  - reflexivity.
  - reflexivity.
  - by repeat constructor.
Defined.

(** ** Rendering without indentation *)

Lemma _render_children_compact
    (r1 r2 : nat -> list string -> outcome (list string))
    (h : list dom_tag) (cs : list child) (inline : bool) (sb : list string)
    (l1 l2 : nat) (i1 i2 : string) :
  (forall c sb, r1 c sb = r2 c sb) ->
  _render_children r1 h cs inline sb l1 i1 false =
  _render_children r2 h cs inline sb l2 i2 false.
Proof.
  intros Hr. revert inline sb. induction cs as [|[c|s] cs IH]; intros inline sb.
  - done.
  - simpl. destruct (h !! c) as [cn|]; [|done]. rewrite Hr.
    destruct (r2 c sb) as [sb'| | |]; simpl; [apply IH|done..].
  - simpl. apply IH.
Qed.

Lemma _render_compact (fuel : nat) (h : list dom_tag) (self : nat) (n : dom_tag)
    (sb : list string) (l1 l2 : nat) (i1 i2 : string) (pretty xhtml : bool) :
  h !! self = Some n ->
  pretty && is_pretty n = false ->
  _render fuel h self sb l1 i1 pretty xhtml = _render fuel h self sb l2 i2 false xhtml.
Proof.
  revert self n sb l1 l2 pretty. induction fuel as [|fuel IH];
    intros self n sb l1 l2 pretty Hn Hp; [done|].
  simpl. rewrite Hn. destruct (text n); [done|]. rewrite Hp. simpl.
  destruct (tag_name n) as [name| | |]; simpl; try done.
  destruct (cls_single (cls n)); [done|].
  rewrite (_render_children_compact
             (fun c sb => _render fuel h c sb (S l1) i1 false xhtml)
             (fun c sb => _render fuel h c sb (S l2) i2 false xhtml)
             h (children n) true _ (S l1) (S l2) i1 i2); [done|].
  intros c sb'. destruct (h !! c) as [cn|] eqn:Hc.
  - by apply (IH c cn).
  - destruct fuel; [done|]. simpl. by rewrite Hc.
Qed.

(** X27. A tag rendered without pretty printing, because [pretty] is
    false or because the tag is not pretty itself, gives the same text
    whatever the indent string: neither it nor anything below it is ever
    indented, since a tag passes its own setting down to its children. *)
Theorem render_compact_ignores_indent (fuel : nat) (st : state) (self : nat)
    (n : dom_tag) (indent indent' : string) (pretty xhtml : bool) :
  heap st !! self = Some n ->
  pretty = false \/ is_pretty n = false ->
  render fuel st self indent pretty xhtml = render fuel st self indent' false xhtml.
Proof.
  intros Hn Hp. unfold render.
  rewrite (_render_compact fuel (heap st) self n [] 0 0 indent indent' pretty xhtml);
    [done|done|].
  destruct Hp as [->| ->]; [done|]. by destruct pretty.
Qed.

Lemma render_compact_ignores_indent_witness :
  render 3 {| heap := div_with_p; _with_contexts := ∅ |} 0 "  " false false =
  render 3 {| heap := div_with_p; _with_contexts := ∅ |} 0 "xx" false false.
Proof.
  apply (render_compact_ignores_indent 3 {| heap := div_with_p; _with_contexts := ∅ |}
           0 (with_children bare_div [CTag 1; CStr "t"]) "  " "xx" false false).
  - reflexivity.
  - by left.
Defined.

(** ** Text nodes *)

Lemma text_init_spec (fuel : nat) (tid : Z) (s : string) (escape : bool) (st : state) :
  text_init fuel tid s escape st =
  (Ok (length (heap st)),
   {| heap := heap st ++
        [with_text (built text_class [] [])
           (Some (if escape then Util.escape s true else s))];
      _with_contexts := on_top tid (collect (length (heap st))) (_with_contexts st) |}).
Proof.
  unfold text_init.
  erewrite bind_ok; [|by apply init_spec].
  erewrite bind_ok; cycle 1.
  { apply update_tag_ok. simpl. by apply list_lookup_middle. }
  unfold mret, M_ret, with_heap. simpl. f_equal. f_equal.
  replace (length (heap st)) with (length (heap st) + 0) at 1 by lia.
  by rewrite insert_app_r.
Qed.

(** X28. A [text] node holds its string escaped and [raw] holds it as it
    is, and that is all either renders to: no tag around it, no
    indentation, whatever [indent], [pretty] and [xhtml] are.  The new
    node has no child and no attribute, and it is recorded in the
    innermost open frame of the thread like any new tag. *)
Theorem text_and_raw_render (fuel rfuel : nat) (tid : Z) (s : string) (st : state)
    (indent : string) (pretty xhtml : bool) :
  let node t :=
    (Ok (length (heap st)),
     {| heap := heap st ++ [with_text (built text_class [] []) (Some t)];
        _with_contexts :=
          on_top tid (collect (length (heap st))) (_with_contexts st) |}) in
  text_init fuel tid s true st = node (Util.escape s true) /\
  raw fuel tid s st = node s /\
  render (S rfuel) (text_init fuel tid s true st).2 (length (heap st))
    indent pretty xhtml = Ok (Util.escape s true) /\
  render (S rfuel) (raw fuel tid s st).2 (length (heap st))
    indent pretty xhtml = Ok s.
Proof.
  intros node. unfold raw. rewrite !text_init_spec.
  split; [done|]. split; [done|].
  unfold render. simpl.
  rewrite !(list_lookup_middle _ [] _ (length (heap st))) by done. simpl.
  by rewrite !append_nil_r.
Qed.

(** ** The document of a tree *)

Section SetdocumentMore.

Context (doc : option nat).

Lemma documents_only_refl (st : state) : documents_only doc st st.
Proof. split; [done|]. split; [done|]. intros a t H. by left. Qed.

Lemma documents_only_trans (st1 st2 st3 : state) :
  documents_only doc st1 st2 -> documents_only doc st2 st3 ->
  documents_only doc st1 st3.
Proof.
  intros (Hc1 & Hl1 & H1) (Hc2 & Hl2 & H2).
  split; [congruence|]. split; [congruence|].
  intros a t Ha. destruct (H1 a t Ha) as [Ha2|Ha2].
  - by apply H2.
  - destruct (H2 _ _ Ha2) as [Ha3|Ha3]; right; [done|].
    by rewrite Ha3.
Qed.

Lemma documents_only_put (st : state) (a : nat) (n : dom_tag) :
  heap st !! a = Some n ->
  documents_only doc st (put_tag a (with_document n doc) st).2.
Proof.
  intros Hn. split; [done|]. split; [simpl; by rewrite length_insert|].
  intros b t Hb. simpl. destruct (decide (b = a)) as [->|Hne].
  - right. rewrite list_lookup_insert_eq by by eapply lookup_lt_Some.
    congruence.
  - left. by rewrite list_lookup_insert_ne.
Qed.

Lemma documents_only_children (recur : nat -> M unit) (cs : list child) (st : state) :
  (forall c st0, documents_only doc st0 (recur c st0).2) ->
  documents_only doc st (setdocument_children recur cs st).2.
Proof.
  intros Hrec. revert st. induction cs as [|[c|s] cs IH]; intros st.
  - apply documents_only_refl.
  - simpl. unfold mbind, M_bind. pose proof (Hrec c st) as Hc.
    destruct (recur c st) as [[[]| | |] st1]; simpl in *; try done.
    eapply documents_only_trans; [exact Hc|apply IH].
  - apply documents_only_refl.
Qed.

Lemma documents_only_setdocument (fuel : nat) (self : nat) (st : state) :
  documents_only doc st (setdocument fuel self doc st).2.
Proof.
  revert self st. induction fuel as [|fuel IH]; intros self st.
  - apply documents_only_refl.
  - simpl. unfold mbind at 1, M_bind at 1, get_tag.
    destruct (heap st !! self) as [n|] eqn:Hn; [|apply documents_only_refl].
    destruct (decide (document n <> doc)); [|apply documents_only_refl].
    unfold mbind, M_bind.
    eapply documents_only_trans; [by apply documents_only_put|].
    simpl. apply documents_only_children. intros c st0. apply IH.
Qed.

End SetdocumentMore.

(** X29. [setdocument(doc)] writes nothing but [document] fields, and
    only the value [doc]: whether it returns or not, every tag of the store
    is afterwards what it was or what it was with the document [doc];
    children, parents, attributes and the frames are untouched, and no tag
    is made or lost. *)
Theorem setdocument_writes_documents_only (fuel : nat) (self : nat)
    (doc : option nat) (st : state) :
  documents_only doc st (setdocument fuel self doc st).2.
Proof. apply documents_only_setdocument. Qed.

(** X30. Setting the same document again does nothing: after
    [setdocument(doc)] on a tag, a second [setdocument(doc)] on it returns
    at once and changes nothing, since the tag has kept the document. *)
Theorem setdocument_again_is_noop (fuel fuel' : nat) (self : nat)
    (doc : option nat) (st : state) :
  is_Some (heap st !! self) ->
  let st' := (setdocument (S fuel) self doc st).2 in
  setdocument (S fuel') self doc st' = (Ok tt, st').
Proof.
  intros [n Hn] st'.
  assert (exists n', heap st' !! self = Some n' /\ document n' = doc) as (n' & Hn' & Hd).
  { unfold st'. simpl. erewrite bind_ok; [|by apply get_tag_ok].
    destruct (decide (document n <> doc)) as [Hne|He].
    - unfold mbind, M_bind. simpl.
      destruct (documents_only_children doc
                  (fun i => setdocument fuel i doc) (children n)
                  (with_heap st (<[self := with_document n doc]> (heap st))))
        as (_ & _ & H).
      { intros c st0. apply documents_only_setdocument. }
      destruct (H self (with_document n doc)) as [H1|H1].
      + simpl. apply list_lookup_insert_eq. by eapply lookup_lt_Some.
      + by eexists.
      + by eexists.
    - exists n. split; [done|]. by destruct (decide (document n = doc)). }
  simpl. erewrite bind_ok; [|by apply get_tag_ok].
  by rewrite decide_False by (intros H; by apply H).
Qed.

Lemma setdocument_again_is_noop_witness :
  let st' := (setdocument 2 0 (Some 0) {| heap := div_with_p; _with_contexts := ∅ |}).2 in
  setdocument 1 0 (Some 0) st' = (Ok tt, st').
Proof.
  apply (setdocument_again_is_noop 1 0 0 (Some 0)
           {| heap := div_with_p; _with_contexts := ∅ |}).
  by eexists.
Defined.
